(** * Life Atlas: the memory store and its marker cache

    A shallow embedding of the [LifeAtlas] class of [js/app.js] and the
    properties of its create / edit / delete / filter / import / export
    operations.

    Conventions of the embedding.
    - A JavaScript string is a Rocq [string] holding the bytes of its
      UTF-8 encoding, a surrogate without its pair as the three bytes of its
      code point.  [length], [substring] and [<] on strings go by UTF-16
      code units, as in JavaScript: [String_length], [String_prefix] and
      [String_lt].
    - A nested object or array inside a record is opaque ([Ref]): it is
      compared by identity, and where the program turns it into a string the
      conversion is the runtime's and is taken not to throw.
    - JavaScript numbers are kept abstract ([number]): the program only
      compares them with [===], tests their truthiness and hands them to the
      map library.  [NaN] is not a member (no value read from JSON or from
      the clock is [NaN]), so [===] is plain equality.
    - Every method is a computation in the monad [M]: it reads and updates
      the fields of the application object, may throw, and emits the
      user-visible effects (alerts, toasts, modal switches) in order.  A
      thrown exception keeps the mutations made before it, as in JavaScript.
    - The runtime and the map library are interfaces of the section:
      [String_trim], [JSON_parse], [JSON_stringify], the storage quota, the
      coordinates Leaflet accepts and the coercing branch of [<].
    - The keys of the marker cache (a JavaScript [Map]) are compared as the
      program compares ids with [===]: on the values of the embedding the
      two equalities agree.
    - [getStats] is embedded as far as its table holds counts and its sum
      adds string lengths; past that the two fields are [None].
    - Not embedded: the filter panel toggle, the floating button, the
      ripple effect, the welcome message and the geolocation request.  None
      of them writes [memories] or [pins]. *)

From Stdlib Require Import Ascii String.
From stdpp Require Import base numbers list strings option pretty gmap sorting.

(** ** Values *)

Section Model.

Context {number : Type} `{EqDecision number}.

(** A primitive value, or a reference to a nested object or array whose
    content the program never reads ([Ref], compared by identity). *)
Inductive jsval :=
  | Undefined
  | Null
  | Bool (b : bool)
  | Num (n : number)
  | Str (s : string)
  | Ref (a : nat).

#[global] Instance jsval_eq_dec : EqDecision jsval.
Proof. solve_decision. Defined.

(** An entry of the [memories] array: a primitive, or an object given by
    its own properties in insertion order. *)
Inductive element :=
  | Prim (v : jsval)
  | Obj (props : list (string * jsval)).

#[global] Instance element_eq_dec : EqDecision element.
Proof. solve_decision. Defined.

(** What [JSON.parse] produces: an array of entries, or anything else. *)
Inductive json :=
  | JArray (l : list element)
  | JOther (v : element).

Inductive exn :=
  | TypeError
  | SyntaxError
  | LeafletError
  | InvalidFileFormat.

Inductive completion (A : Type) :=
  | Normal (a : A)
  | Throw (e : exn).
#[global] Arguments Normal {A} a.
#[global] Arguments Throw {A} e.

(** [a === b] *)
Definition strict_eq (a b : jsval) : bool := bool_decide (a = b).

Variable ToBoolean_number : number → bool.

Definition truthy_string (s : string) : bool := negb (bool_decide (s = EmptyString)).

Definition truthy_val (v : jsval) : bool :=
  match v with
  | Undefined | Null => false
  | Bool b => b
  | Num n => ToBoolean_number n
  | Str s => truthy_string s
  | Ref _ => true
  end.

Definition truthy (e : element) : bool :=
  match e with
  | Prim v => truthy_val v
  | Obj _ => true
  end.

Fixpoint own (k : string) (props : list (string * jsval)) : jsval :=
  match props with
  | [] => Undefined
  | (k', v) :: rest => if bool_decide (k' = k) then v else own k rest
  end.

(** [e.k]: reading a property of [null] or [undefined] throws, a primitive
    or an untracked object has none of the properties the program reads. *)
Definition prop (e : element) (k : string) : completion jsval :=
  match e with
  | Prim Undefined | Prim Null => Throw TypeError
  | Prim _ => Normal Undefined
  | Obj props => Normal (own k props)
  end.

(** ** Strings in code units

    A character of one, two or three bytes is one UTF-16 code unit, a
    character of four bytes is two, a high and a low surrogate. *)

(** The bytes 0x80 to 0xBF continue a character, the bytes from 0xF0 on
    start one of four bytes. *)
Definition continues (c : ascii) : bool :=
  (128 <=? N_of_ascii c)%N && (N_of_ascii c <? 192)%N.

Definition starts_four (c : ascii) : bool := (240 <=? N_of_ascii c)%N.

(** The code units of the character a byte starts. *)
Definition code_units (c : ascii) : nat :=
  if continues c then 0 else if starts_four c then 2 else 1.

(** [s.length]. *)
Fixpoint String_length (s : string) : nat :=
  match s with
  | EmptyString => 0
  | String c rest => code_units c + String_length rest
  end.

(** The three bytes of a code unit from 0x800 on. *)
Definition three_bytes (u : N) : string :=
  String (ascii_of_N (224 + u / 4096)%N)
    (String (ascii_of_N (128 + (u / 64) mod 64)%N)
       (String (ascii_of_N (128 + u mod 64)%N) EmptyString)).

(** The high and the low surrogate of a character of four bytes. *)
Definition surrogates (c0 c1 c2 c3 : ascii) : N * N :=
  let point := ((N_of_ascii c0 - 240) * 262144 + (N_of_ascii c1 - 128) * 4096 +
                (N_of_ascii c2 - 128) * 64 + (N_of_ascii c3 - 128))%N in
  (55296 + ((point - 65536) / 1024) mod 1024, 56320 + (point - 65536) mod 1024)%N.

(** The byte at a place of a string, [0] past its end. *)
Definition byte_at (i : nat) (s : string) : ascii := default Ascii.zero (String.get i s).

(** [s.substring(0, n)].  Where the cut falls inside a surrogate pair the
    high surrogate stays, without its pair. *)
Fixpoint String_prefix (n : nat) (s : string) : string :=
  match s with
  | EmptyString => EmptyString
  | String c rest =>
      if continues c then String c (String_prefix n rest)
      else
        match n with
        | 0 => EmptyString
        | S n' =>
            if starts_four c then
              match n' with
              | 0 => three_bytes
                       (surrogates c (byte_at 0 rest) (byte_at 1 rest) (byte_at 2 rest)).1
              | S n'' => String c (String_prefix n'' rest)
              end
            else String c (String_prefix n' rest)
        end
  end.

(** The string with every surrogate on its own three bytes: the bytes of
    this form are in the order of the code units. *)
Fixpoint surrogates_apart (s : string) : string :=
  match s with
  | EmptyString => EmptyString
  | String c rest =>
      if starts_four c then
        match rest with
        | String c1 (String c2 (String c3 rest')) =>
            three_bytes (surrogates c c1 c2 c3).1 +:+
            three_bytes (surrogates c c1 c2 c3).2 +:+ surrogates_apart rest'
        | _ => String c (surrogates_apart rest)
        end
      else String c (surrogates_apart rest)
  end.

(** [a < b] and [a <= b] on two strings: by code units. *)
Definition String_lt (a b : string) : bool :=
  String.ltb (surrogates_apart a) (surrogates_apart b).

Definition String_le (a b : string) : bool := negb (String_lt b a).

(** [a < b]: two strings compare by code units; any other pair goes through
    the numeric coercion, left to the runtime. *)
Variable coerced_lt : jsval → jsval → bool.

Definition js_lt (a b : jsval) : bool :=
  match a, b with
  | Str x, Str y => String_lt x y
  | _, _ => coerced_lt a b
  end.

(** ** The application object *)

(** A Leaflet marker: its identity, where it stands and the mood badge of
    its icon.  The popup bound to it is never read back by the program. *)
Record marker := {
  handle : nat;
  latlng : jsval * jsval;
  data_mood : jsval
}.

#[global] Instance marker_eq_dec : EqDecision marker.
Proof. solve_decision. Defined.

Record LifeAtlas := {
  memories : list element;
  pins : list (jsval * marker);       (* a Map, in insertion order *)
  currentPin : option (jsval * jsval);
  addingMemory : bool;
  currentMemoryId : jsval;
  editingMemory : bool;
  lifeAtlasMemories : option string;  (* the localStorage item *)
  mapLayers : list marker;            (* the markers shown on the map *)
  nextHandle : nat
}.

Inductive toast_type := success | error | info.

Inductive message :=
  | Text (s : string)
  | Showing (filteredCount total : nat)
  | Imported (count : nat).

Inductive modal := memoryModal | detailModal.

Inductive ui :=
  | Alert (msg : string)
  | Toast (msg : message) (type : toast_type)
  | ConsoleError
  | Display (which : modal) (shown : bool)
  | FormReset
  | Download (text : string).

(** ** The monad of methods *)

Definition M (A : Type) : Type := LifeAtlas → completion A * LifeAtlas * list ui.

#[global] Instance M_ret : MRet M := λ A a s, (Normal a, s, []).

#[global] Instance M_bind : MBind M := λ A B f m s,
  match m s with
  | (Normal a, s1, w1) => let '(r, s2, w2) := f a s1 in (r, s2, w1 ++ w2)
  | (Throw e, s1, w1) => (Throw e, s1, w1)
  end.

Definition this : M LifeAtlas := λ s, (Normal s, s, []).
Definition assign (f : LifeAtlas → LifeAtlas) : M unit := λ s, (Normal (), f s, []).
Definition throw {A} (e : exn) : M A := λ s, (Throw e, s, []).
Definition emit (u : ui) : M unit := λ s, (Normal (), s, [u]).
Definition lift {A} (c : completion A) : M A := λ s, (c, s, []).

Definition try_catch (body : M unit) (handler : exn → M unit) : M unit := λ s,
  match body s with
  | (Normal a, s1, w1) => (Normal a, s1, w1)
  | (Throw e, s1, w1) => let '(r, s2, w2) := handler e s1 in (r, s2, w1 ++ w2)
  end.

Fixpoint forEach {A} (f : A → M unit) (l : list A) : M unit :=
  match l with
  | [] => mret ()
  | x :: rest => f x;; forEach f rest
  end.

(** Field updates. *)
Definition set_memories (l : list element) (s : LifeAtlas) : LifeAtlas :=
  {| memories := l; pins := pins s; currentPin := currentPin s;
     addingMemory := addingMemory s; currentMemoryId := currentMemoryId s;
     editingMemory := editingMemory s; lifeAtlasMemories := lifeAtlasMemories s;
     mapLayers := mapLayers s; nextHandle := nextHandle s |}.

Definition set_pins (p : list (jsval * marker)) (s : LifeAtlas) : LifeAtlas :=
  {| memories := memories s; pins := p; currentPin := currentPin s;
     addingMemory := addingMemory s; currentMemoryId := currentMemoryId s;
     editingMemory := editingMemory s; lifeAtlasMemories := lifeAtlasMemories s;
     mapLayers := mapLayers s; nextHandle := nextHandle s |}.

Definition set_currentPin (p : option (jsval * jsval)) (s : LifeAtlas) : LifeAtlas :=
  {| memories := memories s; pins := pins s; currentPin := p;
     addingMemory := addingMemory s; currentMemoryId := currentMemoryId s;
     editingMemory := editingMemory s; lifeAtlasMemories := lifeAtlasMemories s;
     mapLayers := mapLayers s; nextHandle := nextHandle s |}.

Definition set_addingMemory (b : bool) (s : LifeAtlas) : LifeAtlas :=
  {| memories := memories s; pins := pins s; currentPin := currentPin s;
     addingMemory := b; currentMemoryId := currentMemoryId s;
     editingMemory := editingMemory s; lifeAtlasMemories := lifeAtlasMemories s;
     mapLayers := mapLayers s; nextHandle := nextHandle s |}.

Definition set_currentMemoryId (v : jsval) (s : LifeAtlas) : LifeAtlas :=
  {| memories := memories s; pins := pins s; currentPin := currentPin s;
     addingMemory := addingMemory s; currentMemoryId := v;
     editingMemory := editingMemory s; lifeAtlasMemories := lifeAtlasMemories s;
     mapLayers := mapLayers s; nextHandle := nextHandle s |}.

Definition set_editingMemory (b : bool) (s : LifeAtlas) : LifeAtlas :=
  {| memories := memories s; pins := pins s; currentPin := currentPin s;
     addingMemory := addingMemory s; currentMemoryId := currentMemoryId s;
     editingMemory := b; lifeAtlasMemories := lifeAtlasMemories s;
     mapLayers := mapLayers s; nextHandle := nextHandle s |}.

Definition set_lifeAtlasMemories (t : option string) (s : LifeAtlas) : LifeAtlas :=
  {| memories := memories s; pins := pins s; currentPin := currentPin s;
     addingMemory := addingMemory s; currentMemoryId := currentMemoryId s;
     editingMemory := editingMemory s; lifeAtlasMemories := t;
     mapLayers := mapLayers s; nextHandle := nextHandle s |}.

Definition set_mapLayers (l : list marker) (s : LifeAtlas) : LifeAtlas :=
  {| memories := memories s; pins := pins s; currentPin := currentPin s;
     addingMemory := addingMemory s; currentMemoryId := currentMemoryId s;
     editingMemory := editingMemory s; lifeAtlasMemories := lifeAtlasMemories s;
     mapLayers := l; nextHandle := nextHandle s |}.

Definition set_nextHandle (n : nat) (s : LifeAtlas) : LifeAtlas :=
  {| memories := memories s; pins := pins s; currentPin := currentPin s;
     addingMemory := addingMemory s; currentMemoryId := currentMemoryId s;
     editingMemory := editingMemory s; lifeAtlasMemories := lifeAtlasMemories s;
     mapLayers := mapLayers s; nextHandle := n |}.

(** ** The runtime and the map library *)

(** [String.prototype.trim] *)
Variable String_trim : string → string.

(** [JSON.parse]: [None] is a [SyntaxError]. *)
Variable JSON_parse : string → option json.

(** [JSON.stringify(array, null, space)]; [space = 0] is the plain call. *)
Variable JSON_stringify : nat → list element → string.

(** Whether [localStorage.setItem] takes the text (the quota is not exceeded). *)
Variable localStorage_accepts : string → bool.

(** Whether [L.marker([lat, lng]).addTo(map)] takes the coordinates. *)
Variable Leaflet_accepts : jsval → jsval → bool.

(** ** The Map of pins *)

Fixpoint Map_get (k : jsval) (m : list (jsval * marker)) : option marker :=
  match m with
  | [] => None
  | (k', v) :: rest => if strict_eq k' k then Some v else Map_get k rest
  end.

Fixpoint Map_set (k : jsval) (v : marker) (m : list (jsval * marker)) : list (jsval * marker) :=
  match m with
  | [] => [(k, v)]
  | (k', v') :: rest => if strict_eq k' k then (k', v) :: rest else (k', v') :: Map_set k v rest
  end.

Fixpoint Map_delete (k : jsval) (m : list (jsval * marker)) : list (jsval * marker) :=
  match m with
  | [] => []
  | (k', v') :: rest => if strict_eq k' k then rest else (k', v') :: Map_delete k rest
  end.

(** ** Array search: [memories.find(m => m.id === x)] and [findIndex]

    Both run the same callback over the array, front to back; the callback
    throws on an entry that is [null]. *)
Fixpoint search (x : jsval) (l : list element) (i : nat) : completion (option (nat * element)) :=
  match l with
  | [] => Normal None
  | m :: rest =>
      match prop m "id" with
      | Throw e => Throw e
      | Normal v => if strict_eq v x then Normal (Some (i, m)) else search x rest (S i)
      end
  end.

Definition find (x : jsval) (l : list element) : completion (option element) :=
  match search x l 0 with
  | Normal r => Normal (snd <$> r)
  | Throw e => Throw e
  end.

Definition findIndex (x : jsval) (l : list element) : completion (option nat) :=
  match search x l 0 with
  | Normal r => Normal (fst <$> r)
  | Throw e => Throw e
  end.

(** [memory.k] where [memory] is the result of [find]: [undefined.k] throws. *)
Definition prop_of (memory : option element) (k : string) : completion jsval :=
  match memory with
  | None => Throw TypeError
  | Some m => prop m k
  end.

(** [!memory] for the result of [find]. *)
Definition missing (memory : option element) : bool :=
  match memory with
  | None => true
  | Some m => negb (truthy m)
  end.

(** ** Markers on the map *)

(** [marker.addTo(this.map)]: adding a layer twice is adding it once. *)
Definition addTo (mk : marker) : M unit :=
  assign (λ s, if bool_decide (mk ∈ mapLayers s) then s
               else set_mapLayers (mapLayers s ++ [mk]) s).

(** [marker.remove()] and [this.map.removeLayer(marker)] *)
Definition removeLayer (mk : marker) : M unit :=
  assign (λ s, set_mapLayers (filter (λ x, x ≠ mk) (mapLayers s)) s).

(** ** Methods *)

Definition showToast (msg : message) (type : toast_type) : M unit :=
  emit (Toast msg type).

Definition showModal : M unit := emit (Display memoryModal true).

Definition resetForm : M unit := emit FormReset.

Definition closeModal : M unit :=
  emit (Display memoryModal false);;
  assign (set_currentPin None);;
  assign (set_editingMemory false);;
  assign (set_currentMemoryId Null);;
  resetForm.

Definition closeDetailModal : M unit :=
  emit (Display detailModal false);;
  assign (set_currentMemoryId Null).

Definition createMemoryAt (lat lng : number) : M unit :=
  assign (set_currentPin (Some (Num lat, Num lng)));;
  showModal;;
  assign (set_addingMemory false).

Definition addMemoryMode : M unit :=
  s ← this;
  assign (set_addingMemory (negb (addingMemory s)));;
  s ← this;
  if addingMemory s
  then showToast (Text "Click anywhere on the map to place a memory pin! 📍") success
  else mret ().

Definition saveToStorage : M unit :=
  s ← this;
  let text := JSON_stringify 0 (memories s) in
  if localStorage_accepts text
  then assign (set_lifeAtlasMemories (Some text))
  else emit ConsoleError;;
       showToast (Text "Failed to save memory. Storage may be full.") error.

(** The excerpt of the popup; [memory.description.substring] throws unless
    the description is a string. *)
Definition createPopupContent (memory : element) : M string :=
  description ← lift (prop memory "description");
  match description with
  | Str d =>
      mret (String_prefix 100 d +:+
            (if bool_decide (100 < String_length d) then "..." else EmptyString))
  | _ => throw TypeError
  end.

Definition addPinToMap (memory : element) : M unit :=
  mood ← lift (prop memory "mood");
  lat ← lift (prop memory "lat");
  lng ← lift (prop memory "lng");
  (if Leaflet_accepts lat lng then mret () else throw LeafletError);;
  s ← this;
  let mk := {| handle := nextHandle s; latlng := (lat, lng); data_mood := mood |} in
  assign (set_nextHandle (S (nextHandle s)));;
  addTo mk;;
  _ ← createPopupContent memory;
  id ← lift (prop memory "id");
  assign (λ s, set_pins (Map_set id mk (pins s)) s).

Record form := {
  memoryTitle : string;
  memoryDate : string;
  memoryDescription : string;
  selectedMood : option string
}.

(** What the clock answers during one call: [Date.now()] and
    [new Date().toISOString()]. *)
Record clock := {
  Date_now : number;
  toISOString : string
}.

Definition new_memory (id : jsval) (title date description mood : string)
    (pin : jsval * jsval) (createdAt : jsval) : element :=
  Obj [("id", id); ("title", Str title); ("date", Str date);
       ("description", Str description); ("mood", Str mood);
       ("lat", pin.1); ("lng", pin.2); ("createdAt", createdAt)].

Definition saveMemory (f : form) (clk : clock) : M unit :=
  let title := String_trim (memoryTitle f) in
  let date := memoryDate f in
  let description := String_trim (memoryDescription f) in
  let mood := default "📍" (selectedMood f) in
  if negb (truthy_string title) || negb (truthy_string date) || negb (truthy_string description)
  then emit (Alert "Please fill in all required fields.")
  else
    s ← this;
    let id := if editingMemory s then currentMemoryId s else Num (Date_now clk) in
    pin ← match currentPin s with
          | Some p => mret p
          | None => throw TypeError
          end;
    createdAt ← (if editingMemory s
                 then found ← lift (find (currentMemoryId s) (memories s));
                      lift (prop_of found "createdAt")
                 else mret (Str (toISOString clk)));
    let memory := new_memory id title date description mood pin createdAt in
    (if editingMemory s
     then index ← lift (findIndex (currentMemoryId s) (memories s));
          match index with
          | Some i => assign (set_memories (<[i := memory]> (memories s)))
          | None => mret ()
          end;;
          match Map_get (currentMemoryId s) (pins s) with
          | Some mk => removeLayer mk
          | None => throw TypeError
          end
     else assign (set_memories (memories s ++ [memory])));;
    saveToStorage;;
    addPinToMap memory;;
    closeModal;;
    showToast (Text "Memory saved successfully! 🎉") success.

Definition showMemoryDetail (memoryId : jsval) : M unit :=
  s ← this;
  memory ← lift (find memoryId (memories s));
  if missing memory then mret ()
  else emit (Display detailModal true);;
       assign (set_currentMemoryId memoryId).

Definition editMemory : M unit :=
  s ← this;
  memory ← lift (find (currentMemoryId s) (memories s));
  if missing memory then mret ()
  else
    lat ← lift (prop_of memory "lat");
    lng ← lift (prop_of memory "lng");
    assign (set_currentPin (Some (lat, lng)));;
    assign (set_editingMemory true);;
    closeDetailModal;;
    showModal.

Definition deleteMemory (confirmed : bool) : M unit :=
  if confirmed then
    s ← this;
    index ← lift (findIndex (currentMemoryId s) (memories s));
    match index with
    | Some i =>
        match Map_get (currentMemoryId s) (pins s) with
        | Some mk => removeLayer mk
        | None => throw TypeError
        end;;
        assign (λ s', set_pins (Map_delete (currentMemoryId s) (pins s')) s');;
        assign (λ s', set_memories (delete i (memories s')) s');;
        saveToStorage;;
        closeDetailModal;;
        showToast (Text "Memory deleted successfully.") success
    | None => mret ()
    end
  else mret ().

Definition loadMemories : M unit :=
  s ← this;
  forEach addPinToMap (memories s).

Record filters := {
  moodFilter : string;
  dateFromFilter : string;
  dateToFilter : string
}.

(** The verdict of the loop body of [applyFilters] on one pin. *)
Definition show_pin (flt : filters) (id : jsval) : M bool :=
  s ← this;
  memory ← lift (find id (memories s));
  hide1 ← (if truthy_string (moodFilter flt)
           then mood ← lift (prop_of memory "mood");
                mret (negb (strict_eq mood (Str (moodFilter flt))))
           else mret false);
  hide2 ← (if truthy_string (dateFromFilter flt)
           then date ← lift (prop_of memory "date");
                mret (js_lt date (Str (dateFromFilter flt)))
           else mret false);
  hide3 ← (if truthy_string (dateToFilter flt)
           then date ← lift (prop_of memory "date");
                mret (js_lt (Str (dateToFilter flt)) date)
           else mret false);
  mret (negb (hide1 || hide2 || hide3)).

Fixpoint applyFilters_loop (flt : filters) (entries : list (jsval * marker))
    (filteredCount : nat) : M nat :=
  match entries with
  | [] => mret filteredCount
  | (id, mk) :: rest =>
      show ← show_pin flt id;
      if show : bool
      then addTo mk;; applyFilters_loop flt rest (S filteredCount)
      else removeLayer mk;; applyFilters_loop flt rest filteredCount
  end.

Definition applyFilters (flt : filters) : M unit :=
  s ← this;
  filteredCount ← applyFilters_loop flt (pins s) 0;
  s ← this;
  showToast (Showing filteredCount (length (memories s))) success.

Definition clearFilters : M unit :=
  s ← this;
  forEach (λ entry, addTo entry.2) (pins s);;
  showToast (Text "All filters cleared") success.

Definition exportMemories : M unit :=
  s ← this;
  emit (Download (JSON_stringify 2 (memories s)));;
  showToast (Text "Memories exported successfully! 📁") success.

(** The [onload] callback of [importMemories], on the text of the file. *)
Definition importMemories (text : string) : M unit :=
  try_catch
    (importedMemories ← match JSON_parse text with
                        | Some j => mret j
                        | None => throw SyntaxError
                        end;
     match importedMemories with
     | JOther _ => throw InvalidFileFormat
     | JArray l =>
         s ← this;
         forEach (λ entry, removeLayer entry.2) (pins s);;
         assign (set_pins []);;
         assign (set_memories l);;
         saveToStorage;;
         loadMemories;;
         showToast (Imported (length l)) success
     end)
    (λ _, emit ConsoleError;;
          showToast (Text "Failed to import memories. Please check the file format.") error).

(** The constructor, on the content of the storage item: what it throws, or
    the application object after [init].  A stored value that is falsy
    gives the empty array; a truthy one that is no array has no [forEach]. *)
Definition blank : LifeAtlas :=
  {| memories := []; pins := []; currentPin := None; addingMemory := false;
     currentMemoryId := Null; editingMemory := false; lifeAtlasMemories := None;
     mapLayers := []; nextHandle := 0 |}.

Definition constructor (stored : option string) : completion LifeAtlas :=
  let parsed := match stored with
                | None => Some (JOther (Prim Null))
                | Some text => JSON_parse text
                end in
  match parsed with
  | None => Throw SyntaxError
  | Some (JOther v) =>
      if truthy v then Throw TypeError
      else Normal (set_lifeAtlasMemories stored blank)
  | Some (JArray l) =>
      match loadMemories (set_memories l (set_lifeAtlasMemories stored blank)) with
      | (Normal _, s, _) => Normal s
      | (Throw e, _, _) => Throw e
      end
  end.

(** ** Events

    What the page can do to the application object between two renderings:
    the handlers wired in [setupEventListeners], the global functions of the
    buttons, the click on the map and the [onload] of an import. *)
Inductive event :=
  | AddMemoryMode
  | MapClick (lat lng : number)
  | Submit (f : form) (clk : clock)
  | ShowMemoryDetail (memoryId : jsval)
  | CloseDetailModal
  | CloseModal
  | EditMemory
  | DeleteMemory (confirmed : bool)
  | ApplyFilters (flt : filters)
  | ClearFilters
  | ExportMemories
  | ImportMemories (text : string)
  | PageHidden.

Definition handler (ev : event) : M unit :=
  match ev with
  | AddMemoryMode => addMemoryMode
  | MapClick lat lng =>
      s ← this;
      if addingMemory s then createMemoryAt lat lng else mret ()
  | Submit f clk => saveMemory f clk
  | ShowMemoryDetail memoryId => showMemoryDetail memoryId
  | CloseDetailModal => closeDetailModal
  | CloseModal => closeModal
  | EditMemory => editMemory
  | DeleteMemory confirmed => deleteMemory confirmed
  | ApplyFilters flt => applyFilters flt
  | ClearFilters => clearFilters
  | ExportMemories => exportMemories
  | ImportMemories text => importMemories text
  | PageHidden => saveToStorage
  end.

(** The application object once the handler has run, also when it threw. *)
Definition after (ev : event) (s : LifeAtlas) : LifeAtlas := (handler ev s).1.2.

Definition run (evs : list event) (s : LifeAtlas) : LifeAtlas :=
  foldl (λ s ev, after ev s) s evs.

Inductive reachable : LifeAtlas → Prop :=
  | reachable_start stored s :
      constructor stored = Normal s → reachable s
  | reachable_after s ev :
      reachable s → reachable (after ev s).

(** ** Vocabulary of the specification *)

(** The id of an entry, when reading it does not throw. *)
Definition id_of (m : element) : option jsval :=
  match prop m "id" with
  | Normal v => Some v
  | Throw _ => None
  end.

Definition ids (l : list element) : list jsval := omap id_of l.

Definition keys (p : list (jsval * marker)) : list jsval := p.*1.

(** A required field of the form is blank. *)
Definition blank_field (f : form) : Prop :=
  String_trim (memoryTitle f) = EmptyString ∨
  memoryDate f = EmptyString ∨
  String_trim (memoryDescription f) = EmptyString.

Definition required_present (f : form) : Prop :=
  String_trim (memoryTitle f) ≠ EmptyString ∧
  memoryDate f ≠ EmptyString ∧
  String_trim (memoryDescription f) ≠ EmptyString.

(** The record [create] stores for a form, a location and a clock. *)
Definition created (f : form) (clk : clock) (pin : jsval * jsval) : element :=
  new_memory (Num (Date_now clk)) (String_trim (memoryTitle f)) (memoryDate f)
    (String_trim (memoryDescription f)) (default "📍" (selectedMood f)) pin
    (Str (toISOString clk)).

(** The effects of a failed import, as the user sees them. *)
Definition import_failure : list ui :=
  [ConsoleError;
   Toast (Text "Failed to import memories. Please check the file format.") error].

(** The filter of the specification: a conjunction of mood equals,
    date ≥ from and date ≤ to, an empty field of the filter being true. *)
Definition mood_equals (mood : string) (m : element) : bool :=
  match prop m "mood" with
  | Normal v => bool_decide (v = Str mood)
  | Throw _ => false
  end.

Definition date_from (from : string) (m : element) : bool :=
  match prop m "date" with
  | Normal (Str d) => String_le from d
  | _ => false
  end.

Definition date_to (to : string) (m : element) : bool :=
  match prop m "date" with
  | Normal (Str d) => String_le d to
  | _ => false
  end.

Definition selects (flt : filters) (m : element) : bool :=
  (bool_decide (moodFilter flt = EmptyString) || mood_equals (moodFilter flt) m) &&
  (bool_decide (dateFromFilter flt = EmptyString) || date_from (dateFromFilter flt) m) &&
  (bool_decide (dateToFilter flt = EmptyString) || date_to (dateToFilter flt) m).

(** A record is visible when the marker the cache holds for its id is on
    the map. *)
Definition visible (s : LifeAtlas) (m : element) : Prop :=
  ∃ k mk, id_of m = Some k ∧ Map_get k (pins s) = Some mk ∧ mk ∈ mapLayers s.

(** The date of every record is a string. *)
Definition dated (m : element) : Prop :=
  ∃ d, prop m "date" = Normal (Str d).

(** The data model of the specification, on an application object: ids are
    unique, every entry has an id, and the cache holds one marker of its
    own per id of the collection. *)
Record synchronized (s : LifeAtlas) : Prop := {
  sync_ids : NoDup (ids (memories s));
  sync_entries : Forall (λ m, is_Some (id_of m)) (memories s);
  sync_keys : NoDup (keys (pins s));
  sync_markers : NoDup (pins s).*2;
  sync_cached : Forall (λ k, k ∈ keys (pins s)) (ids (memories s));
  sync_stored : Forall (λ k, k ∈ ids (memories s)) (keys (pins s))
}.

(** What keeps ids unique across an event: a creation draws a timestamp
    that is no id of the collection, an import brings distinct ids. *)
Definition keeps_ids_apart (s : LifeAtlas) (ev : event) : Prop :=
  match ev with
  | Submit f clk =>
      editingMemory s = false → Num (Date_now clk) ∉ ids (memories s)
  | ImportMemories text =>
      ∀ l, JSON_parse text = Some (JArray l) → NoDup (ids l)
  | _ => True
  end.

Fixpoint all_keep_ids_apart (evs : list event) (s : LifeAtlas) : Prop :=
  match evs with
  | [] => True
  | ev :: rest => keeps_ids_apart s ev ∧ all_keep_ids_apart rest (after ev s)
  end.

(** The filter of the specification on the record a key of the cache
    leads to. *)
Definition verdict (flt : filters) (l : list element) (k : jsval) : bool :=
  match find k l with
  | Normal (Some m) => selects flt m
  | _ => false
  end.

(** The layers of the map once a marker is shown or hidden. *)
Definition toggled (show : bool) (mk : marker) (layers : list marker) : list marker :=
  if show then (if bool_decide (mk ∈ layers) then layers else layers ++ [mk])
  else filter (λ x, x ≠ mk) layers.

(** Every key of the cache is the id of an entry of the collection, and
    no key is held twice. *)
Definition sound (l : list element) (p : list (jsval * marker)) : Prop :=
  NoDup (keys p) ∧ Forall (λ k, k ∈ ids l) (keys p).

Definition cache_sound (s : LifeAtlas) : Prop := sound (memories s) (pins s).

(** A record whose marker can be built: it has an id, a description that
    is a string and coordinates that Leaflet takes. *)
Definition renderable (m : element) : Prop :=
  is_Some (id_of m) ∧
  (∃ d, prop m "description" = Normal (Str d)) ∧
  (∃ lat lng, prop m "lat" = Normal lat ∧ prop m "lng" = Normal lng ∧
              Leaflet_accepts lat lng = true).

(** Every marker of the cache was made before the next one will be. *)
Definition fresh_handles (s : LifeAtlas) : Prop :=
  Forall (λ entry, handle entry.2 < nextHandle s) (pins s).

Definition tidy (s : LifeAtlas) : Prop := synchronized s ∧ fresh_handles s.

(** What keeps the collection and the cache in step across an event: a
    submit happens at a location the map takes and, for a creation, at a
    time that is no id of the collection; an import brings records that can
    be rendered, under distinct ids. *)
Definition orderly (s : LifeAtlas) (ev : event) : Prop :=
  match ev with
  | Submit f clk =>
      (∀ pin, currentPin s = Some pin → Leaflet_accepts pin.1 pin.2 = true) ∧
      (editingMemory s = false → Num (Date_now clk) ∉ ids (memories s))
  | ImportMemories text =>
      ∀ l, JSON_parse text = Some (JArray l) → NoDup (ids l) ∧ Forall renderable l
  | _ => True
  end.

Fixpoint all_orderly (evs : list event) (s : LifeAtlas) : Prop :=
  match evs with
  | [] => True
  | ev :: rest => orderly s ev ∧ all_orderly rest (after ev s)
  end.

(** A field of the application object that the view state (layers of the
    map, storage item, picked location, modes, id on display) does not
    determine. *)
Definition stable {C} (field : LifeAtlas → C) : Prop :=
  ∀ s,
    (∀ layers, field (set_mapLayers layers s) = field s) ∧
    (∀ text, field (set_lifeAtlasMemories text s) = field s) ∧
    (∀ pin, field (set_currentPin pin s) = field s) ∧
    (∀ b, field (set_addingMemory b s) = field s) ∧
    (∀ v, field (set_currentMemoryId v s) = field s) ∧
    (∀ b, field (set_editingMemory b s) = field s).

(** The application object a computation leaves, also when it threw. *)
Definition final {A} (c : M A) (s : LifeAtlas) : LifeAtlas := (c s).1.2.

(** A computation leaves a field of the application object as it found it. *)
Definition keeps {A B} (field : LifeAtlas → B) (c : M A) : Prop :=
  ∀ s, field (final c s) = field s.

(** ** Further vocabulary *)

(** The storage item holds the serialisation of the collection. *)
Definition persisted (s : LifeAtlas) : Prop :=
  lifeAtlasMemories s = Some (JSON_stringify 0 (memories s)).

(** Every marker of the cache is on the map. *)
Definition on_map (s : LifeAtlas) : Prop :=
  Forall (λ entry, entry.2 ∈ mapLayers s) (pins s).

(** Every marker on the map was made before the next one will be. *)
Definition fresh_layers (s : LifeAtlas) : Prop :=
  Forall (λ mk, handle mk < nextHandle s) (mapLayers s).

(** A marker on the map that the cache does not hold. *)
Definition orphan (s : LifeAtlas) (mk : marker) : Prop :=
  mk ∈ mapLayers s ∧ (mk ∉ (pins s).*2) ∧ handle mk < nextHandle s.

(** ** The keyboard *)

(** The [keydown] listener of the document.  The two flags say whether the
    [style.display] of each modal is ['block'] when the key goes down;
    [closeModal] leaves the display of the detail modal alone, so the second
    test reads what the first one would have read. *)
Definition keydown (key : string) (memoryModal_shown detailModal_shown : bool) : M unit :=
  if bool_decide (key = "Escape")
  then (if memoryModal_shown then closeModal else mret ());;
       (if detailModal_shown then closeDetailModal else mret ());;
       s ← this;
       if addingMemory s then addMemoryMode else mret ()
  else mret ().

(** ** A random memory *)

(** [String(n)] for a number and for a nested object or array. *)
Variable Number_toString : number → string.
Variable Object_toString : nat → string.

(** [String(v)]: what a template literal and a property key make of a
    value. *)
Definition ToString (v : jsval) : string :=
  match v with
  | Undefined => "undefined"
  | Null => "null"
  | Bool true => "true"
  | Bool false => "false"
  | Num n => Number_toString n
  | Str s => s
  | Ref a => Object_toString a
  end.

(** What [randomMemory] asks of the map: the view it sets at once, and the
    record whose popup its timer opens half a second later. *)
Record jump := {
  center : jsval * jsval;
  zoom : nat;
  popup_of : element
}.

(** Whether [map.setView([lat, lng], zoom)] takes the coordinates. *)
Variable setView_accepts : jsval → jsval → bool.

(** [index] is the value of [Math.floor(Math.random() * this.memories.length)];
    an index the array does not have gives [undefined], whose [lat] cannot be
    read. *)
Definition randomMemory (index : nat) : M (option jump) :=
  s ← this;
  if bool_decide (length (memories s) = 0)
  then showToast (Text "No memories to explore yet! Start by adding your first memory.") info;;
       mret None
  else
    match memories s !! index with
    | None => throw TypeError
    | Some randomMemory =>
        lat ← lift (prop randomMemory "lat");
        lng ← lift (prop randomMemory "lng");
        (if setView_accepts lat lng then mret () else throw LeafletError);;
        title ← lift (prop randomMemory "title");
        showToast (Text ("Jumped to: " +:+ ToString title +:+ " 🎲")) success;;
        mret (Some {| center := (lat, lng); zoom := 15; popup_of := randomMemory |})
    end.

(** The callback of the timer, [this.pins.get(randomMemory.id).openPopup()],
    on the application object as it is when the timer fires: the marker
    whose popup opens. *)
Definition openPopup_later (randomMemory : element) : M marker :=
  s ← this;
  id ← lift (prop randomMemory "id");
  match Map_get id (pins s) with
  | Some mk => mret mk
  | None => throw TypeError
  end.

(** ** Statistics *)

(** Whether every object inherits a property of that name from
    [Object.prototype] ([constructor], [toString], [__proto__], ...): the
    count of such a mood does not start from [undefined]. *)
Variable Object_prototype_has : string → bool.

(** [String(new Date(v))], which is what [sort] compares. *)
Variable Date_toString : jsval → string.

(** What [getStats] returns.  A [Date] object is given by the value it was
    made from, and no date is [null].  [moods] is the object used as a table
    of counts, and [None] when it holds something that is no count;
    [averageDescriptionLength] is [None] when it is not the average of
    string lengths. *)
Record stats := {
  total : nat;
  moods : option (gmap string nat);
  oldestDate : option jsval;
  newestDate : option jsval;
  averageDescriptionLength : option nat
}.

(** What the loop of [getStats] has gathered. *)
Record tally := {
  counted : option (gmap string nat);
  dates : list jsval;
  totalLength : option nat
}.

(** [stats.moods[mood] = (stats.moods[mood] || 0) + 1].  A count is never
    [0], so [|| 0] stands in for a missing key only; what an inherited
    property makes of the sum is not followed. *)
Definition count_mood (mood : jsval) (table : option (gmap string nat)) :
    option (gmap string nat) :=
  match table with
  | Some table =>
      let key := ToString mood in
      if Object_prototype_has key then None
      else Some (<[key := S (default 0 (table !! key))]> table)
  | None => None
  end.

(** [totalLength += description.length], in code units.  The [length] of
    a number or of a boolean is [undefined] and makes the sum [NaN]; the one
    of a nested object or array is not followed. *)
Definition add_length (description : jsval) (sum : option nat) : completion (option nat) :=
  match description with
  | Undefined | Null => Throw TypeError
  | Str d =>
      Normal (match sum with Some n => Some (n + String_length d) | None => None end)
  | Bool _ | Num _ | Ref _ => Normal None
  end.

(** The callback of the loop. *)
Definition tally_memory (memory : element) (t : tally) : completion tally :=
  match prop memory "mood" with
  | Throw e => Throw e
  | Normal mood =>
      match prop memory "date" with
      | Throw e => Throw e
      | Normal date =>
          match prop memory "description" with
          | Throw e => Throw e
          | Normal description =>
              match add_length description (totalLength t) with
              | Throw e => Throw e
              | Normal sum =>
                  Normal {| counted := count_mood mood (counted t);
                            dates := dates t ++ [date];
                            totalLength := sum |}
              end
          end
      end
  end.

Fixpoint tally_all (l : list element) (t : tally) : completion tally :=
  match l with
  | [] => Normal t
  | memory :: rest =>
      match tally_memory memory t with
      | Normal t' => tally_all rest t'
      | Throw e => Throw e
      end
  end.

(** [Array.prototype.sort] with no comparison function, on [Date]
    objects: by their printed form, in the order of code units, dates with
    the same printed form staying in the order they had. *)
Fixpoint sort_insert (x : jsval) (sorted : list jsval) : list jsval :=
  match sorted with
  | [] => [x]
  | y :: rest =>
      if String_lt (Date_toString x) (Date_toString y) then x :: sorted
      else y :: sort_insert x rest
  end.

Definition Array_sort (l : list jsval) : list jsval :=
  foldl (λ sorted x, sort_insert x sorted) [] l.

(** [Math.round(a / b)] for two integers, [b] positive: the nearest
    integer, a half going up (the quotient of two integers below 2^52 is
    rounded as the exact one is). *)
Definition Math_round_div (a b : nat) : nat := (2 * a + b) / (2 * b).

Definition getStats : M stats :=
  s ← this;
  if bool_decide (length (memories s) = 0)
  then mret {| total := length (memories s); moods := Some ∅; oldestDate := None;
               newestDate := None; averageDescriptionLength := Some 0 |}
  else
    t ← lift (tally_all (memories s) {| counted := Some ∅; dates := []; totalLength := Some 0 |});
    let sorted := Array_sort (dates t) in
    mret {| total := length (memories s); moods := counted t;
            oldestDate := head sorted; newestDate := last sorted;
            averageDescriptionLength :=
              match totalLength t with
              | Some sum => Some (Math_round_div sum (length (memories s)))
              | None => None
              end |}.

(** ** Vocabulary of the statistics *)

(** The key under which a record is counted. *)
Definition mood_key (m : element) : option string :=
  match prop m "mood" with
  | Normal mood => Some (ToString mood)
  | Throw _ => None
  end.

(** A record counted under the name of a property every object inherits. *)
Definition inherited_mood (m : element) : Prop :=
  match mood_key m with
  | Some key => Object_prototype_has key = true
  | None => False
  end.

(** The date of a record, as [new Date] is given it. *)
Definition date_of (m : element) : option jsval :=
  match prop m "date" with
  | Normal date => Some date
  | Throw _ => None
  end.

(** The description of a record, when it is a string. *)
Definition description_of (m : element) : option string :=
  match prop m "description" with
  | Normal (Str d) => Some d
  | _ => None
  end.

(** The length of the description of a record, in code units. *)
Definition description_length (m : element) : nat :=
  from_option String_length 0 (description_of m).

(** A record whose description has no [length] to read: the record is
    [null] or [undefined], or its description is. *)
Definition no_description (m : element) : Prop :=
  match prop m "description" with
  | Normal Undefined | Normal Null | Throw _ => True
  | _ => False
  end.

#[global] Instance no_description_dec m : Decision (no_description m).
Proof. unfold no_description. destruct (prop m "description") as [[]|]; apply _. Defined.

(** The sum of the counts of a table. *)
Definition counts (table : gmap string nat) : nat :=
  map_fold (λ _ n sum, n + sum) 0 table.

(** The printed form of one date does not come after the one of another. *)
Definition printed_le (a b : jsval) : Prop :=
  String_lt (Date_toString b) (Date_toString a) = false.

End Model.

(** ** A concrete runtime

    An instance of the interfaces on which the model runs: integers for
    numbers, and a reader and a printer for the flat JSON documents the
    application stores (arrays of scalars and of objects with scalar
    members, integer numerals, strings without escapes). *)
Module Sample.

Open Scope char_scope.

Definition dquote : ascii := ascii_of_nat 34.
Definition newline : ascii := ascii_of_nat 10.

Definition is_space (c : ascii) : bool :=
  bool_decide (nat_of_ascii c ∈ [9; 10; 11; 12; 13; 32]).

Fixpoint skip (l : list ascii) : list ascii :=
  match l with
  | c :: rest => if is_space c then skip rest else l
  | [] => []
  end.

Definition trim (s : string) : string :=
  string_of_list_ascii
    (rev (skip (rev (skip (list_ascii_of_string s))))).

Definition digit (c : ascii) : option Z :=
  let n := nat_of_ascii c in
  if bool_decide (48 ≤ n ≤ 57) then Some (Z.of_nat (n - 48)) else None.

Fixpoint digits (l : list ascii) (acc : Z) : Z * list ascii :=
  match l with
  | c :: rest =>
      match digit c with
      | Some d => digits rest (10 * acc + d)%Z
      | None => (acc, l)
      end
  | [] => (acc, [])
  end.

(** The characters of a string literal, after its opening quote. *)
Fixpoint chars (l acc : list ascii) : option (string * list ascii) :=
  match l with
  | [] => None
  | c :: rest =>
      if bool_decide (c = dquote) then Some (string_of_list_ascii (rev acc), rest)
      else if bool_decide (c = "\") then None
      else chars rest (c :: acc)
  end.

Definition scalar (l : list ascii) : option (@jsval Z * list ascii) :=
  match l with
  | "n" :: "u" :: "l" :: "l" :: rest => Some (Null, rest)
  | "t" :: "r" :: "u" :: "e" :: rest => Some (Bool true, rest)
  | "f" :: "a" :: "l" :: "s" :: "e" :: rest => Some (Bool false, rest)
  | "-" :: rest =>
      match rest with
      | c :: _ =>
          match digit c with
          | Some _ => let '(n, rest') := digits rest 0 in Some (Num (- n)%Z, rest')
          | None => None
          end
      | [] => None
      end
  | c :: rest =>
      if bool_decide (c = dquote)
      then '(s, rest') ← chars rest []; Some (Str s, rest')
      else match digit c with
           | Some _ => let '(n, rest') := digits l 0 in Some (Num n, rest')
           | None => None
           end
  | [] => None
  end.

(** The members of an object, after its opening brace. *)
Fixpoint members (fuel : nat) (l : list ascii) (acc : list (string * @jsval Z))
    : option (list (string * @jsval Z) * list ascii) :=
  match fuel with
  | 0 => None
  | S fuel' =>
      match skip l with
      | c :: rest =>
          if bool_decide (c = dquote) then
            '(k, rest1) ← chars rest [];
            if bool_decide (k ∈ acc.*1) then None else
            match skip rest1 with
            | ":" :: rest2 =>
                '(v, rest3) ← scalar (skip rest2);
                match skip rest3 with
                | "," :: rest4 => members fuel' rest4 (acc ++ [(k, v)])
                | "}" :: rest4 => Some (acc ++ [(k, v)], rest4)
                | _ => None
                end
            | _ => None
            end
          else None
      | [] => None
      end
  end.

Definition item (l : list ascii) : option (@element Z * list ascii) :=
  match skip l with
  | "{" :: rest =>
      match skip rest with
      | "}" :: rest' => Some (Obj [], rest')
      | _ => '(ps, rest') ← members (length rest) rest []; Some (Obj ps, rest')
      end
  | l' => '(v, rest) ← scalar l'; Some (Prim v, rest)
  end.

(** The items of an array, after its opening bracket. *)
Fixpoint items (fuel : nat) (l : list ascii) (acc : list (@element Z))
    : option (list (@element Z) * list ascii) :=
  match fuel with
  | 0 => None
  | S fuel' =>
      '(e, rest) ← item l;
      match skip rest with
      | "," :: rest' => items fuel' rest' (acc ++ [e])
      | "]" :: rest' => Some (acc ++ [e], rest')
      | _ => None
      end
  end.

Definition parse (text : string) : option (@json Z) :=
  let ended (rest : list ascii) := bool_decide (skip rest = []) in
  match skip (list_ascii_of_string text) with
  | "[" :: rest =>
      match skip rest with
      | "]" :: rest' => if ended rest' then Some (JArray []) else None
      | _ => '(es, rest') ← items (length rest) rest [];
             if ended rest' then Some (JArray es) else None
      end
  | l => '(e, rest) ← item l; if ended rest then Some (JOther e) else None
  end.

Definition quoted (s : string) : string :=
  String dquote s +:+ String dquote EmptyString.

Definition print_scalar (v : @jsval Z) : string :=
  match v with
  | Undefined | Null => "null"
  | Bool true => "true"
  | Bool false => "false"
  | Num n => pretty n
  | Str s => quoted s
  | Ref _ => "{}"
  end.

Definition indent (space depth : nat) : string :=
  if bool_decide (space = 0) then EmptyString
  else String newline (string_of_list_ascii (replicate (space * depth) " ")).

Definition colon (space : nat) : string :=
  if bool_decide (space = 0) then ":" else ": ".

Fixpoint join (sep : string) (l : list string) : string :=
  match l with
  | [] => EmptyString
  | [x] => x
  | x :: rest => x +:+ sep +:+ join sep rest
  end.

(** A member whose value is [undefined] is left out, as [JSON.stringify] does. *)
Definition print_members (space : nat) (props : list (string * @jsval Z)) : list string :=
  omap (λ kv : string * @jsval Z,
          match kv.2 with
          | Undefined => None
          | v => Some (indent space 2 +:+ quoted kv.1 +:+ colon space +:+ print_scalar v)
          end) props.

Definition print_item (space : nat) (e : @element Z) : string :=
  indent space 1 +:+
  match e with
  | Prim v => print_scalar v
  | Obj props =>
      match print_members space props with
      | [] => "{}"
      | ms => "{" +:+ join "," ms +:+ indent space 1 +:+ "}"
      end
  end.

Definition stringify (space : nat) (l : list (@element Z)) : string :=
  match l with
  | [] => "[]"
  | _ => "[" +:+ join "," (print_item space <$> l) +:+ indent space 0 +:+ "]"
  end.

Definition ToBoolean (n : Z) : bool := negb (bool_decide (n = 0%Z)).

(** [<] on two numbers; every other coerced comparison met here involves
    [NaN] and is false. *)
Definition lt (a b : @jsval Z) : bool :=
  match a, b with
  | Num x, Num y => bool_decide (x < y)%Z
  | _, _ => false
  end.

Definition unlimited (text : string) : bool := true.

(** Leaflet takes a pair of numbers. *)
Definition coordinates (lat lng : @jsval Z) : bool :=
  match lat, lng with
  | Num _, Num _ => true
  | _, _ => false
  end.

Definition LifeAtlas : Type := @LifeAtlas Z.

Definition handler : event → M unit :=
  @handler Z _ ToBoolean lt trim parse stringify unlimited coordinates.

Definition after : event → LifeAtlas → LifeAtlas :=
  @after Z _ ToBoolean lt trim parse stringify unlimited coordinates.

Definition run : list event → LifeAtlas → LifeAtlas :=
  @run Z _ ToBoolean lt trim parse stringify unlimited coordinates.

Definition constructor : option string → completion LifeAtlas :=
  @constructor Z _ ToBoolean parse coordinates.

(** A well-formed record, as [saveMemory] writes them. *)
Definition record (id : Z) (title date mood : string) : @element Z :=
  new_memory (Num id) title date "First hike" mood (Num 40%Z, Num (-74)%Z)
    (Str "2024-05-01T10:00:00.000Z").

Close Scope char_scope.

(** A storage that is full. *)
Definition full (text : string) : bool := false.

(** [String(n)] for an integer, and for a plain object. *)
Definition Number_toString (n : Z) : string := pretty n.
Definition Object_toString (a : nat) : string := "[object Object]".

(** The submit handler on a page whose storage is full. *)
Definition saveMemory_when_full : form → clock → M unit :=
  @saveMemory Z _ trim stringify full coordinates.

(** The names every object inherits from [Object.prototype]. *)
Definition Object_prototype_has (key : string) : bool :=
  bool_decide (key ∈ ["constructor"; "hasOwnProperty"; "isPrototypeOf";
                      "propertyIsEnumerable"; "toLocaleString"; "toString"; "valueOf";
                      "__proto__"; "__defineGetter__"; "__defineSetter__";
                      "__lookupGetter__"; "__lookupSetter__"]).

(** *** Dates

    [String(new Date(v))] in the zone UTC.  Of the strings, the reader takes
    the date-only form [YYYY-MM-DD], which is what the date field of the
    form gives; any other string is no date here, and neither is a nested
    object. *)

Definition leap (y : Z) : bool :=
  bool_decide (y `mod` 4 = 0)%Z &&
  (negb (bool_decide (y `mod` 100 = 0)%Z) || bool_decide (y `mod` 400 = 0)%Z).

Definition days_in_month (y m : Z) : Z :=
  if bool_decide (m = 2%Z) then (if leap y then 29%Z else 28%Z)
  else if bool_decide (m ∈ [4%Z; 6%Z; 9%Z; 11%Z]) then 30%Z else 31%Z.

(** The days from the first of January 1970 to a day of the calendar. *)
Definition days_from_civil (y m d : Z) : Z :=
  (let y' := if bool_decide (m ≤ 2) then y - 1 else y in
   let era := y' `div` 400 in
   let yoe := y' - era * 400 in
   let doy := (153 * (if bool_decide (2 < m) then m - 3 else m + 9) + 2) `div` 5 + d - 1 in
   let doe := yoe * 365 + yoe `div` 4 - yoe `div` 100 + doy in
   era * 146097 + doe - 719468)%Z.

(** The year, the month and the day that many days after it. *)
Definition civil_from_days (days : Z) : Z * Z * Z :=
  (let z := days + 719468 in
   let era := z `div` 146097 in
   let doe := z - era * 146097 in
   let yoe := (doe - doe `div` 1460 + doe `div` 36524 - doe `div` 146096) `div` 365 in
   let doy := doe - (365 * yoe + yoe `div` 4 - yoe `div` 100) in
   let mp := (5 * doy + 2) `div` 153 in
   let d := doy - (153 * mp + 2) `div` 5 + 1 in
   let m := if bool_decide (mp < 10) then mp + 3 else mp - 9 in
   (yoe + era * 400 + (if bool_decide (m ≤ 2) then 1 else 0), m, d))%Z.

Definition number_of (l : list ascii) : option Z :=
  foldl (λ acc c, n ← acc; d ← digit c; Some (10 * n + d)%Z) (Some 0%Z) l.

(** The time value of a date-only string. *)
Definition Date_parse (text : string) : option Z :=
  match list_ascii_of_string text with
  | [y1; y2; y3; y4; dash1; m1; m2; dash2; d1; d2] =>
      if bool_decide (dash1 = "-"%char ∧ dash2 = "-"%char) then
        y ← number_of [y1; y2; y3; y4];
        m ← number_of [m1; m2];
        d ← number_of [d1; d2];
        if bool_decide (1 ≤ m ≤ 12 ∧ 1 ≤ d ≤ days_in_month y m)%Z
        then Some (days_from_civil y m d * 86400000)%Z
        else None
      else None
  | _ => None
  end.

(** The time value of [new Date(v)]; [None] is an invalid date. *)
Definition time_value (v : @jsval Z) : option Z :=
  match v with
  | Undefined | Ref _ => None
  | Null | Bool false => Some 0%Z
  | Bool true => Some 1%Z
  | Num n =>
      if bool_decide (-8640000000000000 ≤ n ≤ 8640000000000000)%Z then Some n else None
  | Str text => Date_parse text
  end.

Definition zero_padded (width : nat) (n : Z) : string :=
  let text := pretty n in
  string_of_list_ascii (replicate (width - String.length text) "0"%char) +:+ text.

Definition weekday (day : Z) : string :=
  default EmptyString (["Sun"; "Mon"; "Tue"; "Wed"; "Thu"; "Fri"; "Sat"] !! Z.to_nat day).

Definition month (m : Z) : string :=
  default EmptyString
    (["Jan"; "Feb"; "Mar"; "Apr"; "May"; "Jun"; "Jul"; "Aug"; "Sep"; "Oct"; "Nov"; "Dec"]
       !! Z.to_nat (m - 1)).

Definition Date_toString (v : @jsval Z) : string :=
  match time_value v with
  | None => "Invalid Date"
  | Some t =>
      let days := (t `div` 86400000)%Z in
      let ms := (t `mod` 86400000)%Z in
      let '(y, m, d) := civil_from_days days in
      weekday ((days + 4) `mod` 7) +:+ " " +:+ month m +:+ " " +:+ zero_padded 2 d +:+ " " +:+
      (if bool_decide (y < 0)%Z then "-" else EmptyString) +:+ zero_padded 4 (Z.abs y) +:+ " " +:+
      zero_padded 2 (ms `div` 3600000) +:+ ":" +:+ zero_padded 2 ((ms `div` 60000) `mod` 60) +:+ ":" +:+
      zero_padded 2 ((ms `div` 1000) `mod` 60) +:+ " GMT+0000 (Coordinated Universal Time)"
  end.

(** The statistics, on this runtime. *)
Definition getStats : M (@stats Z) :=
  @getStats Z Number_toString Object_toString Object_prototype_has Date_toString.

End Sample.

(** ** Scenarios

    The pages and files on which the model is run below. *)
Module Scenario.

Import Sample.

(** The example of the specification: title "Trip", date 2024-05-01,
    description "First hike", mood 😊, at (40, -74). *)
Definition trip : form :=
  {| memoryTitle := "Trip"; memoryDate := "2024-05-01";
     memoryDescription := "First hike"; selectedMood := Some "😊" |}.

Definition untitled : form :=
  {| memoryTitle := "   "; memoryDate := "2024-05-01";
     memoryDescription := "First hike"; selectedMood := Some "😊" |}.

(** What the user types over the trip when editing it. *)
Definition retitled : form :=
  {| memoryTitle := "Trip to the lake"; memoryDate := "2024-05-02";
     memoryDescription := "First hike, second thoughts"; selectedMood := Some "🌙" |}.

Definition noon : @clock Z :=
  {| Date_now := 1700%Z; toISOString := "2024-05-01T12:00:00.000Z" |}.

(** The page after the user has armed the pin button and clicked the map. *)
Definition picking : LifeAtlas := run [AddMemoryMode; MapClick 40%Z (-74)%Z] blank.

(** The page once the trip is saved, and once its detail view is open. *)
Definition saved : LifeAtlas := after (Submit trip noon) picking.
Definition viewing : LifeAtlas := after (ShowMemoryDetail (Num 1700%Z)) saved.

(** A file with two records under the same id. *)
Definition twins : list (@element Z) :=
  [record 1 "Trip" "2024-05-01" "😊"; record 1 "Night walk" "2024-06-01" "🌙"].

Definition twins_file : string := stringify 2 twins.

(** A file whose one entry has a place and a description, and neither id
    nor title nor date nor mood. *)
Definition nameless : list (@element Z) :=
  [Obj [("description", Str "somewhere"); ("lat", Num 1%Z); ("lng", Num 2%Z)]].

Definition nameless_file : string := stringify 2 nameless.

(** A page whose collection and cache agree: three records, three pins. *)
Definition album : list (@element Z) :=
  [record 1 "Trip" "2024-05-01" "😊"; record 2 "Night walk" "2024-06-01" "🌙";
   record 3 "Picnic" "2024-07-01" "😊"].

Definition album_file : string := stringify 2 album.

Definition album_page : LifeAtlas := after (ImportMemories album_file) blank.

Definition happy_in_may_june : filters :=
  {| moodFilter := "😊"; dateFromFilter := "2024-05-01"; dateToFilter := "2024-06-30" |}.

(** The events of a session: a creation, an import of the album, a delete. *)
Definition session : list (@event Z) :=
  [AddMemoryMode; MapClick 40%Z (-74)%Z; Submit trip noon;
   ImportMemories album_file; ShowMemoryDetail (Num 2%Z); DeleteMemory true].

(** The events that leave a twin without its pin. *)
Definition twin_deleted : list (@event Z) :=
  [ImportMemories twins_file; ShowMemoryDetail (Num 1%Z); DeleteMemory true].

(** A file whose one record has no date, and the filter "from May on". *)
Definition undated : list (@element Z) :=
  [Obj [("id", Num 5%Z); ("title", Str "Someday"); ("description", Str "No day given");
        ("mood", Str "😊"); ("lat", Num 40%Z); ("lng", Num (-74)%Z)]].

Definition undated_file : string := stringify 2 undated.

Definition since_may : filters :=
  {| moodFilter := EmptyString; dateFromFilter := "2024-05-01";
     dateToFilter := EmptyString |}.

(** The filter "🌙". *)
Definition nights : filters :=
  {| moodFilter := "🌙"; dateFromFilter := EmptyString; dateToFilter := EmptyString |}.

(** The trip, typed with blanks around its title and its description. *)
Definition padded : form :=
  {| memoryTitle := "  Trip  "; memoryDate := "2024-05-01";
     memoryDescription := " First hike "; selectedMood := Some "😊" |}.




(** A file whose one record has the id [null]: the one kind of record the
    edit form can reach, since the form is opened with the id on display
    reset to [null]. *)
Definition unnumbered : list (@element Z) :=
  [new_memory Null "Trip" "2024-05-01" "First hike" "😊" (Num 40%Z, Num (-74)%Z)
     (Str "2024-05-01T10:00:00.000Z")].

Definition unnumbered_file : string := stringify 2 unnumbered.

(** The page once that record is under edit. *)
Definition editing_unnumbered : LifeAtlas :=
  run [ImportMemories unnumbered_file; ShowMemoryDetail Null; EditMemory] blank.

(** A record with a place and no description. *)
Definition undescribed : @element Z :=
  Obj [("id", Num 7%Z); ("mood", Str "🌙"); ("lat", Num 1%Z); ("lng", Num 2%Z)].

Definition undescribed_file : string := stringify 2 [undescribed].

(** The marker its rendering leaves on the map. *)
Definition stray : @marker Z :=
  {| handle := 0; latlng := (Num 1%Z, Num 2%Z); data_mood := Str "🌙" |}.

(** The page after the import of that file has failed. *)
Definition littered : LifeAtlas := after (ImportMemories undescribed_file) blank.

(** A description of 120 characters. *)
Definition long_description : string :=
  "0123456789012345678901234567890123456789012345678901234567890123456789012345678901234567890123456789 and twenty more".

(** Sixty letters of two bytes each. *)
Definition sixty_accents : string :=
  "éééééééééééééééééééééééééééééééééééééééééééééééééééééééééééé".

Definition accented : @element Z :=
  new_memory (Num 10%Z) "Été" "2024-07-01" sixty_accents "📍" (Num 40%Z, Num (-74)%Z)
    (Str "2024-07-01T10:00:00.000Z").

Definition wordy : @element Z :=
  new_memory (Num 9%Z) "Essay" "2024-05-01" long_description "📍" (Num 40%Z, Num (-74)%Z)
    (Str "2024-05-01T10:00:00.000Z").

(** Two records whose descriptions have ten and three characters, the
    second one five bytes. *)
Definition notes : list (@element Z) :=
  [new_memory (Num 1%Z) "Trip" "2024-05-01" "First hike" "😊" (Num 40%Z, Num (-74)%Z)
     (Str "2024-05-01T10:00:00.000Z");
   new_memory (Num 2%Z) "Night walk" "2024-06-01" "Été" "🌙" (Num 40%Z, Num (-74)%Z)
     (Str "2024-06-01T22:00:00.000Z")].

Definition notes_file : string := stringify 2 notes.

Definition notes_page : LifeAtlas := after (ImportMemories notes_file) blank.

Definition notes_stats : @stats Z :=
  {| total := 2; moods := Some {[ "😊" := 1; "🌙" := 1 ]};
     oldestDate := Some (Str "2024-06-01"); newestDate := Some (Str "2024-05-01");
     averageDescriptionLength := Some 7 |}.

(** The statistics of the album: its three dates are a Wednesday in May, a
    Saturday in June and a Monday in July. *)
Definition album_stats : @stats Z :=
  {| total := 3; moods := Some {[ "😊" := 2; "🌙" := 1 ]};
     oldestDate := Some (Str "2024-07-01"); newestDate := Some (Str "2024-05-01");
     averageDescriptionLength := Some 10 |}.

End Scenario.

(** * Properties *)

Section Properties.

Context {number : Type} `{EqDecision number}.
Variable ToBoolean_number : number → bool.
Variable coerced_lt : @jsval number → @jsval number → bool.
Variable String_trim : string → string.
Variable JSON_parse : string → option (@json number).
Variable JSON_stringify : nat → list (@element number) → string.
Variable localStorage_accepts : string → bool.
Variable Leaflet_accepts : @jsval number → @jsval number → bool.

Set Default Proof Using "Type".

Local Abbreviation truthy := (truthy ToBoolean_number).
Local Abbreviation missing := (missing ToBoolean_number).
Local Abbreviation saveToStorage := (saveToStorage JSON_stringify localStorage_accepts).
Local Abbreviation addPinToMap := (addPinToMap Leaflet_accepts).
Local Abbreviation loadMemories := (loadMemories Leaflet_accepts).
Local Abbreviation saveMemory :=
  (saveMemory String_trim JSON_stringify localStorage_accepts Leaflet_accepts).
Local Abbreviation showMemoryDetail := (showMemoryDetail ToBoolean_number).
Local Abbreviation editMemory := (editMemory ToBoolean_number).
Local Abbreviation deleteMemory := (deleteMemory JSON_stringify localStorage_accepts).
Local Abbreviation show_pin := (show_pin coerced_lt).
Local Abbreviation applyFilters_loop := (applyFilters_loop coerced_lt).
Local Abbreviation applyFilters := (applyFilters coerced_lt).
Local Abbreviation exportMemories := (exportMemories JSON_stringify).
Local Abbreviation importMemories :=
  (importMemories JSON_parse JSON_stringify localStorage_accepts Leaflet_accepts).
Local Abbreviation constructor := (constructor ToBoolean_number JSON_parse Leaflet_accepts).
Local Abbreviation handler :=
  (handler ToBoolean_number coerced_lt String_trim JSON_parse JSON_stringify
     localStorage_accepts Leaflet_accepts).
Local Abbreviation after :=
  (after ToBoolean_number coerced_lt String_trim JSON_parse JSON_stringify
     localStorage_accepts Leaflet_accepts).
Local Abbreviation run :=
  (run ToBoolean_number coerced_lt String_trim JSON_parse JSON_stringify
     localStorage_accepts Leaflet_accepts).
Local Abbreviation reachable :=
  (reachable ToBoolean_number coerced_lt String_trim JSON_parse JSON_stringify
     localStorage_accepts Leaflet_accepts).
Local Abbreviation all_keep_ids_apart :=
  (all_keep_ids_apart ToBoolean_number coerced_lt String_trim JSON_parse JSON_stringify
     localStorage_accepts Leaflet_accepts).
Local Abbreviation all_orderly :=
  (all_orderly ToBoolean_number coerced_lt String_trim JSON_parse JSON_stringify
     localStorage_accepts Leaflet_accepts).
Local Abbreviation keeps_ids_apart := (keeps_ids_apart JSON_parse).
Local Abbreviation orderly := (orderly JSON_parse Leaflet_accepts).
Local Abbreviation renderable := (renderable Leaflet_accepts).
Local Abbreviation blank_field := (blank_field String_trim).
Local Abbreviation required_present := (required_present String_trim).
Local Abbreviation created := (created String_trim).
Local Abbreviation keeps := (keeps (number:=number)).
Local Abbreviation final := (final (number:=number)).
Local Abbreviation stable := (stable (number:=number)).

Implicit Types (s : @LifeAtlas number) (m : @element number) (l : list (@element number)).
Implicit Types (x k : @jsval number) (mk : @marker number).
Implicit Types (p : list (@jsval number * @marker number)).
Implicit Types (clk : @clock number) (ev : @event number).

(** Drops the interfaces a statement does not mention, so that no decision
    procedure picks them up. *)
Ltac slim :=
  try clear localStorage_accepts; try clear String_trim; try clear JSON_parse;
  try clear JSON_stringify; try clear Leaflet_accepts; try clear coerced_lt;
  try clear ToBoolean_number.

(** ** The monad *)

Lemma bind_normal {A B} (c : M A) (f : A → M B) s a s1 w1 :
  c s = (Normal a, s1, w1) →
  (c ≫= f) s = ((f a s1).1.1, (f a s1).1.2, w1 ++ (f a s1).2).
Proof.
  intros Hc. unfold mbind, M_bind. rewrite Hc. by destruct (f a s1) as [[? ?] ?].
Qed.

Lemma bind_throw {A B} (c : M A) (f : A → M B) s e s1 w1 :
  c s = (Throw e, s1, w1) → (c ≫= f) s = (Throw e, s1, w1).
Proof. intros Hc. unfold mbind, M_bind. by rewrite Hc. Qed.

Lemma ret_bind {A B} (a : A) (f : A → M B) s : (mret a ≫= f) s = f a s.
Proof. unfold mbind, M_bind, mret, M_ret. by destruct (f a s) as [[? ?] ?]. Qed.

Lemma bind_assoc {A B C} (c : M A) (f : A → M B) (g : B → M C) s :
  ((c ≫= f) ≫= g) s = (c ≫= λ a, f a ≫= g) s.
Proof.
  unfold mbind, M_bind. destruct (c s) as [[[a|e] s1] w1]; [|done].
  destruct (f a s1) as [[[b|e] s2] w2]; [|done].
  destruct (g b s2) as [[? ?] ?]. by rewrite app_assoc.
Qed.

Lemma final_bind {A B} (c : M A) (f : A → M B) s :
  final (c ≫= f) s =
  match (c s).1.1 with
  | Normal a => final (f a) (final c s)
  | Throw _ => final c s
  end.
Proof.
  unfold final, mbind, M_bind. destruct (c s) as [[[a|e] s1] w1]; simpl; [|done].
  by destruct (f a s1) as [[? ?] ?].
Qed.

Lemma final_bind_assoc {A B C} (c : M A) (f : A → M B) (g : B → M C) s :
  final ((c ≫= f) ≫= g) s = final (c ≫= λ a, f a ≫= g) s.
Proof. unfold final. by rewrite bind_assoc. Qed.

Lemma final_this_bind {B} (f : @LifeAtlas number → M B) s :
  final (this ≫= f) s = final (f s) s.
Proof. by rewrite final_bind. Qed.

Lemma final_ret_bind {A B} (a : A) (f : A → M B) s :
  final (mret a ≫= f) s = final (f a) s.
Proof. by rewrite final_bind. Qed.

Lemma final_throw_bind {A B} e (f : A → M B) s :
  final (throw e ≫= f) s = s.
Proof. by rewrite final_bind. Qed.

Lemma final_lift_bind {A B} (c : completion A) (f : A → M B) s :
  final (lift c ≫= f) s = match c with Normal a => final (f a) s | Throw _ => s end.
Proof. rewrite final_bind. by destruct c. Qed.

Lemma final_assign_bind {B} g (f : unit → M B) s :
  final (assign g ≫= f) s = final (f ()) (g s).
Proof. by rewrite final_bind. Qed.

Lemma final_emit_bind {B} u (f : unit → M B) s :
  final (emit u ≫= f) s = final (f ()) s.
Proof. by rewrite final_bind. Qed.

(** A property of the application object that holds after the first part of
    a sequence, and that the second part maintains, holds at the end. *)
Lemma final_bind_ind {A B} (P : @LifeAtlas number → Prop) (c : M A) (f : A → M B) s :
  P (final c s) → (∀ a, P (final c s) → P (final (f a) (final c s))) →
  P (final (c ≫= f) s).
Proof. intros Hc Hf. rewrite final_bind. destruct ((c s).1.1); [by apply Hf|done]. Qed.

Lemma final_try_catch body handle s :
  final (try_catch body handle) s =
  match (body s).1.1 with
  | Normal _ => final body s
  | Throw e => final (handle e) (final body s)
  end.
Proof.
  unfold final, try_catch. destruct (body s) as [[[a|e] s1] w1]; simpl; [done|].
  by destruct (handle e s1) as [[? ?] ?].
Qed.

Lemma try_catch_normal body handle s :
  (∀ e s1, (handle e s1).1.1 = Normal ()) → (try_catch body handle s).1.1 = Normal ().
Proof.
  intros Hh. unfold try_catch. destruct (body s) as [[[[]|e] s1] w1]; simpl; [done|].
  specialize (Hh e s1). by destruct (handle e s1) as [[? ?] ?].
Qed.

(** ** Frames: what a computation leaves alone *)

Lemma keeps_bind {A B C} (field : @LifeAtlas number → C) (c : M A) (f : A → M B) :
  keeps field c → (∀ a, keeps field (f a)) → keeps field (c ≫= f).
Proof.
  intros Hc Hf s. rewrite final_bind. destruct ((c s).1.1); [|done].
  by rewrite Hf.
Qed.

(** What follows in a sequence does not count for a field it keeps. *)
Lemma keeps_tail {A B C} (field : @LifeAtlas number → C) (c : M A) (f : A → M B) s :
  (∀ a, keeps field (f a)) → field (final (c ≫= f) s) = field (final c s).
Proof. intros Hf. rewrite final_bind. destruct ((c s).1.1); [apply Hf|done]. Qed.

Lemma keeps_ret {A C} (field : @LifeAtlas number → C) (a : A) : keeps field (mret a).
Proof. done. Qed.

Lemma keeps_this {C} (field : @LifeAtlas number → C) : keeps field this.
Proof. done. Qed.

Lemma keeps_throw {A C} (field : @LifeAtlas number → C) e : keeps field (throw (A:=A) e).
Proof. done. Qed.

Lemma keeps_emit {C} (field : @LifeAtlas number → C) u : keeps field (emit u).
Proof. done. Qed.

Lemma keeps_lift {A C} (field : @LifeAtlas number → C) (c : completion A) :
  keeps field (lift c).
Proof. done. Qed.

Lemma keeps_assign {C} (field : @LifeAtlas number → C) f :
  (∀ s, field (f s) = field s) → keeps field (assign f).
Proof. intros Hf s. apply Hf. Qed.

Lemma keeps_try_catch {C} (field : @LifeAtlas number → C) body handle :
  keeps field body → (∀ e, keeps field (handle e)) → keeps field (try_catch body handle).
Proof.
  intros Hb Hh s. rewrite final_try_catch. destruct ((body s).1.1); [done|].
  by rewrite Hh.
Qed.

Lemma keeps_forEach {A C} (field : @LifeAtlas number → C) (f : A → M unit) (xs : list A) :
  (∀ a, keeps field (f a)) → keeps field (forEach f xs).
Proof.
  intros Hf. induction xs as [|a xs IH]; simpl; [done|].
  apply keeps_bind; [apply Hf | intros _; apply IH].
Qed.

Lemma keeps_if {A C} (field : @LifeAtlas number → C) (b : bool) (c1 c2 : M A) :
  keeps field c1 → keeps field c2 → keeps field (if b then c1 else c2).
Proof. by destruct b. Qed.

Lemma stable_memories : stable memories.
Proof. by intros s. Qed.

Lemma stable_pins : stable pins.
Proof. by intros s. Qed.

Lemma stable_nextHandle : stable nextHandle.
Proof. by intros s. Qed.

Lemma keeps_addTo {C} (field : @LifeAtlas number → C) mk :
  stable field → keeps field (addTo mk).
Proof.
  intros Hst. apply keeps_assign. intros s. case_bool_decide; [done|]. apply Hst.
Qed.

Lemma keeps_set_mapLayers {C} (field : @LifeAtlas number → C) (g : @LifeAtlas number → _) :
  stable field → keeps field (assign (λ s, set_mapLayers (g s) s)).
Proof. intros Hst. apply keeps_assign. intros s. apply Hst. Qed.

Lemma keeps_set_lifeAtlasMemories {C} (field : @LifeAtlas number → C) text :
  stable field → keeps field (assign (set_lifeAtlasMemories text)).
Proof. intros Hst. apply keeps_assign. intros s. apply Hst. Qed.

Lemma keeps_set_currentPin {C} (field : @LifeAtlas number → C) pin :
  stable field → keeps field (assign (set_currentPin pin)).
Proof. intros Hst. apply keeps_assign. intros s. apply Hst. Qed.

Lemma keeps_set_addingMemory {C} (field : @LifeAtlas number → C) b :
  stable field → keeps field (assign (set_addingMemory b)).
Proof. intros Hst. apply keeps_assign. intros s. apply Hst. Qed.

Lemma keeps_set_currentMemoryId {C} (field : @LifeAtlas number → C) v :
  stable field → keeps field (assign (set_currentMemoryId v)).
Proof. intros Hst. apply keeps_assign. intros s. apply Hst. Qed.

Lemma keeps_set_editingMemory {C} (field : @LifeAtlas number → C) b :
  stable field → keeps field (assign (set_editingMemory b)).
Proof. intros Hst. apply keeps_assign. intros s. apply Hst. Qed.

Create HintDb keeps discriminated.

#[local] Hint Resolve keeps_ret keeps_this keeps_throw keeps_emit keeps_lift
  keeps_forEach keeps_if keeps_try_catch stable_memories stable_pins stable_nextHandle
  keeps_addTo keeps_set_mapLayers keeps_set_lifeAtlasMemories keeps_set_currentPin
  keeps_set_addingMemory keeps_set_currentMemoryId keeps_set_editingMemory : keeps.
#[local] Hint Extern 1 (keeps _ (_ ≫= _)) => apply keeps_bind; [|intros ?] : keeps.
#[local] Hint Extern 2 (keeps _ (match ?x with _ => _ end)) => destruct x : keeps.

Ltac frame :=
  intros;
  unfold showToast, showModal, resetForm, removeLayer, closeModal, closeDetailModal,
    createMemoryAt, addMemoryMode, saveToStorage, exportMemories, clearFilters;
  eauto 40 with keeps.

Lemma keeps_removeLayer {C} (field : @LifeAtlas number → C) mk :
  stable field → keeps field (removeLayer mk).
Proof. frame. Qed.

Lemma keeps_saveToStorage {C} (field : @LifeAtlas number → C) :
  stable field → keeps field saveToStorage.
Proof. frame. Qed.

Lemma keeps_closeModal {C} (field : @LifeAtlas number → C) :
  stable field → keeps field closeModal.
Proof. frame. Qed.

Lemma keeps_closeDetailModal {C} (field : @LifeAtlas number → C) :
  stable field → keeps field closeDetailModal.
Proof. frame. Qed.

Lemma keeps_createPopupContent {C} (field : @LifeAtlas number → C) m :
  keeps field (createPopupContent m).
Proof. unfold createPopupContent. frame. Qed.

Lemma keeps_showMemoryDetail {C} (field : @LifeAtlas number → C) x :
  stable field → keeps field (showMemoryDetail x).
Proof. unfold showMemoryDetail. frame. Qed.

Lemma keeps_editMemory {C} (field : @LifeAtlas number → C) :
  stable field → keeps field editMemory.
Proof. unfold editMemory. frame. Qed.

#[local] Hint Resolve keeps_createPopupContent : keeps.

Lemma addPinToMap_keeps_memories m : keeps memories (addPinToMap m).
Proof.
  unfold addPinToMap.
  repeat (apply keeps_bind; [by frame|intros ?]).
  apply keeps_assign. by intros s.
Qed.

Lemma loadMemories_keeps_memories : keeps memories loadMemories.
Proof.
  unfold loadMemories. apply keeps_bind; [frame|].
  intros s. apply keeps_forEach, addPinToMap_keeps_memories.
Qed.

#[local] Hint Resolve addPinToMap_keeps_memories loadMemories_keeps_memories : keeps.


(** ** Strings and the form *)

Lemma truthy_string_false (t : string) : truthy_string t = false ↔ t = EmptyString.
Proof. unfold truthy_string. case_bool_decide; simpl; split; done. Qed.

Lemma truthy_string_true (t : string) : truthy_string t = true ↔ t ≠ EmptyString.
Proof. unfold truthy_string. case_bool_decide; simpl; split; done. Qed.

Lemma validation_fails f :
  blank_field f →
  negb (truthy_string (String_trim (memoryTitle f)))
  || negb (truthy_string (memoryDate f))
  || negb (truthy_string (String_trim (memoryDescription f))) = true.
Proof.
  intros [Hb | [Hb | Hb]]; apply truthy_string_false in Hb; rewrite Hb; simpl;
    by rewrite ?orb_true_r.
Qed.

Lemma validation_passes f :
  required_present f →
  negb (truthy_string (String_trim (memoryTitle f)))
  || negb (truthy_string (memoryDate f))
  || negb (truthy_string (String_trim (memoryDescription f))) = false.
Proof.
  intros (Ht & Hd & Hde). apply truthy_string_true in Ht, Hd, Hde.
  by rewrite Ht, Hd, Hde.
Qed.

Lemma blank_or_present f : blank_field f ∨ required_present f.
Proof.
  unfold blank_field, required_present.
  destruct (decide (String_trim (memoryTitle f) = EmptyString)); [by left; left|].
  destruct (decide (memoryDate f = EmptyString)); [by left; right; left|].
  destruct (decide (String_trim (memoryDescription f) = EmptyString)); [by left; right; right|].
  by right.
Qed.

Lemma leb_ltb (a b : string) : String_le a b = negb (String_lt b a).
Proof. done. Qed.

(** ** Entries and their ids *)

Lemma strict_eq_true x k : strict_eq x k = true ↔ x = k.
Proof. unfold strict_eq. apply bool_decide_eq_true. Qed.

Lemma strict_eq_false x k : strict_eq x k = false ↔ x ≠ k.
Proof. unfold strict_eq. apply bool_decide_eq_false. Qed.

Lemma id_of_Some m x : id_of m = Some x ↔ prop m "id" = Normal x.
Proof. slim. unfold id_of. destruct (prop m "id"); split; congruence. Qed.

Lemma id_of_None m : id_of m = None ↔ ∃ e, prop m "id" = Throw e.
Proof.
  slim. unfold id_of. destruct (prop m "id"); split; try done; [intros [? ?]; done | eauto].
Qed.

Lemma has_id_prop m key : is_Some (id_of m) → ∃ v, prop m key = Normal v.
Proof.
  slim. intros [v Hv]. unfold id_of in Hv.
  destruct m as [[]|]; simpl in *; try done; eauto.
Qed.

Lemma truthy_prop m key : truthy m = true → ∃ v, prop m key = Normal v.
Proof. destruct m as [[]|]; simpl; try done; eauto. Qed.

Lemma new_memory_id x t d de mo pin c : id_of (new_memory x t d de mo pin c) = Some x.
Proof. done. Qed.

Lemma elem_of_ids m k l : m ∈ l → id_of m = Some k → k ∈ ids l.
Proof. slim. intros Hm Hk. apply list_elem_of_omap. eauto. Qed.

Lemma ids_app l1 l2 : ids (l1 ++ l2) = ids l1 ++ ids l2.
Proof. apply omap_app. Qed.

Lemma ids_insert l i m memory :
  l !! i = Some m → id_of memory = id_of m → ids (<[i := memory]> l) = ids l.
Proof.
  slim. revert i. induction l as [|m0 l IH]; intros [|i]; simpl; try done.
  - intros [= ->] Hid. unfold ids. simpl. by rewrite Hid.
  - intros Hi Hid. unfold ids in *. simpl. by rewrite IH.
Qed.

Lemma ids_sublist l1 l2 : l1 `sublist_of` l2 → ids l1 `sublist_of` ids l2.
Proof.
  slim. induction 1 as [|m l1 l2 _ IH|m l1 l2 _ IH]; unfold ids in *; simpl.
  - constructor.
  - destruct (id_of m); [by constructor|done].
  - destruct (id_of m); [by constructor|done].
Qed.

Lemma ids_delete_NoDup l i : NoDup (ids l) → NoDup (ids (delete i l)).
Proof.
  intros Hl. eapply sublist_NoDup; [done|]. apply ids_sublist, sublist_delete.
Qed.

Lemma elem_of_delete_other {A} (xs : list A) i (a b : A) :
  xs !! i = Some a → b ∈ xs → b ≠ a → b ∈ delete i xs.
Proof.
  slim. intros Hi (j & Hj)%list_elem_of_lookup Hne.
  apply list_elem_of_lookup.
  destruct (decide (j < i)) as [Hlt|Hge].
  - exists j. by rewrite list_lookup_delete_lt.
  - assert (j ≠ i) by (intros ->; congruence).
    exists (pred j). rewrite list_lookup_delete_ge by lia.
    by replace (S (pred j)) with j by lia.
Qed.

(** With unique ids, two places of the collection that hold the same id are
    one place. *)
Lemma one_record_per_id l a b ma mb k :
  NoDup (ids l) → l !! a = Some ma → l !! b = Some mb →
  id_of ma = Some k → id_of mb = Some k → a = b.
Proof.
  slim. revert a b. induction l as [|m0 l IH]; intros a b Hnd Ha Hb Hka Hkb; [done|].
  unfold ids in Hnd. simpl in Hnd.
  destruct a as [|a], b as [|b]; simpl in *; simplify_eq; try done.
  - rewrite Hka in Hnd. apply NoDup_cons in Hnd as [Hfresh _]. destruct Hfresh.
    eapply elem_of_ids; [by eapply list_elem_of_lookup_2|done].
  - rewrite Hkb in Hnd. apply NoDup_cons in Hnd as [Hfresh _]. destruct Hfresh.
    eapply elem_of_ids; [by eapply list_elem_of_lookup_2|done].
  - f_equal. eapply IH; try done.
    destruct (id_of m0); [by apply NoDup_cons in Hnd as [_ ?]|done].
Qed.

(** ** Searching the collection *)

(** A hit of [search] is the first entry with the id; the entries before it
    have an id, and another one. *)
Lemma search_Some x l i j m :
  search x l i = Normal (Some (j, m)) →
  ∃ n, j = i + n ∧ l !! n = Some m ∧ id_of m = Some x ∧
       Forall (λ m', ∃ v, id_of m' = Some v ∧ v ≠ x) (take n l).
Proof.
  slim. revert i. induction l as [|m0 l IH]; intros i; simpl; [done|].
  destruct (prop m0 "id") as [v|e] eqn:Hv; [|done].
  destruct (strict_eq v x) eqn:Heq.
  - intros [= <- <-]. apply strict_eq_true in Heq as ->.
    exists 0. repeat split; [lia | by apply id_of_Some | by constructor].
  - intros (n & -> & Hn & Hid & Hbefore)%IH.
    exists (S n). repeat split; [lia | done | done |].
    simpl. constructor; [|done].
    exists v. split; [by apply id_of_Some | by apply strict_eq_false].
Qed.

(** A miss: every entry has an id, and another one. *)
Lemma search_None x l i :
  search x l i = Normal None ↔ Forall (λ m', ∃ v, id_of m' = Some v ∧ v ≠ x) l.
Proof.
  slim. revert i. induction l as [|m0 l IH]; intros i; simpl; [by split; [constructor|]|].
  rewrite Forall_cons. destruct (prop m0 "id") as [v|e] eqn:Hv.
  - destruct (strict_eq v x) eqn:Heq.
    + apply strict_eq_true in Heq as ->. split; [done|].
      intros [(v' & Hv' & Hne) _]. apply id_of_Some in Hv'. congruence.
    + rewrite IH. apply strict_eq_false in Heq. split; [|tauto].
      intros Hl. split; [|done]. exists v. by rewrite id_of_Some.
  - split; [done|]. intros [(v' & Hv' & _) _]. apply id_of_Some in Hv'. congruence.
Qed.

Lemma search_None_ids x l i : search x l i = Normal None → x ∉ ids l.
Proof.
  slim. rewrite search_None. unfold ids. intros Hall Hin.
  apply list_elem_of_omap in Hin as (m & Hm & Hid).
  rewrite Forall_forall in Hall. destruct (Hall m Hm) as (v & Hv & Hne). congruence.
Qed.

Lemma find_None x l : find x l = Normal None ↔ search x l 0 = Normal None.
Proof.
  slim. unfold find. destruct (search x l 0) as [[[? ?]|]|]; simpl; split; congruence.
Qed.

Lemma findIndex_None x l : findIndex x l = Normal None ↔ search x l 0 = Normal None.
Proof.
  slim. unfold findIndex. destruct (search x l 0) as [[[? ?]|]|]; simpl; split; congruence.
Qed.

Lemma findIndex_Some x l i :
  findIndex x l = Normal (Some i) ↔ ∃ m, search x l 0 = Normal (Some (i, m)).
Proof.
  slim. unfold findIndex. destruct (search x l 0) as [[[j m]|]|]; simpl.
  - split; [intros [= ->]; eauto | intros [m' [= -> _]]; done].
  - split; [done | intros [? ?]; done].
  - split; [done | intros [? ?]; done].
Qed.

Lemma find_Some x l m :
  find x l = Normal (Some m) ↔ ∃ i, search x l 0 = Normal (Some (i, m)).
Proof.
  slim. unfold find. destruct (search x l 0) as [[[j m']|]|]; simpl.
  - split; [intros [= ->]; eauto | intros [i [= _ ->]]; done].
  - split; [done | intros [? ?]; done].
  - split; [done | intros [? ?]; done].
Qed.

Lemma search_Some_ids k l i m : search k l 0 = Normal (Some (i, m)) → k ∈ ids l.
Proof.
  slim. intros (n & _ & Hn & Hid & _)%search_Some.
  eapply elem_of_ids; [|done]. by eapply list_elem_of_lookup_2.
Qed.

(** When every entry has an id, an id of the collection is found by the
    search the filter runs for each pin. *)
Lemma search_finds k l :
  Forall (λ m, is_Some (id_of m)) l → k ∈ ids l →
  ∃ i m, search k l 0 = Normal (Some (i, m)).
Proof.
  slim. intros Hall Hk. generalize 0.
  induction l as [|m0 l IH]; intros n; [by apply elem_of_nil in Hk|].
  apply Forall_cons in Hall as [[v Hv] Hall]. simpl.
  apply id_of_Some in Hv as Hprop. rewrite Hprop.
  destruct (strict_eq v k) eqn:Heq; [eauto|].
  apply IH; [done|]. unfold ids in Hk. simpl in Hk. rewrite Hv in Hk.
  apply elem_of_cons in Hk as [->|Hk]; [|done].
  apply strict_eq_false in Heq. done.
Qed.

(** With unique ids, the search for the id of a record finds that record. *)
Lemma search_unique l m k n :
  NoDup (ids l) → Forall (λ m', is_Some (id_of m')) l → m ∈ l → id_of m = Some k →
  ∃ i, search k l n = Normal (Some (i, m)).
Proof.
  slim. revert n. induction l as [|m0 l IH]; intros n Hnd Hall Hm Hk;
    [by apply elem_of_nil in Hm|].
  apply Forall_cons in Hall as [[v Hv] Hall].
  unfold ids in Hnd. simpl in Hnd. rewrite Hv in Hnd. apply NoDup_cons in Hnd as [Hfresh Hnd].
  simpl. apply id_of_Some in Hv as Hprop. rewrite Hprop.
  destruct (strict_eq v k) eqn:Heq.
  - apply strict_eq_true in Heq as ->.
    apply elem_of_cons in Hm as [->|Hm]; [eauto|].
    destruct Hfresh. by eapply elem_of_ids.
  - apply strict_eq_false in Heq.
    apply elem_of_cons in Hm as [->|Hm]; [congruence|].
    by apply IH.
Qed.

Lemma find_unique l m k :
  NoDup (ids l) → Forall (λ m', is_Some (id_of m')) l → m ∈ l → id_of m = Some k →
  find k l = Normal (Some m).
Proof.
  slim. intros Hnd Hall Hm Hk. apply find_Some. by apply search_unique.
Qed.

(** ** The Map of pins *)

Lemma Map_get_Some_elem k mk (p : list (@jsval number * @marker number)) :
  Map_get k p = Some mk → (k, mk) ∈ p.
Proof.
  induction p as [|[k' v'] p IH]; simpl; [done|].
  destruct (strict_eq k' k) eqn:Heq.
  - intros [= ->]. apply strict_eq_true in Heq as ->. left.
  - intros Hg. right. by apply IH.
Qed.

Lemma Map_get_elem k mk (p : list (@jsval number * @marker number)) :
  NoDup (keys p) → (k, mk) ∈ p → Map_get k p = Some mk.
Proof.
  slim. unfold keys. induction p as [|[k' v'] p IH]; [by intros _ ?%elem_of_nil|].
  rewrite fmap_cons, NoDup_cons. cbn [fst Map_get]. intros [Hk' Hnd] Hin.
  apply elem_of_cons in Hin as [Heq|Hin].
  - injection Heq as <- <-. by rewrite (proj2 (strict_eq_true k k)).
  - destruct (strict_eq k' k) eqn:Heq; [|by apply IH].
    apply strict_eq_true in Heq as ->. destruct Hk'.
    apply list_elem_of_fmap. by exists (k, mk).
Qed.

Lemma marker_of_one_key k1 k2 mk (p : list (@jsval number * @marker number)) :
  NoDup p.*2 → (k1, mk) ∈ p → (k2, mk) ∈ p → k1 = k2.
Proof.
  slim. induction p as [|[k' v'] p IH]; [by intros _ ?%elem_of_nil|].
  rewrite fmap_cons, NoDup_cons. cbn [snd]. intros [Hv' Hnd] H1 H2.
  assert (∀ k, (k, v') ∈ p → False) as Hfresh.
  { intros k Hk. apply Hv'. apply list_elem_of_fmap. by exists (k, v'). }
  apply elem_of_cons in H1 as [H1|H1], H2 as [H2|H2].
  - congruence.
  - injection H1 as -> ->. by destruct (Hfresh k2).
  - injection H2 as -> ->. by destruct (Hfresh k1).
  - by apply IH.
Qed.

Lemma keys_Map_set k mk (p : list (@jsval number * @marker number)) :
  keys (Map_set k mk p) = if bool_decide (k ∈ keys p) then keys p else keys p ++ [k].
Proof.
  slim. unfold keys. induction p as [|[k' v'] p IH]; cbn [Map_set]; [done|].
  destruct (strict_eq k' k) eqn:Heq; rewrite !fmap_cons; cbn [fst].
  - apply strict_eq_true in Heq as ->. rewrite bool_decide_eq_true_2 by left. done.
  - apply strict_eq_false in Heq. rewrite IH.
    destruct (decide (k ∈ p.*1)) as [Hin|Hin].
    + rewrite !bool_decide_eq_true_2; [done| by right |done].
    + rewrite !bool_decide_eq_false_2; [done| |done].
      rewrite elem_of_cons. intros [->|?]; done.
Qed.

Lemma keys_Map_delete_sublist k (p : list (@jsval number * @marker number)) :
  keys (Map_delete k p) `sublist_of` keys p.
Proof.
  slim. unfold keys. induction p as [|[k' v'] p IH]; cbn [Map_delete]; [done|].
  destruct (strict_eq k' k); rewrite ?fmap_cons; [by constructor|by constructor].
Qed.

Lemma keys_Map_delete_gone k (p : list (@jsval number * @marker number)) :
  NoDup (keys p) → k ∉ keys (Map_delete k p).
Proof.
  slim. unfold keys. induction p as [|[k' v'] p IH]; cbn [Map_delete];
    [intros _; apply not_elem_of_nil|].
  rewrite fmap_cons, NoDup_cons. cbn [fst]. intros [Hk' Hp].
  destruct (strict_eq k' k) eqn:Heq.
  - by apply strict_eq_true in Heq as ->.
  - apply strict_eq_false in Heq. rewrite fmap_cons, elem_of_cons. cbn [fst].
    intros [->|Hin]; [done|]. by apply IH.
Qed.

Lemma sound_Map_set l p k mk : sound l p → k ∈ ids l → sound l (Map_set k mk p).
Proof.
  slim. intros [Hnd Hin] Hk. unfold sound. rewrite keys_Map_set.
  case_bool_decide; [done|]. split.
  - apply NoDup_app. split; [done|]. split; [|apply NoDup_singleton].
    intros k' Hk'. rewrite list_elem_of_singleton. by intros ->.
  - apply Forall_app. split; [done|]. by apply Forall_singleton.
Qed.

Lemma sound_mono l l' p : sound l p → (∀ k, k ∈ ids l → k ∈ ids l') → sound l' p.
Proof.
  slim. intros [Hnd Hin] Hsub. split; [done|].
  eapply Forall_impl; [done|]. apply Hsub.
Qed.

Lemma sound_delete l p k i m :
  sound l p → search k l 0 = Normal (Some (i, m)) →
  sound (delete i l) (Map_delete k p).
Proof.
  slim. intros [Hnd Hin] (n & -> & Hn & Hid & _)%search_Some. simpl in *. split.
  - eapply sublist_NoDup; [done|apply keys_Map_delete_sublist].
  - apply Forall_forall. intros k' Hk'.
    assert (k' ≠ k) as Hne.
    { intros ->. by apply (keys_Map_delete_gone k p). }
    assert (k' ∈ keys p) as Hkp.
    { eapply elem_of_sublist; [done|apply keys_Map_delete_sublist]. }
    rewrite Forall_forall in Hin. specialize (Hin k' Hkp).
    unfold ids in *. apply list_elem_of_omap in Hin as (m' & Hm' & Hid').
    apply list_elem_of_omap. exists m'. split; [|done].
    eapply elem_of_delete_other; [done|done|]. intros ->. congruence.
Qed.

Lemma elem_of_keys_Map_set k k' mk p :
  k' ∈ keys (Map_set k mk p) ↔ k' = k ∨ k' ∈ keys p.
Proof.
  slim. rewrite keys_Map_set. case_bool_decide as Hin.
  - split; [by right|]. by intros [->|?].
  - rewrite elem_of_app, list_elem_of_singleton. split; intros [?|?]; auto.
Qed.

Lemma NoDup_keys_Map_set k mk p : NoDup (keys p) → NoDup (keys (Map_set k mk p)).
Proof.
  slim. intros Hnd. rewrite keys_Map_set. case_bool_decide as Hin; [done|].
  apply NoDup_app. split; [done|]. split; [|apply NoDup_singleton].
  intros k' Hk'. rewrite list_elem_of_singleton. by intros ->.
Qed.

Lemma elem_of_values_Map_set k mk mk' p :
  mk' ∈ (Map_set k mk p).*2 → mk' = mk ∨ mk' ∈ p.*2.
Proof.
  slim. induction p as [|[k0 v0] p IH]; cbn [Map_set].
  - rewrite fmap_cons. cbn [snd]. intros [->|?]%elem_of_cons; auto.
  - destruct (strict_eq k0 k); rewrite !fmap_cons; cbn [snd]; rewrite !elem_of_cons.
    + intros [->|?]; auto.
    + intros [->|[->|?]%IH]; auto.
Qed.

Lemma NoDup_values_Map_set k mk p :
  NoDup p.*2 → mk ∉ p.*2 → NoDup (Map_set k mk p).*2.
Proof.
  slim. induction p as [|[k0 v0] p IH]; cbn [Map_set].
  - intros _ _. rewrite fmap_cons. apply NoDup_singleton.
  - rewrite fmap_cons, NoDup_cons, not_elem_of_cons. cbn [snd].
    intros [Hv0 Hnd] [Hne Hmk].
    destruct (strict_eq k0 k); rewrite fmap_cons; cbn [snd]; apply NoDup_cons.
    + done.
    + split; [|by apply IH]. intros [->|?]%elem_of_values_Map_set; done.
Qed.

Lemma Map_delete_sublist k p : Map_delete k p `sublist_of` p.
Proof.
  slim. induction p as [|[k0 v0] p IH]; cbn [Map_delete]; [done|].
  destruct (strict_eq k0 k); by constructor.
Qed.

Lemma elem_of_keys_Map_delete k k' p :
  k' ≠ k → k' ∈ keys p → k' ∈ keys (Map_delete k p).
Proof.
  slim. unfold keys. intros Hne. induction p as [|[k0 v0] p IH]; cbn [Map_delete]; [done|].
  rewrite fmap_cons, elem_of_cons. cbn [fst].
  destruct (strict_eq k0 k) eqn:Heq.
  - apply strict_eq_true in Heq as ->. by intros [?|?].
  - rewrite fmap_cons, elem_of_cons. cbn [fst]. intros [?|?]; auto.
Qed.

Lemma Map_get_is_Some k p : k ∈ keys p → is_Some (Map_get k p).
Proof.
  slim. unfold keys. induction p as [|[k0 v0] p IH]; [by intros ?%elem_of_nil|].
  rewrite fmap_cons, elem_of_cons. cbn [fst Map_get].
  destruct (strict_eq k0 k) eqn:Heq; [by eexists|].
  apply strict_eq_false in Heq. intros [?|?]; [congruence|by apply IH].
Qed.

(** ** How the methods run *)

Lemma set_mapLayers_same s : set_mapLayers (mapLayers s) s = s.
Proof. by destruct s. Qed.

Lemma set_mapLayers_twice L1 L2 s : set_mapLayers L2 (set_mapLayers L1 s) = set_mapLayers L2 s.
Proof. done. Qed.

Lemma removeLayer_run mk s :
  removeLayer mk s = (Normal (), set_mapLayers (filter (λ y, y ≠ mk) (mapLayers s)) s, []).
Proof. done. Qed.

Lemma toggle_run (show : bool) mk s :
  (if show then addTo mk else removeLayer mk) s =
  (Normal (), set_mapLayers (toggled show mk (mapLayers s)) s, []).
Proof.
  slim. destruct show; simpl; [|done]. unfold addTo, assign, toggled.
  case_bool_decide; [by rewrite set_mapLayers_same|done].
Qed.

Lemma forEach_removeLayer_normal (p : list (@jsval number * @marker number)) s :
  (forEach (λ entry, removeLayer entry.2) p s).1.1 = Normal ().
Proof.
  revert s. induction p as [|[k mk] p IH]; intros s; simpl; [done|].
  unfold mbind, M_bind. rewrite removeLayer_run.
  match goal with
  | |- context [forEach ?f p ?s1] =>
      specialize (IH s1); by destruct (forEach f p s1) as [[? ?] ?]
  end.
Qed.

Lemma createPopupContent_run m s :
  (∃ excerpt, createPopupContent m s = (Normal excerpt, s, [])) ∨
  createPopupContent m s = (Throw TypeError, s, []).
Proof.
  slim. unfold createPopupContent, mbind, M_bind, lift.
  destruct (prop m "description") as [[]|] eqn:Hd; simpl; eauto.
  destruct m as [[]|]; simpl in Hd; try done; injection Hd as <-; eauto.
Qed.

Lemma addPinToMap_pins m s :
  pins (final (addPinToMap m) s) = pins s ∨
  ∃ k mk, id_of m = Some k ∧ pins (final (addPinToMap m) s) = Map_set k mk (pins s).
Proof.
  unfold addPinToMap.
  rewrite final_lift_bind. destruct (prop m "mood") as [mood|]; [|by left].
  rewrite final_lift_bind. destruct (prop m "lat") as [lat|]; [|by left].
  rewrite final_lift_bind. destruct (prop m "lng") as [lng|]; [|by left].
  rewrite final_bind.
  destruct (Leaflet_accepts lat lng); simpl; [|by left].
  rewrite final_this_bind, final_assign_bind.
  rewrite final_bind.
  match goal with
  | |- context [addTo ?mk ?s1] =>
      assert (pins (final (addTo mk) s1) = pins s) as Hp by (by rewrite (keeps_addTo pins mk stable_pins));
      assert ((addTo mk s1).1.1 = Normal ()) as -> by done;
      generalize dependent (final (addTo mk) s1); intros s2 Hp
  end.
  rewrite final_bind.
  change (final (createPopupContent m) s2) with ((createPopupContent m s2).1.2).
  destruct (createPopupContent_run m s2) as [[excerpt ->]| ->]; simpl; [|by left].
  rewrite final_lift_bind. destruct (prop m "id") as [k|] eqn:Hid; [|by left].
  right. eexists k, _. split; [by apply id_of_Some|].
  unfold final, assign. simpl. by rewrite Hp.
Qed.

(** On a record that can be rendered, [addPinToMap] completes: it makes a
    new marker and files it in the cache under the id of the record. *)
Lemma addPinToMap_renderable m s :
  renderable m →
  ∃ k mk,
    id_of m = Some k ∧ handle mk = nextHandle s ∧
    (addPinToMap m s).1.1 = Normal () ∧ (addPinToMap m s).2 = [] ∧
    memories (final (addPinToMap m) s) = memories s ∧
    pins (final (addPinToMap m) s) = Map_set k mk (pins s) ∧
    nextHandle (final (addPinToMap m) s) = S (nextHandle s).
Proof.
  slim. intros ([k Hk] & [d Hd] & (lat & lng & Hlat & Hlng & Hok)).
  destruct (has_id_prop m "mood" (ex_intro _ k Hk)) as [mood Hmood].
  apply id_of_Some in Hk as Hid.
  exists k, {| handle := nextHandle s; latlng := (lat, lng); data_mood := mood |}.
  split; [done|]. split; [done|].
  unfold final, addPinToMap, createPopupContent, addTo, mbind, M_bind, lift, this, assign.
  simpl. rewrite Hmood, Hlat, Hlng. simpl. rewrite Hok. simpl.
  case_bool_decide; simpl; rewrite Hd; simpl; by rewrite Hid.
Qed.

Lemma forEach_addPinToMap_renderable (xs : list (@element number)) s :
  Forall renderable xs →
  let s' := final (forEach addPinToMap xs) s in
  (forEach addPinToMap xs s).1.1 = Normal () ∧ (forEach addPinToMap xs s).2 = [] ∧
  memories s' = memories s ∧
  (∀ k, k ∈ keys (pins s') ↔ k ∈ keys (pins s) ∨ k ∈ ids xs) ∧
  (NoDup (keys (pins s)) → NoDup (keys (pins s'))) ∧
  (fresh_handles s → NoDup (pins s).*2 → fresh_handles s' ∧ NoDup (pins s').*2).
Proof.
  slim. intros Hxs. revert s. induction Hxs as [|m xs Hm _ IH]; intros s; simpl.
  { repeat split; try done. - by left. - intros [?|?%elem_of_nil]; done. }
  destruct (addPinToMap_renderable m s Hm)
    as (k & mk & Hk & Hmk & Hnormal & Hquiet & Hmem & Hpins & Hnext).
  destruct (IH (final (addPinToMap m) s)) as (IHn & IHq & IHm & IHk & IHnd & IHf).
  unfold final in *.
  destruct (addPinToMap m s) as [[r s1] w1] eqn:Hrun. simpl in *. subst r w1.
  unfold mbind, M_bind. rewrite Hrun.
  destruct (forEach addPinToMap xs s1) as [[r2 s2] w2]. simpl in *. subst r2 w2.
  split; [done|]. split; [done|]. split; [congruence|]. split; [|split].
  - intros k'. rewrite IHk, Hpins, elem_of_keys_Map_set.
    unfold ids. simpl. rewrite Hk, elem_of_cons. tauto.
  - intros Hnd. apply IHnd. rewrite Hpins. by apply NoDup_keys_Map_set.
  - intros Hfresh Hnd.
    assert (mk ∉ (pins s).*2) as Hnew.
    { intros ([k0 mk0] & -> & Hin)%list_elem_of_fmap.
      unfold fresh_handles in Hfresh. rewrite Forall_forall in Hfresh.
      specialize (Hfresh _ Hin). simpl in *. lia. }
    apply IHf.
    + unfold fresh_handles. rewrite Hpins, Hnext. apply Forall_forall.
      intros [k0 mk0] Hin. simpl.
      assert (mk0 ∈ (Map_set k mk (pins s)).*2) as Hin2
        by (apply list_elem_of_fmap; by exists (k0, mk0)).
      apply elem_of_values_Map_set in Hin2 as [->|Hold]; [lia|].
      apply list_elem_of_fmap in Hold as ([k1 mk1] & -> & Hold).
      unfold fresh_handles in Hfresh. rewrite Forall_forall in Hfresh.
      specialize (Hfresh _ Hold). simpl in *. lia.
    + rewrite Hpins. by apply NoDup_values_Map_set.
Qed.

Lemma show_pin_run flt k s : ∃ r, show_pin flt k s = (r, s, []).
Proof.
  unfold show_pin, mbind, M_bind, this, lift. simpl.
  destruct (find k (memories s)) as [memory|]; simpl; [|eauto].
  destruct (truthy_string (moodFilter flt)); simpl;
    [destruct (prop_of memory "mood"); simpl; [|eauto]|];
    (destruct (truthy_string (dateFromFilter flt)); simpl;
       [destruct (prop_of memory "date") as [date|] eqn:Hd; simpl; [|eauto]|]);
    (destruct (truthy_string (dateToFilter flt)); simpl; rewrite ?Hd; simpl; eauto);
    destruct (prop_of memory "date"); simpl; eauto.
Qed.

Lemma keeps_show_pin {C} (field : @LifeAtlas number → C) flt k :
  keeps field (show_pin flt k).
Proof. intros s. unfold final. by destruct (show_pin_run flt k s) as [r ->]. Qed.

Lemma keeps_applyFilters_loop {C} (field : @LifeAtlas number → C) flt p n :
  stable field → keeps field (applyFilters_loop flt p n).
Proof.
  intros Hst. revert n. induction p as [|[k mk] p IH]; intros n; simpl; [frame|].
  apply keeps_bind; [apply keeps_show_pin|]. intros [].
  - apply keeps_bind; [frame | intros _; apply IH].
  - apply keeps_bind; [frame | intros _; apply IH].
Qed.

#[local] Hint Resolve keeps_applyFilters_loop keeps_removeLayer keeps_saveToStorage
  keeps_closeModal keeps_closeDetailModal : keeps.

(** Apart from a submit, a delete and an import, no event touches the
    collection, the cache or the stock of handles. *)
Lemma other_events_keep {C} (field : @LifeAtlas number → C) ev s :
  stable field →
  match ev with
  | Submit _ _ | DeleteMemory _ | ImportMemories _ => True
  | _ => field (after ev s) = field s
  end.
Proof.
  intros Hst.
  assert (∀ c : M unit, keeps field c → field (final c s) = field s) as Hkeeps
    by (intros c Hc; apply Hc).
  destruct ev; try done; apply Hkeeps; unfold handler.
  all: unfold showMemoryDetail, editMemory, applyFilters; frame.
Qed.

(** ** Creation *)

Lemma saveMemory_refuses (f : form) clk s :
  blank_field f →
  saveMemory f clk s = (Normal (), s, [Alert "Please fill in all required fields."]).
Proof. intros Hb. unfold saveMemory. by rewrite validation_fails. Qed.

(** C6. When a required field of the form (title, date or description) is
    blank, [saveMemory] alerts the user and returns: the application object
    is what it was, its collection and the storage item included. *)
Theorem saveMemory_blank_field (f : form) clk s :
  blank_field f →
  saveMemory f clk s = (Normal (), s, [Alert "Please fill in all required fields."]) ∧
  memories (after (Submit f clk) s) = memories s ∧
  lifeAtlasMemories (after (Submit f clk) s) = lifeAtlasMemories s.
Proof.
  intros Hb. unfold after. simpl. by rewrite saveMemory_refuses.
Qed.

Lemma created_fields (f : form) clk pin :
  prop (created f clk pin) "id" = Normal (Num (Date_now clk)) ∧
  prop (created f clk pin) "title" = Normal (Str (String_trim (memoryTitle f))) ∧
  prop (created f clk pin) "date" = Normal (Str (memoryDate f)) ∧
  prop (created f clk pin) "description" = Normal (Str (String_trim (memoryDescription f))) ∧
  prop (created f clk pin) "mood" = Normal (Str (default "📍" (selectedMood f))) ∧
  prop (created f clk pin) "lat" = Normal pin.1 ∧
  prop (created f clk pin) "lng" = Normal pin.2 ∧
  prop (created f clk pin) "createdAt" = Normal (Str (toISOString clk)).
Proof. by repeat split. Qed.

(** The part of [saveMemory] that follows the update of the array. *)
Local Abbreviation and_then_persist memory :=
  (saveToStorage;; addPinToMap memory;; closeModal;;
   showToast (Text "Memory saved successfully! 🎉") success).

Lemma and_then_persist_keeps_memories memory : keeps memories (and_then_persist memory).
Proof. frame. Qed.

Lemma saveMemory_create_run (f : form) clk s pin :
  required_present f → editingMemory s = false → currentPin s = Some pin →
  saveMemory f clk s =
  and_then_persist (created f clk pin) (set_memories (memories s ++ [created f clk pin]) s).
Proof.
  intros Hf He Hp. unfold saveMemory. rewrite validation_passes by done.
  unfold mbind, M_bind, this. simpl.
  rewrite He, Hp. simpl.
  unfold created.
  destruct (saveToStorage _) as [[[[]|?] ?] ?]; simpl; [|done].
  destruct (addPinToMap _ _) as [[[[]|?] ?] ?]; simpl; [|by rewrite ?app_nil_r].
  by rewrite ?app_nil_r.
Qed.

(** C7. With the required fields present, creating (the form is submitted
    outside an edit, a location having been picked) turns a collection of
    size n into one of size n+1: the records it had stay where they were,
    and the new last record carries the title and description of the form
    (trimmed), its date, its mood (the pin symbol when none is selected) and
    the picked location, next to the generated [id] and [createdAt]. *)
Theorem saveMemory_creates (f : form) clk s pin :
  required_present f → editingMemory s = false → currentPin s = Some pin →
  let s' := final (saveMemory f clk) s in
  let memory := created f clk pin in
  memories s' = memories s ++ [memory] ∧
  length (memories s') = S (length (memories s)) ∧
  (∀ i m, memories s !! i = Some m → memories s' !! i = Some m) ∧
  prop memory "title" = Normal (Str (String_trim (memoryTitle f))) ∧
  prop memory "date" = Normal (Str (memoryDate f)) ∧
  prop memory "description" = Normal (Str (String_trim (memoryDescription f))) ∧
  prop memory "mood" = Normal (Str (default "📍" (selectedMood f))) ∧
  prop memory "lat" = Normal pin.1 ∧
  prop memory "lng" = Normal pin.2.
Proof.
  intros Hf He Hp s' memory.
  assert (memories s' = memories s ++ [memory]) as Hm.
  { unfold s', final. rewrite (saveMemory_create_run f clk s pin) by done.
    apply (and_then_persist_keeps_memories memory). }
  rewrite Hm. split; [done|]. split; [rewrite length_app; simpl; lia|].
  split; [intros i m Hi; by apply lookup_app_l_Some|].
  destruct (created_fields f clk pin) as (? & ? & ? & ? & ? & ? & ? & ?).
  by repeat split.
Qed.

(** ** Submitting an edit *)

Lemma submit_without_record (f : form) clk s :
  required_present f → editingMemory s = true →
  find (currentMemoryId s) (memories s) = Normal None →
  saveMemory f clk s = (Throw TypeError, s, []).
Proof.
  intros Hf He Hfind. unfold saveMemory. rewrite validation_passes by done.
  unfold mbind, M_bind, this. simpl. rewrite He.
  destruct (currentPin s); simpl; [|done].
  unfold lift. by rewrite Hfind.
Qed.

(** C1. Submitting the form in edit mode when no record of the collection
    has the id under edit: [saveMemory] throws a [TypeError] (it reads
    [createdAt] of the [undefined] that [find] returned); nothing has been
    changed by then, and nothing is shown to the user. *)
Theorem saveMemory_stale_id (f : form) clk s :
  required_present f → editingMemory s = true →
  find (currentMemoryId s) (memories s) = Normal None →
  saveMemory f clk s = (Throw TypeError, s, []) ∧
  memories (after (Submit f clk) s) = memories s.
Proof.
  intros Hf He Hfind. unfold after. simpl. by rewrite submit_without_record.
Qed.

Lemma editMemory_found s m :
  find (currentMemoryId s) (memories s) = Normal (Some m) → truthy m = true →
  ∃ lat lng,
    prop m "lat" = Normal lat ∧ prop m "lng" = Normal lng ∧
    editMemory s =
      (Normal (),
       set_currentMemoryId Null
         (set_editingMemory true (set_currentPin (Some (lat, lng)) s)),
       [Display detailModal false; Display memoryModal true]).
Proof.
  intros Hfind Ht.
  destruct (truthy_prop m "lat" Ht) as [lat Hlat], (truthy_prop m "lng" Ht) as [lng Hlng].
  exists lat, lng. split; [done|]. split; [done|].
  unfold editMemory, mbind, M_bind, this, lift. simpl. rewrite Hfind. simpl.
  rewrite Ht. simpl. by rewrite Hlat, Hlng.
Qed.

(** C8. Editing the record shown in the detail view: [editMemory] closes
    that view, which resets [currentMemoryId] to [null], so the submit that
    follows looks for a record whose id is [null].  Unless the collection
    has one, [saveMemory] throws a [TypeError] and the collection is what it
    was before the edit: no field of the record takes the new input. *)
Theorem edit_then_submit_throws (f : form) clk s m :
  required_present f →
  find (currentMemoryId s) (memories s) = Normal (Some m) → truthy m = true →
  find Null (memories s) = Normal None →
  let s1 := after EditMemory s in
  editingMemory s1 = true ∧ currentMemoryId s1 = Null ∧
  handler (Submit f clk) s1 = (Throw TypeError, s1, []) ∧
  memories (after (Submit f clk) s1) = memories s.
Proof.
  intros Hf Hfind Ht Hnull s1.
  destruct (editMemory_found s m Hfind Ht) as (lat & lng & _ & _ & Hrun).
  assert (s1 = set_currentMemoryId Null
                 (set_editingMemory true (set_currentPin (Some (lat, lng)) s))) as Hs1.
  { unfold s1, after. simpl. by rewrite Hrun. }
  assert (handler (Submit f clk) s1 = (Throw TypeError, s1, [])) as Hthrow.
  { simpl. apply submit_without_record; [done| |]; by rewrite Hs1. }
  split; [by rewrite Hs1|]. split; [by rewrite Hs1|]. split; [done|].
  unfold after at 1. rewrite Hthrow. simpl. by rewrite Hs1.
Qed.

(** ** Deletion *)

(** C4, as the code has it.  After the user confirms, when the collection
    has a record with the id shown in the detail view (and the cache holds
    its marker), [deleteMemory] removes the first such record and nothing
    else, drops the cache entry and takes the marker off the map, and tells
    the user.  When no record has the id, the call changes nothing and shows
    nothing: the miss is silent.  Without the confirmation nothing happens
    either. *)
Theorem deleteMemory_spec s :
  (∀ i mk,
     findIndex (currentMemoryId s) (memories s) = Normal (Some i) →
     Map_get (currentMemoryId s) (pins s) = Some mk →
     let s' := final (deleteMemory true) s in
     (∃ m, memories s !! i = Some m ∧ id_of m = Some (currentMemoryId s)) ∧
     memories s' = delete i (memories s) ∧
     S (length (memories s')) = length (memories s) ∧
     pins s' = Map_delete (currentMemoryId s) (pins s) ∧
     (mk ∉ mapLayers s') ∧
     (deleteMemory true s).1.1 = Normal () ∧
     Toast (Text "Memory deleted successfully.") success ∈ (deleteMemory true s).2) ∧
  (findIndex (currentMemoryId s) (memories s) = Normal None →
     deleteMemory true s = (Normal (), s, [])) ∧
  deleteMemory false s = (Normal (), s, []).
Proof.
  split; [|split].
  - intros i mk Hi Hmk s'.
    apply findIndex_Some in Hi as Hs. destruct Hs as [m Hs].
    apply search_Some in Hs as (n & -> & Hn & Hid & _). simpl in *.
    split; [eauto|].
    unfold s', final, deleteMemory, mbind, M_bind, this, lift. simpl.
    rewrite Hi. simpl. rewrite Hmk. simpl.
    unfold saveToStorage, mbind, M_bind, this. simpl.
    destruct (localStorage_accepts _); simpl.
    + repeat split; try done.
      * rewrite length_delete by eauto. apply lookup_lt_Some in Hn. lia.
      * rewrite list_elem_of_filter. tauto.
      * by repeat constructor.
    + repeat split; try done.
      * rewrite length_delete by eauto. apply lookup_lt_Some in Hn. lia.
      * rewrite list_elem_of_filter. tauto.
      * by repeat constructor.
  - intros Hi. unfold deleteMemory, mbind, M_bind, this, lift. simpl. by rewrite Hi.
  - done.
Qed.

(** ** Import and export *)

(** The body of the [try] block once the text has parsed to an array. *)
Local Abbreviation replace_the_world imported :=
  (s ← this;
   forEach (λ entry, removeLayer entry.2) (pins s);;
   assign (set_pins []);;
   assign (set_memories imported);;
   saveToStorage;;
   loadMemories;;
   showToast (Imported (length imported)) success).

Local Abbreviation report_import_failure :=
  (emit ConsoleError;;
   showToast (Text "Failed to import memories. Please check the file format.") error).

Lemma replace_the_world_memories imported s :
  memories (final (replace_the_world imported) s) = imported.
Proof.
  rewrite final_bind. simpl. rewrite final_bind.
  rewrite forEach_removeLayer_normal.
  rewrite final_bind. simpl. rewrite final_bind. simpl.
  assert (keeps memories (saveToStorage;; loadMemories;;
                          showToast (Imported (length imported)) success)) as Hk by frame.
  by rewrite Hk.
Qed.

Lemma importMemories_normal text s : (importMemories text s).1.1 = Normal ().
Proof. by apply try_catch_normal. Qed.

Lemma importMemories_rejects text s :
  (∀ imported, JSON_parse text ≠ Some (JArray imported)) →
  importMemories text s = (Normal (), s, import_failure).
Proof.
  intros Hno. unfold importMemories, try_catch.
  destruct (JSON_parse text) as [[imported|v]|]; [by destruct (Hno imported)|done|done].
Qed.

Lemma importMemories_replaces text s imported :
  JSON_parse text = Some (JArray imported) →
  memories (final (importMemories text) s) = imported.
Proof.
  intros Hparse. unfold importMemories. rewrite final_try_catch, Hparse.
  assert (keeps memories report_import_failure) as Hh by frame.
  unfold final. rewrite !ret_bind.
  destruct (replace_the_world imported s).1.1.
  - apply replace_the_world_memories.
  - etrans; [apply Hh|apply replace_the_world_memories].
Qed.

(** Once the first part of a sequence has completed, the outcome is that
    of the rest, and what the rest shows is shown. *)
Lemma seq_normal {A B} (c : M A) (f : A → M B) s a u r :
  (c s).1.1 = Normal a →
  (f a (final c s)).1.1 = r ∧ u ∈ (f a (final c s)).2 →
  ((c ≫= f) s).1.1 = r ∧ u ∈ ((c ≫= f) s).2.
Proof.
  unfold final, mbind, M_bind. destruct (c s) as [[r1 s1] w1]. simpl. intros ->.
  destruct (f a s1) as [[r2 s2] w2]. simpl. intros [-> Hu]. split; [done|].
  apply elem_of_app. by right.
Qed.

Lemma saveToStorage_normal s : (saveToStorage s).1.1 = Normal ().
Proof.
  unfold saveToStorage, mbind, M_bind, this. simpl.
  by destruct (localStorage_accepts _).
Qed.

Lemma loadMemories_renderable s :
  Forall renderable (memories s) → (loadMemories s).1.1 = Normal ().
Proof.
  intros Hall. unfold loadMemories.
  destruct (forEach_addPinToMap_renderable (memories s) s Hall) as (Hnormal & _).
  unfold mbind, M_bind, this. by destruct (forEach _ _ s) as [[? ?] ?].
Qed.

Lemma replace_the_world_succeeds imported s :
  Forall renderable imported →
  (replace_the_world imported s).1.1 = Normal () ∧
  Toast (Imported (length imported)) success ∈ (replace_the_world imported s).2.
Proof.
  intros Hall.
  eapply seq_normal; [done|].
  eapply seq_normal; [apply forEach_removeLayer_normal|].
  eapply seq_normal; [done|].
  eapply seq_normal; [done|].
  eapply seq_normal; [apply saveToStorage_normal|].
  eapply seq_normal.
  { apply loadMemories_renderable. by rewrite (keeps_saveToStorage memories stable_memories). }
  split; [done|]. left.
Qed.

Lemma importMemories_succeeds text s imported :
  JSON_parse text = Some (JArray imported) → Forall renderable imported →
  Toast (Imported (length imported)) success ∈ (importMemories text s).2.
Proof.
  intros Hparse Hall. unfold importMemories, try_catch. rewrite Hparse, ret_bind.
  destruct (replace_the_world_succeeds imported s Hall) as [Hnormal Hlog].
  destruct (replace_the_world imported s) as [[r s1] w1]. simpl in *. by subst r.
Qed.

(** C2, as the code has it.  An import always returns to the caller.  When
    the text is no JSON, or JSON that is no array, it reports the failure
    and the application object is what it was: collection, markers and
    storage are retained.  When the text is a JSON array of records that can
    all be rendered, the import reports its success; and whenever the text
    is an array and success is reported, the collection is the supplied
    list. *)
Theorem importMemories_spec text s :
  (importMemories text s).1.1 = Normal () ∧
  match JSON_parse text with
  | Some (JArray imported) =>
      (Forall renderable imported →
       Toast (Imported (length imported)) success ∈ (importMemories text s).2) ∧
      (Toast (Imported (length imported)) success ∈ (importMemories text s).2 →
       memories (final (importMemories text) s) = imported)
  | Some (JOther _) | None => importMemories text s = (Normal (), s, import_failure)
  end.
Proof.
  split; [apply importMemories_normal|].
  destruct (JSON_parse text) as [[imported|v]|] eqn:Hparse.
  - split; [by apply importMemories_succeeds|]. intros _. by apply importMemories_replaces.
  - apply importMemories_rejects. congruence.
  - apply importMemories_rejects. congruence.
Qed.


(** ** What each event does to the collection *)

Lemma saveMemory_memories (f : form) clk s :
  ∀ l', l' = memories (final (saveMemory f clk) s) →
  l' = memories s ∨
  (editingMemory s = false ∧ ∃ pin, l' = memories s ++ [created f clk pin]) ∨
  (editingMemory s = true ∧
   ∃ i m memory, search (currentMemoryId s) (memories s) 0 = Normal (Some (i, m)) ∧
                 id_of memory = Some (currentMemoryId s) ∧
                 l' = <[i := memory]> (memories s)).
Proof.
  intros l' ->. destruct (blank_or_present f) as [Hb|Hp].
  { left. unfold final. by rewrite saveMemory_refuses. }
  destruct (editingMemory s) eqn:He; [|destruct (currentPin s) as [pin|] eqn:Hpin].
  - unfold saveMemory. rewrite validation_passes by done.
    rewrite final_this_bind, He.
    destruct (currentPin s) as [pin|]; [|left; by rewrite final_throw_bind].
    rewrite final_ret_bind, final_bind_assoc, final_lift_bind.
    destruct (find _ _) as [found|] eqn:Hfind; [|by left].
    rewrite final_lift_bind.
    destruct found as [m|]; simpl; [|by left].
    apply find_Some in Hfind as [i Hs].
    destruct (prop m "createdAt") as [createdAt|]; [|by left].
    right; right. split; [done|].
    set (memory := new_memory _ _ _ _ _ _ _).
    exists i, m, memory. split; [done|]. split; [done|].
    assert (findIndex (currentMemoryId s) (memories s) = Normal (Some i)) as Hi
      by (apply findIndex_Some; eauto).
    rewrite !final_bind_assoc, final_lift_bind, Hi.
    rewrite !final_bind_assoc, final_assign_bind.
    destruct (Map_get _ _) as [mk|].
    + rewrite final_bind. rewrite removeLayer_run. simpl.
      by rewrite (and_then_persist_keeps_memories memory).
    + by rewrite final_throw_bind.
  - right; left. split; [done|]. exists pin.
    unfold final. rewrite (saveMemory_create_run f clk s pin) by done.
    apply (and_then_persist_keeps_memories (created f clk pin)).
  - left. unfold saveMemory. rewrite validation_passes by done.
    rewrite final_this_bind, He, Hpin. by rewrite final_throw_bind.
Qed.

Lemma deleteMemory_memories confirmed s :
  ∀ l', l' = memories (final (deleteMemory confirmed) s) →
  l' = memories s ∨
  ∃ i m, search (currentMemoryId s) (memories s) 0 = Normal (Some (i, m)) ∧
         l' = delete i (memories s).
Proof.
  intros l' ->. destruct confirmed; [|by left].
  unfold deleteMemory. rewrite final_this_bind, final_lift_bind.
  destruct (findIndex _ _) as [[i|]|] eqn:Hi; [|by left|by left].
  apply findIndex_Some in Hi as [m Hs].
  destruct (Map_get _ _) as [mk|].
  - right. exists i, m. split; [done|].
    rewrite final_bind, removeLayer_run. simpl.
    rewrite !final_assign_bind.
    assert (keeps memories
              (saveToStorage;; closeDetailModal;;
               showToast (Text "Memory deleted successfully.") success)) as Hk by frame.
    by rewrite Hk.
  - left. by rewrite final_throw_bind.
Qed.

Lemma importMemories_memories text s :
  ∀ l', l' = memories (final (importMemories text) s) →
  l' = memories s ∨ JSON_parse text = Some (JArray l').
Proof.
  intros l' ->. destruct (JSON_parse text) as [[imported|v]|] eqn:Hparse.
  - right. by rewrite (importMemories_replaces text s imported).
  - left. unfold final. rewrite importMemories_rejects; [done|congruence].
  - left. unfold final. rewrite importMemories_rejects; [done|congruence].
Qed.

(** ** Uniqueness of ids *)

Lemma keeps_ids_apart_after ev s :
  NoDup (ids (memories s)) → keeps_ids_apart s ev → NoDup (ids (memories (after ev s))).
Proof.
  intros Hl Hev.
  pose proof (other_events_keep memories ev s stable_memories) as Hother.
  destruct ev as [| | f clk | | | | |confirmed| | | |text|]; try (by rewrite Hother).
  - destruct (saveMemory_memories f clk s _ eq_refl)
      as [Heq|[(He & pin & Heq)|(He & i & m & memory & Hs & Hid & Heq)]];
      unfold after; simpl; unfold final in Heq; rewrite Heq; [done| |].
    + rewrite ids_app. apply NoDup_app. split; [done|]. split.
      * intros k Hk. unfold ids at 1. simpl. rewrite list_elem_of_singleton.
        intros ->. by apply (Hev He).
      * unfold ids. simpl. apply NoDup_singleton.
    + apply search_Some in Hs as (n & -> & Hn & Hm & _).
      by rewrite (ids_insert _ _ m) by (done || congruence).
  - destruct (deleteMemory_memories confirmed s _ eq_refl) as [Heq|(i & m & _ & Heq)];
      unfold after; simpl; unfold final in Heq; rewrite Heq; [done|].
    by apply ids_delete_NoDup.
  - destruct (importMemories_memories text s _ eq_refl) as [Heq|Hparse];
      unfold after; simpl; unfold final in *; [by rewrite Heq|].
    by apply (Hev _ Hparse).
Qed.

(** C3, as the code has it.  From a collection whose ids are pairwise
    distinct, a sequence of events leaves the ids pairwise distinct provided
    each creation draws a timestamp that is no id of the collection at that
    moment and each import brings a list with pairwise distinct ids.  A
    submitted edit and a delete never break uniqueness. *)
Theorem unique_ids_run evs s :
  NoDup (ids (memories s)) → all_keep_ids_apart evs s →
  NoDup (ids (memories (run evs s))).
Proof.
  revert s. induction evs as [|ev evs IH]; intros s Hl Hevs; simpl in *; [done|].
  destruct Hevs as [Hev Hevs]. apply IH; [|done].
  by apply keeps_ids_apart_after.
Qed.

(** ** The cache of markers is sound *)

Lemma keeps_cache_sound {A} (c : M A) s :
  keeps memories c → keeps pins c → cache_sound s → cache_sound (final c s).
Proof. slim. unfold cache_sound. intros Hm Hp. by rewrite Hm, Hp. Qed.

Lemma addPinToMap_sound m s :
  cache_sound s → (∀ k, id_of m = Some k → k ∈ ids (memories s)) →
  cache_sound (final (addPinToMap m) s).
Proof.
  unfold cache_sound. intros Hs Hm. rewrite addPinToMap_keeps_memories.
  destruct (addPinToMap_pins m s) as [-> | (k & mk & Hk & ->)]; [done|].
  apply sound_Map_set; [done|by apply Hm].
Qed.

Lemma forEach_addPinToMap_sound (xs : list (@element number)) s :
  cache_sound s → (∀ m, m ∈ xs → m ∈ memories s) →
  cache_sound (final (forEach addPinToMap xs) s).
Proof.
  revert s. induction xs as [|m xs IH]; intros s Hs Hxs; simpl; [done|].
  apply final_bind_ind.
  - apply addPinToMap_sound; [done|]. intros k Hk.
    eapply elem_of_ids; [|done]. apply Hxs. left.
  - intros _ Hs1. apply IH; [done|]. intros m' Hm'.
    rewrite addPinToMap_keeps_memories. apply Hxs. by right.
Qed.

Lemma loadMemories_sound s : cache_sound s → cache_sound (final loadMemories s).
Proof.
  intros Hs. unfold loadMemories. rewrite final_this_bind.
  by apply forEach_addPinToMap_sound.
Qed.

Lemma and_then_persist_sound memory s :
  cache_sound s → (∀ k, id_of memory = Some k → k ∈ ids (memories s)) →
  cache_sound (final (and_then_persist memory) s).
Proof.
  intros Hs Hid.
  enough (cache_sound (final (and_then_persist memory) s) ∧
          memories (final (and_then_persist memory) s) = memories s) as [? _] by done.
  apply (final_bind_ind (λ s', cache_sound s' ∧ memories s' = memories s)).
  { split; [apply keeps_cache_sound; [frame|frame|done] | apply (keeps_saveToStorage memories stable_memories)]. }
  intros _ [Hs1 Hm1].
  apply (final_bind_ind (λ s', cache_sound s' ∧ memories s' = memories s)).
  { split; [apply addPinToMap_sound; [done|by rewrite Hm1]|].
    by rewrite addPinToMap_keeps_memories. }
  intros _ [Hs2 Hm2]. split; [apply keeps_cache_sound; [frame|frame|done]|].
  rewrite <- Hm2.
  assert (keeps memories (closeModal;; showToast (Text "Memory saved successfully! 🎉") success))
    as Hk by frame.
  apply Hk.
Qed.

Lemma saveMemory_sound (f : form) clk s :
  cache_sound s → cache_sound (final (saveMemory f clk) s).
Proof.
  intros Hs. destruct (blank_or_present f) as [Hb|Hp].
  { unfold final. by rewrite saveMemory_refuses. }
  destruct (editingMemory s) eqn:He; [|destruct (currentPin s) as [pin|] eqn:Hpin].
  - unfold saveMemory. rewrite validation_passes by done.
    rewrite final_this_bind, He.
    destruct (currentPin s) as [pin|]; [|by rewrite final_throw_bind].
    rewrite final_ret_bind, final_bind_assoc, final_lift_bind.
    destruct (find _ _) as [found|] eqn:Hfind; [|done].
    rewrite final_lift_bind.
    destruct found as [m|]; simpl; [|done].
    apply find_Some in Hfind as [i Hsearch].
    destruct (prop m "createdAt") as [createdAt|]; [|done].
    set (memory := new_memory _ _ _ _ _ _ _).
    assert (findIndex (currentMemoryId s) (memories s) = Normal (Some i)) as Hi
      by (apply findIndex_Some; eauto).
    rewrite !final_bind_assoc, final_lift_bind, Hi.
    rewrite !final_bind_assoc, final_assign_bind.
    pose proof (search_Some_ids _ _ _ _ Hsearch) as Hin.
    apply search_Some in Hsearch as (n & -> & Hn & Hm & _). simpl in *.
    assert (ids (<[n := memory]> (memories s)) = ids (memories s)) as Hids
      by (apply (ids_insert _ _ m); [done|by rewrite Hm]).
    assert (cache_sound (set_memories (<[n := memory]> (memories s)) s)) as Hs1.
    { unfold cache_sound. simpl. eapply sound_mono; [done|]. by rewrite Hids. }
    destruct (Map_get _ _) as [mk|].
    + rewrite final_bind, removeLayer_run. simpl.
      apply and_then_persist_sound; [done|].
      simpl. intros k [= <-]. by rewrite Hids.
    + by rewrite final_throw_bind.
  - unfold final. rewrite (saveMemory_create_run f clk s pin) by done.
    apply and_then_persist_sound.
    + unfold cache_sound. simpl. eapply sound_mono; [done|].
      intros k Hk. rewrite ids_app. apply elem_of_app. by left.
    + simpl. intros k [= <-]. rewrite ids_app. apply elem_of_app. right.
      unfold ids. simpl. left.
  - unfold saveMemory. rewrite validation_passes by done.
    rewrite final_this_bind, He, Hpin. by rewrite final_throw_bind.
Qed.

Lemma deleteMemory_sound confirmed s :
  cache_sound s → cache_sound (final (deleteMemory confirmed) s).
Proof.
  intros Hs. destruct confirmed; [|done].
  unfold deleteMemory. rewrite final_this_bind, final_lift_bind.
  destruct (findIndex _ _) as [[i|]|] eqn:Hi; [|done|done].
  apply findIndex_Some in Hi as [m Hsearch].
  destruct (Map_get _ _) as [mk|]; [|by rewrite final_throw_bind].
  rewrite final_bind, removeLayer_run. simpl.
  rewrite !final_assign_bind.
  apply keeps_cache_sound; [frame|frame|].
  unfold cache_sound. simpl. by eapply sound_delete.
Qed.

Lemma replace_the_world_sound imported s :
  cache_sound (final (replace_the_world imported) s).
Proof.
  rewrite final_this_bind, final_bind, forEach_removeLayer_normal.
  rewrite !final_assign_bind.
  apply final_bind_ind.
  - apply keeps_cache_sound; [frame|frame|].
    unfold cache_sound. simpl. split; [constructor|constructor].
  - intros _ Hs1. apply final_bind_ind; [by apply loadMemories_sound|].
    intros _ Hs2. apply keeps_cache_sound; [frame|frame|done].
Qed.

Lemma importMemories_sound text s :
  cache_sound s → cache_sound (final (importMemories text) s).
Proof.
  intros Hs. destruct (JSON_parse text) as [[imported|v]|] eqn:Hparse.
  - unfold importMemories. rewrite final_try_catch, Hparse.
    unfold final. rewrite !ret_bind.
    destruct (replace_the_world imported s).1.1.
    + apply replace_the_world_sound.
    + apply (keeps_cache_sound report_import_failure); [frame|frame|].
      apply replace_the_world_sound.
  - unfold final. rewrite importMemories_rejects; [done|congruence].
  - unfold final. rewrite importMemories_rejects; [done|congruence].
Qed.

Lemma cache_sound_after ev s : cache_sound s → cache_sound (after ev s).
Proof.
  intros Hs.
  pose proof (other_events_keep memories ev s stable_memories) as Hm.
  pose proof (other_events_keep pins ev s stable_pins) as Hp.
  destruct ev; try (unfold cache_sound; by rewrite Hm, Hp).
  - by apply saveMemory_sound.
  - by apply deleteMemory_sound.
  - by apply importMemories_sound.
Qed.

Lemma cache_sound_constructor stored s : constructor stored = Normal s → cache_sound s.
Proof.
  assert (cache_sound (number:=number) blank) as Hblank by (split; constructor).
  unfold constructor.
  destruct (match stored with Some text => JSON_parse text | None => _ end)
    as [[l|v]|]; [| |done].
  - match goal with
    | |- context [loadMemories ?s0] =>
        assert (cache_sound (final loadMemories s0)) as Hload
          by (apply loadMemories_sound; split; constructor);
        unfold final in Hload; destruct (loadMemories s0) as [[[[]|e] s1] w]
    end; [|done]. by intros [= <-].
  - destruct (truthy v); [done|]. intros [= <-]. split; constructor.
Qed.

Lemma cache_sound_of_reachable s : reachable s → cache_sound s.
Proof.
  induction 1 as [stored s Hc|s ev _ IH].
  - by eapply cache_sound_constructor.
  - by apply cache_sound_after.
Qed.

(** ** The collection and the cache in step *)

Lemma tidy_intro s :
  NoDup (ids (memories s)) → Forall (λ m, is_Some (id_of m)) (memories s) →
  NoDup (keys (pins s)) → NoDup (pins s).*2 →
  (∀ k, k ∈ keys (pins s) ↔ k ∈ ids (memories s)) →
  fresh_handles s → tidy s.
Proof.
  slim. intros Hids Hentries Hkeys Hmarkers Hsame Hfresh. split; [|done].
  split; try done; apply Forall_forall; intros k Hk; by apply Hsame.
Qed.

Lemma tidy_elim s :
  tidy s →
  NoDup (ids (memories s)) ∧ Forall (λ m, is_Some (id_of m)) (memories s) ∧
  NoDup (keys (pins s)) ∧ NoDup (pins s).*2 ∧
  (∀ k, k ∈ keys (pins s) ↔ k ∈ ids (memories s)) ∧
  fresh_handles s.
Proof.
  slim. intros [[Hids Hentries Hkeys Hmarkers Hcached Hstored] Hfresh].
  rewrite Forall_forall in Hcached. rewrite Forall_forall in Hstored.
  repeat split; try done; auto.
Qed.

(** Being in step is a matter of the collection, the cache and the stock
    of handles only. *)
Lemma tidy_core s s' :
  memories s' = memories s → pins s' = pins s → nextHandle s' = nextHandle s →
  tidy s → tidy s'.
Proof.
  slim. intros Hm Hp Hn (? & ? & ? & ? & ? & Hfresh)%tidy_elim.
  apply tidy_intro; rewrite ?Hm, ?Hp; try done.
  unfold fresh_handles. by rewrite Hp, Hn.
Qed.

Lemma tidy_same_ids s s' :
  tidy s → ids (memories s') = ids (memories s) →
  Forall (λ m, is_Some (id_of m)) (memories s') →
  pins s' = pins s → nextHandle s' = nextHandle s → tidy s'.
Proof.
  slim. intros (? & ? & ? & ? & ? & Hfresh)%tidy_elim Hids Hentries Hp Hn.
  apply tidy_intro; rewrite ?Hids, ?Hp; try done.
  unfold fresh_handles. by rewrite Hp, Hn.
Qed.

Lemma fresh_handles_new s mk : fresh_handles s → handle mk = nextHandle s → mk ∉ (pins s).*2.
Proof.
  slim. unfold fresh_handles. rewrite Forall_forall.
  intros Hfresh Hmk ([k0 mk0] & -> & Hin)%list_elem_of_fmap.
  specialize (Hfresh _ Hin). simpl in *. lia.
Qed.

Lemma fresh_handles_Map_set s s' k mk :
  fresh_handles s → handle mk = nextHandle s →
  pins s' = Map_set k mk (pins s) → nextHandle s' = S (nextHandle s) →
  fresh_handles s'.
Proof.
  slim. unfold fresh_handles. intros Hfresh Hmk -> ->.
  rewrite Forall_forall in Hfresh. apply Forall_forall. intros [k0 mk0] Hin. simpl.
  assert (mk0 ∈ (Map_set k mk (pins s)).*2) as Hin2
    by (apply list_elem_of_fmap; by exists (k0, mk0)).
  apply elem_of_values_Map_set in Hin2 as [->|Hold]; [lia|].
  apply list_elem_of_fmap in Hold as ([k1 mk1] & -> & Hold).
  specialize (Hfresh _ Hold). simpl in *. lia.
Qed.

(** A new marker for an id the collection has. *)
Lemma tidy_repin s s' k mk :
  tidy s → memories s' = memories s → k ∈ ids (memories s) →
  pins s' = Map_set k mk (pins s) → nextHandle s' = S (nextHandle s) →
  handle mk = nextHandle s → tidy s'.
Proof.
  slim. intros (? & ? & ? & ? & Hsame & Hfresh)%tidy_elim Hm Hk Hp Hn Hmk.
  apply tidy_intro; rewrite ?Hm; try done.
  - rewrite Hp. by apply NoDup_keys_Map_set.
  - rewrite Hp. apply NoDup_values_Map_set; [done|]. by apply fresh_handles_new.
  - intros k'. rewrite Hp, elem_of_keys_Map_set, Hsame.
    split; [by intros [->|?]|by right].
  - by eapply fresh_handles_Map_set.
Qed.

(** A new record under a new id, with its marker. *)
Lemma tidy_append s s' c k mk :
  tidy s → memories s' = memories s ++ [c] → id_of c = Some k → k ∉ ids (memories s) →
  pins s' = Map_set k mk (pins s) → nextHandle s' = S (nextHandle s) →
  handle mk = nextHandle s → tidy s'.
Proof.
  slim. intros (Hids & Hentries & ? & ? & Hsame & Hfresh)%tidy_elim Hm Hc Hk Hp Hn Hmk.
  assert (ids (memories s') = ids (memories s) ++ [k]) as Hids'.
  { rewrite Hm, ids_app. unfold ids at 2. simpl. by rewrite Hc. }
  apply tidy_intro.
  - rewrite Hids'. apply NoDup_app. split; [done|]. split; [|apply NoDup_singleton].
    intros k' Hk'. rewrite list_elem_of_singleton. by intros ->.
  - rewrite Hm. apply Forall_app. split; [done|]. apply Forall_singleton. by eexists.
  - rewrite Hp. by apply NoDup_keys_Map_set.
  - rewrite Hp. apply NoDup_values_Map_set; [done|]. by apply fresh_handles_new.
  - intros k'. rewrite Hp, elem_of_keys_Map_set, Hids', elem_of_app, Hsame.
    rewrite list_elem_of_singleton. tauto.
  - by eapply fresh_handles_Map_set.
Qed.

(** The first record of an id leaves, and the cache entry of the id. *)
Lemma tidy_delete s s' i m k :
  tidy s → search k (memories s) 0 = Normal (Some (i, m)) →
  memories s' = delete i (memories s) → pins s' = Map_delete k (pins s) →
  nextHandle s' = nextHandle s → tidy s'.
Proof.
  slim. intros (Hids & Hentries & Hkeys & Hmarkers & Hsame & Hfresh)%tidy_elim.
  intros Hsearch Hm Hp Hn.
  assert (sound (memories s') (pins s')) as [Hkeys' Hstored'].
  { rewrite Hm, Hp. eapply sound_delete; [|done]. split; [done|].
    apply Forall_forall. intros k' Hk'. by apply Hsame. }
  rewrite Forall_forall in Hstored'.
  apply search_Some in Hsearch as (n & -> & Hn' & Hid & _). simpl in *.
  apply tidy_intro.
  - rewrite Hm. by apply ids_delete_NoDup.
  - rewrite Hm. by apply Forall_delete.
  - done.
  - rewrite Hp. eapply sublist_NoDup; [done|]. apply fmap_sublist, Map_delete_sublist.
  - intros k'. split; [apply Hstored'|]. rewrite Hm, Hp. intros Hk'.
    assert (k' ∈ ids (memories s)) as Hold
      by (eapply elem_of_sublist; [done|apply ids_sublist, sublist_delete]).
    apply elem_of_keys_Map_delete; [|by apply Hsame].
    intros ->.
    (* the id that left does not occur twice *)
    apply list_elem_of_lookup_2 in Hn' as Hin.
    apply list_elem_of_omap in Hk' as (m' & Hm' & Hid').
    apply list_elem_of_lookup in Hm' as [j Hj].
    rewrite list_lookup_delete in Hj.
    destruct (decide (j < n)) as [Hlt|Hge].
    + pose proof (one_record_per_id _ _ _ _ _ _ Hids Hj Hn' Hid' Hid). lia.
    + pose proof (one_record_per_id _ _ _ _ _ _ Hids Hj Hn' Hid' Hid). lia.
  - unfold fresh_handles in *. rewrite Hp, Hn.
    rewrite Forall_forall in Hfresh. apply Forall_forall. intros entry Hentry.
    apply Hfresh. eapply elem_of_sublist; [done|apply Map_delete_sublist].
Qed.

Lemma new_memory_renderable x (t d de mo : string) (pin : @jsval number * @jsval number) c :
  Leaflet_accepts pin.1 pin.2 = true → renderable (new_memory x t d de mo pin c).
Proof.
  intros Hok. split; [by eexists|]. split; [by eexists|]. by exists pin.1, pin.2.
Qed.

Lemma and_then_persist_renderable memory s :
  renderable memory →
  ∃ k mk,
    id_of memory = Some k ∧ handle mk = nextHandle s ∧
    memories (final (and_then_persist memory) s) = memories s ∧
    pins (final (and_then_persist memory) s) = Map_set k mk (pins s) ∧
    nextHandle (final (and_then_persist memory) s) = S (nextHandle s).
Proof.
  intros Hr.
  destruct (addPinToMap_renderable memory (final saveToStorage s) Hr)
    as (k & mk & Hk & Hmk & _ & _ & Hm & Hp & Hn).
  rewrite (keeps_saveToStorage nextHandle stable_nextHandle) in Hmk.
  rewrite (keeps_saveToStorage memories stable_memories) in Hm.
  rewrite (keeps_saveToStorage pins stable_pins) in Hp.
  rewrite (keeps_saveToStorage nextHandle stable_nextHandle) in Hn.
  exists k, mk. split; [done|]. split; [done|].
  rewrite !final_bind, !saveToStorage_normal.
  assert (∀ {C} (field : @LifeAtlas number → C), stable field →
            keeps field (closeModal;;
                         showToast (Text "Memory saved successfully! 🎉") success))
    as Htail by frame.
  destruct ((addPinToMap memory (final saveToStorage s)).1.1);
    rewrite ?Htail by frame; done.
Qed.

Lemma saveMemory_tidy (f : form) clk s :
  tidy s → orderly s (Submit f clk) → tidy (final (saveMemory f clk) s).
Proof.
  intros Hs [Hpin Hnow]. destruct (blank_or_present f) as [Hb|Hp].
  { unfold final. by rewrite saveMemory_refuses. }
  destruct (editingMemory s) eqn:He; [|destruct (currentPin s) as [pin|] eqn:Hcur].
  - unfold saveMemory. rewrite validation_passes by done.
    rewrite final_this_bind, He.
    destruct (currentPin s) as [pin|] eqn:Hcur; [|by rewrite final_throw_bind].
    rewrite final_ret_bind, final_bind_assoc, final_lift_bind.
    destruct (find _ _) as [found|] eqn:Hfind; [|done].
    rewrite final_lift_bind.
    destruct found as [m|]; simpl; [|done].
    apply find_Some in Hfind as [i Hsearch].
    destruct (prop m "createdAt") as [createdAt|]; [|done].
    set (memory := new_memory _ _ _ _ _ _ _).
    assert (findIndex (currentMemoryId s) (memories s) = Normal (Some i)) as Hi
      by (apply findIndex_Some; eauto).
    rewrite !final_bind_assoc, final_lift_bind, Hi.
    rewrite !final_bind_assoc, final_assign_bind.
    pose proof (search_Some_ids _ _ _ _ Hsearch) as Hin.
    apply search_Some in Hsearch as (n & -> & Hn & Hm & _). simpl in *.
    assert (ids (<[n := memory]> (memories s)) = ids (memories s)) as Hids
      by (apply (ids_insert _ _ m); [done|by rewrite Hm]).
    assert (tidy (set_memories (<[n := memory]> (memories s)) s)) as Hs1.
    { apply (tidy_same_ids s); try done. simpl.
      apply Forall_insert; [by apply tidy_elim in Hs as (_ & ? & _)|by eexists]. }
    destruct (Map_get _ _) as [mk0|]; [|by rewrite final_throw_bind].
    rewrite final_bind, removeLayer_run. simpl.
    match goal with
    | |- tidy (final _ ?s2) =>
        destruct (and_then_persist_renderable memory s2) as (k & mk & Hk & Hmk & Hm' & Hp' & Hn');
          [by apply new_memory_renderable, Hpin|];
        apply (tidy_repin (set_memories (<[n := memory]> (memories s)) s) _ k mk);
          try done
    end.
    simpl. rewrite Hids. by injection Hk as <-.
  - unfold final. rewrite (saveMemory_create_run f clk s pin) by done.
    destruct (and_then_persist_renderable (created f clk pin)
                (set_memories (memories s ++ [created f clk pin]) s))
      as (k & mk & Hk & Hmk & Hm' & Hp' & Hn');
      [by apply new_memory_renderable, Hpin|].
    injection Hk as <-.
    by apply (tidy_append s _ (created f clk pin) (Num (Date_now clk)) mk); auto.
  - unfold saveMemory. rewrite validation_passes by done.
    rewrite final_this_bind, He, Hcur. by rewrite final_throw_bind.
Qed.

Lemma deleteMemory_tidy confirmed s : tidy s → tidy (final (deleteMemory confirmed) s).
Proof.
  intros Hs. destruct confirmed; [|done].
  unfold deleteMemory. rewrite final_this_bind, final_lift_bind.
  destruct (findIndex _ _) as [[i|]|] eqn:Hi; [|done|done].
  apply findIndex_Some in Hi as [m Hsearch].
  destruct (Map_get _ _) as [mk|]; [|by rewrite final_throw_bind].
  rewrite final_bind, removeLayer_run. simpl.
  rewrite !final_assign_bind.
  assert (∀ {C} (field : @LifeAtlas number → C), stable field →
            keeps field (saveToStorage;; closeDetailModal;;
                         showToast (Text "Memory deleted successfully.") success))
    as Htail by frame.
  eapply (tidy_delete s); [done|done| | |]; by rewrite Htail by frame.
Qed.

Lemma replace_the_world_tidy imported s :
  NoDup (ids imported) → Forall renderable imported →
  tidy (final (replace_the_world imported) s).
Proof.
  intros Hids Hall.
  rewrite final_this_bind, final_bind, forEach_removeLayer_normal.
  rewrite !final_assign_bind, final_bind, saveToStorage_normal.
  match goal with
  | |- tidy (final _ (final saveToStorage ?s2)) =>
      set (s3 := final saveToStorage s2);
      assert (memories s3 = imported) as Hm3
        by (unfold s3; by rewrite (keeps_saveToStorage memories stable_memories));
      assert (pins s3 = []) as Hp3
        by (unfold s3; by rewrite (keeps_saveToStorage pins stable_pins))
  end.
  assert (tidy (final loadMemories s3)) as Hloaded.
  { unfold loadMemories. rewrite final_this_bind, Hm3.
    destruct (forEach_addPinToMap_renderable imported s3 Hall)
      as (_ & _ & Hm & Hk & Hnd & Hfresh).
    destruct Hfresh as [Hfresh Hmarkers];
      [unfold fresh_handles; rewrite Hp3; constructor|rewrite Hp3; constructor|].
    apply tidy_intro; rewrite ?Hm, ?Hm3; try done.
    - eapply Forall_impl; [done|]. by intros m (? & _).
    - apply Hnd. rewrite Hp3. constructor.
    - intros k. rewrite Hk, Hp3. split; [by intros [?%elem_of_nil|?]|by right]. }
  assert (∀ {C} (field : @LifeAtlas number → C), stable field →
            keeps field (showToast (Imported (length imported)) success))
    as Htail by frame.
  rewrite final_bind. destruct ((loadMemories s3).1.1); [|done].
  eapply tidy_core; [| | |done]; by rewrite Htail by frame.
Qed.

Lemma importMemories_tidy text s :
  tidy s → orderly s (ImportMemories text) → tidy (final (importMemories text) s).
Proof.
  intros Hs Hev. destruct (JSON_parse text) as [[imported|v]|] eqn:Hparse.
  - destruct (Hev imported Hparse) as [Hids Hall].
    unfold importMemories. rewrite final_try_catch, Hparse.
    unfold final. rewrite !ret_bind.
    pose proof (replace_the_world_tidy imported s Hids Hall) as Htidy.
    destruct (replace_the_world imported s).1.1; [done|].
    assert (∀ {C} (field : @LifeAtlas number → C), stable field →
              keeps field report_import_failure) as Hh by frame.
    eapply tidy_core; [| | |done];
      [apply (Hh _ memories stable_memories) | apply (Hh _ pins stable_pins)
      |apply (Hh _ nextHandle stable_nextHandle)].
  - unfold final. rewrite importMemories_rejects; [done|congruence].
  - unfold final. rewrite importMemories_rejects; [done|congruence].
Qed.

Lemma tidy_after ev s : tidy s → orderly s ev → tidy (after ev s).
Proof.
  intros Hs Hev.
  pose proof (other_events_keep memories ev s stable_memories) as Hm.
  pose proof (other_events_keep pins ev s stable_pins) as Hp.
  pose proof (other_events_keep nextHandle ev s stable_nextHandle) as Hn.
  destruct ev; try (by apply (tidy_core s)).
  - by apply saveMemory_tidy.
  - by apply deleteMemory_tidy.
  - by apply importMemories_tidy.
Qed.

Lemma tidy_run evs s : tidy s → all_orderly evs s → tidy (run evs s).
Proof.
  revert s. induction evs as [|ev evs IH]; intros s Hs Hevs; simpl in *; [done|].
  destruct Hevs as [Hev Hevs]. apply IH; [|done]. by apply tidy_after.
Qed.

Lemma tidy_constructor stored s :
  constructor stored = Normal s →
  (∀ text l, stored = Some text → JSON_parse text = Some (JArray l) →
             NoDup (ids l) ∧ Forall renderable l) →
  tidy s.
Proof.
  assert (tidy (number:=number) blank) as Hblank.
  { by apply tidy_intro; try (by constructor). }
  unfold constructor. intros Hc Hstored.
  destruct stored as [text|].
  - destruct (JSON_parse text) as [[l|v]|] eqn:Hparse; [| |done].
    + destruct (Hstored text l eq_refl Hparse) as [Hids Hall].
      match type of Hc with
      | context [loadMemories ?s0] =>
          assert (tidy (final loadMemories s0)) as Hload
      end.
      { unfold loadMemories. rewrite final_this_bind. simpl.
        match goal with
        | |- tidy (final _ ?s0) =>
            destruct (forEach_addPinToMap_renderable l s0 Hall)
              as (_ & _ & Hm & Hk & Hnd & Hfresh)
        end.
        destruct Hfresh as [Hfresh Hmarkers]; [constructor|constructor|].
        apply tidy_intro; rewrite ?Hm; try done.
        - eapply Forall_impl; [done|]. by intros m (? & _).
        - apply Hnd. constructor.
        - intros k. rewrite Hk. simpl. split; [by intros [?%elem_of_nil|?]|by right]. }
      unfold final in Hload.
      destruct (loadMemories _) as [[[[]|e] s1] w]; [|done]. by injection Hc as <-.
    + destruct (truthy v); [done|]. injection Hc as <-.
      by apply (tidy_core blank).
  - simpl in Hc. injection Hc as <-. by apply (tidy_core blank).
Qed.

(** C10, as the code has it.  In every state the application reaches, the
    keys of the marker cache are pairwise distinct and each is the id of an
    entry of the collection; so, when no entry of the collection is [null],
    the search for the record of a pin that the filter runs finds one.  The
    keys are exactly the ids, and the data model holds, from the start and
    along every sequence of events in which ids stay apart and every marker
    can be built: what the storage held and what each import brings are
    records that can be rendered, under distinct ids; each submit happens at
    a location the map takes and each creation at a time that is no id yet. *)
Theorem cache_sound_reachable :
  (∀ s, reachable s →
        cache_sound s ∧
        (Forall (λ m, is_Some (id_of m)) (memories s) →
         Forall (λ k, ∃ m, find k (memories s) = Normal (Some m)) (keys (pins s)))) ∧
  (∀ stored s,
     constructor stored = Normal s →
     (∀ text l, stored = Some text → JSON_parse text = Some (JArray l) →
                NoDup (ids l) ∧ Forall renderable l) →
     tidy s) ∧
  (∀ evs s,
     tidy s → all_orderly evs s →
     synchronized (run evs s) ∧
     (∀ k, k ∈ keys (pins (run evs s)) ↔ k ∈ ids (memories (run evs s)))).
Proof.
  split; [|split].
  - intros s Hreach. pose proof (cache_sound_of_reachable s Hreach) as Hs.
    split; [done|]. intros Hall. destruct Hs as [_ Hin].
    eapply Forall_impl; [done|]. intros k Hk. simpl in Hk.
    destruct (search_finds k (memories s) Hall Hk) as (i & m & Hsearch).
    exists m. apply find_Some. eauto.
  - apply tidy_constructor.
  - intros evs s Hs Hevs. pose proof (tidy_run evs s Hs Hevs) as Htidy.
    split; [by destruct Htidy|]. by apply tidy_elim in Htidy as (_ & _ & _ & _ & ? & _).
Qed.

(** ** Filtering *)

(** On a record with a date, the loop body decides as the specification's
    filter does. *)
Lemma show_pin_found flt k s m :
  find k (memories s) = Normal (Some m) → is_Some (id_of m) → dated m →
  show_pin flt k s = (Normal (selects flt m), s, []).
Proof.
  slim. intros Hfind Hid [d Hd].
  destruct (has_id_prop m "mood" Hid) as [mood Hmood].
  unfold show_pin, selects, mood_equals, date_from, date_to, truthy_string.
  unfold mbind, M_bind, this, lift. simpl. rewrite Hfind. simpl.
  rewrite Hmood, Hd. rewrite !leb_ltb. unfold strict_eq.
  destruct (bool_decide (moodFilter flt = EmptyString)),
    (bool_decide (dateFromFilter flt = EmptyString)),
    (bool_decide (dateToFilter flt = EmptyString)); simpl;
    repeat f_equal;
    destruct (bool_decide (mood = Str (moodFilter flt))),
      (String_lt d (dateFromFilter flt)), (String_lt (dateToFilter flt) d); done.
Qed.

Lemma elem_of_toggled (show : bool) mk mk' (layers : list (@marker number)) :
  mk' ∈ toggled show mk layers ↔ (mk' = mk ∧ show = true) ∨ (mk' ≠ mk ∧ mk' ∈ layers).
Proof.
  slim. unfold toggled. destruct show.
  - case_bool_decide as Hin.
    + destruct (decide (mk' = mk)) as [->|Hne].
      * split; [by left|done].
      * split; [by right|]. by intros [[? _]|[_ ?]].
    + rewrite elem_of_app, list_elem_of_singleton.
      destruct (decide (mk' = mk)) as [->|Hne].
      * split; [by left|by right].
      * split; [intros [?|?]; [by right|done]|].
        intros [[? _]|[_ ?]]; [done|by left].
  - rewrite list_elem_of_filter. split; [by right|].
    by intros [[_ ?]|?].
Qed.

(** The layers of the map once the loop has run over the entries. *)
Local Abbreviation toggled_all flt l entries layers :=
  (foldl (λ acc entry, toggled (verdict flt l entry.1) entry.2 acc) layers entries).

Local Abbreviation passing flt l entries :=
  (filter (λ entry : @jsval number * @marker number, verdict flt l entry.1 = true) entries).

Lemma applyFilters_loop_run flt (entries : list (@jsval number * @marker number)) n s :
  Forall (λ entry, ∃ m, find entry.1 (memories s) = Normal (Some m) ∧
                        is_Some (id_of m) ∧ dated m) entries →
  applyFilters_loop flt entries n s =
  (Normal (n + length (passing flt (memories s) entries)),
   set_mapLayers (toggled_all flt (memories s) entries (mapLayers s)) s, []).
Proof.
  revert n s. induction entries as [|[k mk] entries IH]; intros n s Hall.
  { simpl. unfold mret, M_ret. by rewrite Nat.add_0_r, set_mapLayers_same. }
  apply Forall_cons in Hall as [(m & Hfind & Hid & Hd) Hall]. simpl in Hfind.
  cbn [applyFilters_loop].
  erewrite bind_normal by (by apply (show_pin_found flt k s m)).
  assert (verdict flt (memories s) k = selects flt m) as Hv
    by (unfold verdict; by rewrite Hfind).
  rewrite filter_cons. cbn [fst snd foldl]. rewrite Hv.
  destruct (selects flt m) eqn:Hsel.
  - erewrite bind_normal by apply (toggle_run true).
    rewrite IH by done. simpl. rewrite set_mapLayers_twice.
    repeat f_equal. lia.
  - erewrite bind_normal by apply (toggle_run false).
    rewrite IH by done. simpl. by rewrite set_mapLayers_twice.
Qed.

Lemma elem_of_toggled_all flt l (entries : list (@jsval number * @marker number)) layers mk :
  NoDup entries.*2 →
  mk ∈ toggled_all flt l entries layers ↔
  (∃ k, (k, mk) ∈ entries ∧ verdict flt l k = true) ∨ ((mk ∉ entries.*2) ∧ mk ∈ layers).
Proof.
  slim. revert layers. induction entries as [|[k0 mk0] entries IH]; intros layers Hnd.
  { simpl. split; [intros ?; right; split; [apply not_elem_of_nil|done]|].
    intros [(k & Hk & _)|[_ ?]]; [by apply elem_of_nil in Hk|done]. }
  rewrite fmap_cons in Hnd. apply NoDup_cons in Hnd as [Hmk0 Hnd]. cbn [fst snd] in *.
  cbn [foldl fst snd]. rewrite IH by done. rewrite elem_of_toggled.
  rewrite fmap_cons, not_elem_of_cons. cbn [snd].
  split.
  - intros [(k & Hk & Hv)|[Hnot [[-> Hv]|[Hne Hin]]]].
    + left. exists k. split; [by right|done].
    + left. exists k0. split; [left|done].
    + right. done.
  - intros [(k & Hk & Hv)|[[Hne Hnot] Hin]].
    + apply elem_of_cons in Hk as [[= -> ->]|Hk]; [|left; eauto].
      right. split; [done|]. by left.
    + right. split; [done|]. right. done.
Qed.

Lemma length_filter_ids (P : @jsval number → Prop) (Q : @element number → Prop)
    `{∀ k, Decision (P k)} `{∀ m, Decision (Q m)} l :
  Forall (λ m, ∃ k, id_of m = Some k ∧ (P k ↔ Q m)) l →
  length (filter P (ids l)) = length (filter Q l).
Proof.
  slim. induction 1 as [|m l (k & Hk & HPQ) _ IH]; [done|].
  unfold ids in *.
  change (omap id_of (m :: l)) with
    (match id_of m with Some y => y :: omap id_of l | None => omap id_of l end).
  rewrite Hk, !filter_cons.
  destruct (decide (P k)), (decide (Q m)); cbn [length]; rewrite ?IH; first [done|tauto].
Qed.

Lemma length_passing flt l (p : list (@jsval number * @marker number)) :
  length (passing flt l p) = length (filter (λ k, verdict flt l k = true) (keys p)).
Proof.
  slim. unfold keys. induction p as [|[k mk] p IH]; [done|].
  rewrite fmap_cons, !filter_cons. cbn [fst].
  destruct (decide (verdict flt l k = true)); simpl; by rewrite IH.
Qed.

Section Synchronized.

Variable flt : filters.
Variable s : @LifeAtlas number.
Hypothesis Hsync : synchronized s.
Hypothesis Hdated : Forall dated (memories s).

Lemma synchronized_find m k :
  m ∈ memories s → id_of m = Some k → find k (memories s) = Normal (Some m).
Proof using Hsync. destruct Hsync. by apply find_unique. Qed.

Lemma synchronized_verdict m k :
  m ∈ memories s → id_of m = Some k → verdict flt (memories s) k = selects flt m.
Proof using Hsync. intros Hm Hk. unfold verdict. by rewrite (synchronized_find m k). Qed.

Lemma synchronized_record k :
  k ∈ keys (pins s) → ∃ m, m ∈ memories s ∧ id_of m = Some k.
Proof using Hsync.
  destruct Hsync as [_ _ _ _ _ Hstored]. rewrite Forall_forall in Hstored.
  intros Hk. specialize (Hstored k Hk). apply list_elem_of_omap in Hstored. done.
Qed.

Lemma synchronized_entries :
  Forall (λ entry, ∃ m, find entry.1 (memories s) = Normal (Some m) ∧
                        is_Some (id_of m) ∧ dated m) (pins s).
Proof using Hsync Hdated.
  apply Forall_forall. intros [k mk] Hin. simpl.
  assert (k ∈ keys (pins s)) as Hk by (apply list_elem_of_fmap; by exists (k, mk)).
  destruct (synchronized_record k Hk) as (m & Hm & Hid).
  exists m. split; [by apply synchronized_find|]. split; [by eexists|].
  rewrite Forall_forall in Hdated. by apply Hdated.
Qed.

Lemma synchronized_count :
  length (passing flt (memories s) (pins s)) =
  length (filter (λ m, selects flt m = true) (memories s)).
Proof using Hsync.
  rewrite length_passing.
  assert (keys (pins s) ≡ₚ ids (memories s)) as ->.
  { destruct Hsync as [Hids _ Hkeys _ Hcached Hstored].
    rewrite Forall_forall in Hcached, Hstored.
    apply NoDup_Permutation; [done|done|]. intros k. split; auto. }
  apply length_filter_ids. apply Forall_forall. intros m Hm.
  destruct Hsync as [_ Hentries _ _ _ _]. rewrite Forall_forall in Hentries.
  destruct (Hentries m Hm) as [k Hk]. exists k. split; [done|].
  by rewrite (synchronized_verdict m k).
Qed.

Lemma applyFilters_run :
  applyFilters flt s =
  (Normal (),
   set_mapLayers (toggled_all flt (memories s) (pins s) (mapLayers s)) s,
   [Toast (Showing (length (filter (λ m, selects flt m = true) (memories s)))
                   (length (memories s))) success]).
Proof using Hsync Hdated.
  unfold applyFilters. unfold mbind at 1, M_bind at 1, this at 1.
  erewrite bind_normal by (apply applyFilters_loop_run, synchronized_entries).
  simpl. by rewrite synchronized_count.
Qed.

Lemma visible_after_filter m :
  m ∈ memories s → visible (final (applyFilters flt) s) m ↔ selects flt m = true.
Proof using Hsync Hdated.
  intros Hm. unfold final. rewrite applyFilters_run. simpl.
  pose proof Hsync as [_ Hentries Hkeys Hmarkers Hcached _].
  rewrite Forall_forall in Hentries. rewrite Forall_forall in Hcached.
  destruct (Hentries m Hm) as [k Hk].
  assert (k ∈ keys (pins s)) as Hin by (apply Hcached; by eapply elem_of_ids).
  apply list_elem_of_fmap in Hin as ([k' mk] & [= <-] & Hin).
  pose proof (Map_get_elem k mk (pins s) Hkeys Hin) as Hget.
  unfold visible. simpl. split.
  - intros (k2 & mk2 & Hk2 & Hget2 & Hshown).
    assert (k2 = k) as -> by congruence. assert (mk2 = mk) as -> by congruence.
    apply (elem_of_toggled_all _ _ _ _ _ Hmarkers) in Hshown as [(k3 & Hk3 & Hv)|[Hnot _]].
    + assert (k3 = k) as -> by (by eapply marker_of_one_key).
      by rewrite <- (synchronized_verdict m k).
    + destruct Hnot. apply list_elem_of_fmap. by exists (k, mk).
  - intros Hsel. exists k, mk. split; [done|]. split; [done|].
    apply (elem_of_toggled_all _ _ _ _ _ Hmarkers). left. exists k. split; [done|].
    by rewrite (synchronized_verdict m k).
Qed.

End Synchronized.

Lemma selects_mood_only mood m :
  mood ≠ EmptyString →
  selects {| moodFilter := mood; dateFromFilter := EmptyString;
             dateToFilter := EmptyString |} m = true ↔
  prop m "mood" = Normal (Str mood).
Proof.
  slim. intros Hmood. unfold selects, mood_equals. simpl.
  rewrite bool_decide_eq_false_2 by done. simpl. rewrite !andb_true_r.
  destruct (prop m "mood") as [v|e]; [|done].
  rewrite bool_decide_eq_true. split; congruence.
Qed.

Lemma selects_intersection flt m :
  selects flt m =
  selects {| moodFilter := moodFilter flt; dateFromFilter := EmptyString;
             dateToFilter := EmptyString |} m &&
  selects {| moodFilter := EmptyString; dateFromFilter := dateFromFilter flt;
             dateToFilter := dateToFilter flt |} m.
Proof.
  slim. unfold selects. simpl.
  by rewrite !andb_true_r, andb_assoc.
Qed.

(** C5.  On an application object that satisfies the data model (unique
    ids, one marker of its own in the cache per record, dates that are
    strings), [applyFilters] leaves the collection and the cache alone and
    makes visible exactly the records that satisfy the conjunction of mood
    equals, date ≥ from and date ≤ to, an empty field of the filter being
    true; it reports their number.  With only a mood set these are the
    records of that mood, and a date range added keeps those of them that
    are in the range. *)
Theorem applyFilters_selects flt s :
  synchronized s → Forall dated (memories s) →
  let s' := final (applyFilters flt) s in
  let mood_only := {| moodFilter := moodFilter flt; dateFromFilter := EmptyString;
                      dateToFilter := EmptyString |} in
  let range_only := {| moodFilter := EmptyString; dateFromFilter := dateFromFilter flt;
                       dateToFilter := dateToFilter flt |} in
  applyFilters flt s =
    (Normal (), s',
     [Toast (Showing (length (filter (λ m, selects flt m = true) (memories s)))
                     (length (memories s))) success]) ∧
  memories s' = memories s ∧
  pins s' = pins s ∧
  (∀ m, m ∈ memories s → visible s' m ↔ selects flt m = true) ∧
  (∀ m, m ∈ memories s → moodFilter flt ≠ EmptyString →
        visible (final (applyFilters mood_only) s) m ↔
        prop m "mood" = Normal (Str (moodFilter flt))) ∧
  (∀ m, m ∈ memories s →
        visible s' m ↔
        visible (final (applyFilters mood_only) s) m ∧
        visible (final (applyFilters range_only) s) m).
Proof.
  intros Hsync Hdated s' mood_only range_only.
  pose proof (applyFilters_run flt s Hsync Hdated) as Hrun.
  assert (s' = set_mapLayers (toggled_all flt (memories s) (pins s) (mapLayers s)) s)
    as Hs' by (unfold s', final; by rewrite Hrun).
  split; [by rewrite Hrun, Hs'|].
  split; [by rewrite Hs'|].
  split; [by rewrite Hs'|].
  split; [intros m Hm; by apply visible_after_filter|]. split.
  - intros m Hm Hmood. rewrite visible_after_filter by done.
    by apply selects_mood_only.
  - intros m Hm. unfold s'. rewrite !visible_after_filter by done.
    rewrite selects_intersection. apply andb_true_iff.
Qed.

(** * Further properties of the methods *)

(** ** How storing and rendering run *)

Lemma Map_get_Map_set k mk p : Map_get k (Map_set k mk p) = Some mk.
Proof.
  slim. induction p as [|[k' mk'] p IH]; simpl.
  - unfold strict_eq. by rewrite bool_decide_eq_true_2.
  - destruct (strict_eq k' k) eqn:Hk; simpl; rewrite Hk; [done|apply IH].
Qed.

Lemma Map_get_Map_set_ne k k' mk p : k' ≠ k → Map_get k' (Map_set k mk p) = Map_get k' p.
Proof.
  slim. intros Hne. induction p as [|[k0 mk0] p IH]; simpl.
  - unfold strict_eq. by rewrite bool_decide_eq_false_2.
  - destruct (strict_eq k0 k) eqn:Hk; simpl.
    + apply strict_eq_true in Hk as ->. unfold strict_eq.
      by rewrite bool_decide_eq_false_2 by done.
    + by rewrite IH.
Qed.

Lemma saveToStorage_accepted s :
  localStorage_accepts (JSON_stringify 0 (memories s)) = true →
  saveToStorage s =
  (Normal (), set_lifeAtlasMemories (Some (JSON_stringify 0 (memories s))) s, []).
Proof.
  intros Hroom. unfold saveToStorage, mbind, M_bind, this. simpl. by rewrite Hroom.
Qed.

Lemma saveToStorage_refused s :
  localStorage_accepts (JSON_stringify 0 (memories s)) = false →
  saveToStorage s =
  (Normal (), s,
   [ConsoleError; Toast (Text "Failed to save memory. Storage may be full.") error]).
Proof.
  intros Hfull. unfold saveToStorage, mbind, M_bind, this. simpl. by rewrite Hfull.
Qed.

(** The application object once a marker for a record is on the map and in
    the cache. *)
Local Abbreviation pinned k mk s :=
  (set_pins (Map_set k mk (pins s))
     (set_mapLayers (toggled true mk (mapLayers s))
        (set_nextHandle (S (nextHandle s)) s))).

Lemma addPinToMap_run m s k d lat lng mood :
  prop m "id" = Normal k → prop m "description" = Normal (Str d) →
  prop m "lat" = Normal lat → prop m "lng" = Normal lng →
  prop m "mood" = Normal mood → Leaflet_accepts lat lng = true →
  addPinToMap m s =
  (Normal (),
   pinned k {| handle := nextHandle s; latlng := (lat, lng); data_mood := mood |} s, []).
Proof.
  intros Hid Hd Hlat Hlng Hmood Hok.
  unfold addPinToMap, createPopupContent, addTo, mbind, M_bind, lift, this, assign, toggled.
  simpl. rewrite Hmood, Hlat, Hlng. simpl. rewrite Hok. simpl.
  case_bool_decide; simpl; rewrite Hd; simpl; rewrite Hid; simpl; by destruct s.
Qed.

(** The outcome of a creation, whatever the storage says. *)
Lemma saveMemory_create_full (f : form) clk s pin :
  required_present f → editingMemory s = false → currentPin s = Some pin →
  Leaflet_accepts pin.1 pin.2 = true →
  let memory := created f clk pin in
  let text := JSON_stringify 0 (memories s ++ [memory]) in
  let mk := {| handle := nextHandle s; latlng := (pin.1, pin.2);
               data_mood := Str (default "📍" (selectedMood f)) |} in
  let stored := if localStorage_accepts text then Some text else lifeAtlasMemories s in
  saveMemory f clk s =
  (Normal (),
   set_currentMemoryId Null (set_editingMemory false (set_currentPin None
     (pinned (Num (Date_now clk)) mk
        (set_lifeAtlasMemories stored (set_memories (memories s ++ [memory]) s))))),
   (if localStorage_accepts text then []
    else [ConsoleError; Toast (Text "Failed to save memory. Storage may be full.") error]) ++
   [Display memoryModal false; FormReset;
    Toast (Text "Memory saved successfully! 🎉") success]).
Proof.
  intros Hf He Hp Hok memory text mk stored.
  rewrite (saveMemory_create_run f clk s pin) by done.
  unfold stored. destruct (localStorage_accepts text) eqn:Hroom.
  - erewrite bind_normal by (by apply saveToStorage_accepted).
    cbn [fst snd].
    erewrite bind_normal
      by (apply (addPinToMap_run memory _ (Num (Date_now clk))
                   (String_trim (memoryDescription f)) pin.1 pin.2
                   (Str (default "📍" (selectedMood f)))); done).
    done.
  - erewrite bind_normal by (by apply saveToStorage_refused).
    cbn [fst snd].
    erewrite bind_normal
      by (apply (addPinToMap_run memory _ (Num (Date_now clk))
                   (String_trim (memoryDescription f)) pin.1 pin.2
                   (Str (default "📍" (selectedMood f)))); done).
    destruct s; done.
Qed.

(** X1. A creation that completes.  With the required fields present, a
    picked location the map takes and room in the storage, [saveMemory]
    returns normally; the storage item is the serialisation of the new
    collection; a new marker stands on the map at the picked location with
    the mood of the form, and the cache holds it under the new id; the
    markers that were on the map are still there; the picked location, the
    edit flag and the id on display are reset; and the user sees the modal
    close, the form reset and the success toast, in this order. *)
Theorem saveMemory_create_outcome (f : form) clk s pin :
  required_present f → editingMemory s = false → currentPin s = Some pin →
  Leaflet_accepts pin.1 pin.2 = true →
  localStorage_accepts (JSON_stringify 0 (memories s ++ [created f clk pin])) = true →
  let mk := {| handle := nextHandle s; latlng := (pin.1, pin.2);
               data_mood := Str (default "📍" (selectedMood f)) |} in
  let s' := final (saveMemory f clk) s in
  (saveMemory f clk s).1.1 = Normal () ∧
  (saveMemory f clk s).2 =
    [Display memoryModal false; FormReset;
     Toast (Text "Memory saved successfully! 🎉") success] ∧
  lifeAtlasMemories s' = Some (JSON_stringify 0 (memories s')) ∧
  pins s' = Map_set (Num (Date_now clk)) mk (pins s) ∧
  Map_get (Num (Date_now clk)) (pins s') = Some mk ∧
  mk ∈ mapLayers s' ∧
  (∀ mk', mk' ∈ mapLayers s → mk' ∈ mapLayers s') ∧
  currentPin s' = None ∧ editingMemory s' = false ∧ currentMemoryId s' = Null ∧
  addingMemory s' = addingMemory s.
Proof.
  intros Hf He Hp Hok Hroom mk s'.
  pose proof (saveMemory_create_full f clk s pin Hf He Hp Hok) as Hrun.
  cbv zeta in Hrun. rewrite Hroom in Hrun.
  unfold s', final. rewrite Hrun. cbn [fst snd app].
  split; [done|]. split; [done|]. split; [done|]. split; [done|].
  split; [apply Map_get_Map_set|].
  cbn [mapLayers set_currentMemoryId set_editingMemory set_currentPin set_pins set_mapLayers].
  split; [apply elem_of_toggled; by left|].
  split; [|done]. intros mk' Hin. apply elem_of_toggled.
  destruct (decide (mk' = mk)) as [->|Hne]; [by left|by right].
Qed.

(** X2. A creation the storage refuses.  When [localStorage] does not take
    the text (the quota is exceeded), [saveMemory] still returns normally
    and the creation goes through in memory: the record is appended, its
    marker is on the map and in the cache.  The storage item keeps its old
    content, and the user is shown the storage error followed by the
    success toast. *)
Theorem saveMemory_storage_full (f : form) clk s pin :
  required_present f → editingMemory s = false → currentPin s = Some pin →
  Leaflet_accepts pin.1 pin.2 = true →
  localStorage_accepts (JSON_stringify 0 (memories s ++ [created f clk pin])) = false →
  let mk := {| handle := nextHandle s; latlng := (pin.1, pin.2);
               data_mood := Str (default "📍" (selectedMood f)) |} in
  let s' := final (saveMemory f clk) s in
  (saveMemory f clk s).1.1 = Normal () ∧
  (saveMemory f clk s).2 =
    [ConsoleError; Toast (Text "Failed to save memory. Storage may be full.") error;
     Display memoryModal false; FormReset;
     Toast (Text "Memory saved successfully! 🎉") success] ∧
  memories s' = memories s ++ [created f clk pin] ∧
  lifeAtlasMemories s' = lifeAtlasMemories s ∧
  Map_get (Num (Date_now clk)) (pins s') = Some mk ∧
  mk ∈ mapLayers s'.
Proof.
  intros Hf He Hp Hok Hfull mk s'.
  pose proof (saveMemory_create_full f clk s pin Hf He Hp Hok) as Hrun.
  cbv zeta in Hrun. rewrite Hfull in Hrun.
  unfold s', final. rewrite Hrun. cbn [fst snd app].
  split; [done|]. split; [done|]. split; [done|]. split; [done|].
  split; [apply Map_get_Map_set|].
  cbn [mapLayers set_currentMemoryId set_editingMemory set_currentPin set_pins set_mapLayers].
  apply elem_of_toggled. by left.
Qed.

(** ** Persistence *)

Local Abbreviation persisted := (persisted JSON_stringify).

(** Frames for any field, by going through the computation. *)
Ltac frame_any :=
  repeat first
    [ apply keeps_ret | apply keeps_this | apply keeps_throw | apply keeps_emit
    | apply keeps_lift | apply keeps_createPopupContent
    | apply keeps_bind; [|intros ?]
    | apply keeps_forEach; intros ?
    | apply keeps_try_catch; [|intros ?]
    | apply keeps_assign; intros ?; first [done | by case_bool_decide]
    | match goal with
      | |- keeps _ (if ?b then _ else _) => destruct b
      | |- keeps _ (match ?x with _ => _ end) => destruct x
      end
    | progress cbv zeta ].

Lemma addPinToMap_keeps_storage m : keeps lifeAtlasMemories (addPinToMap m).
Proof. unfold addPinToMap, addTo. frame_any. Qed.

Lemma loadMemories_keeps_storage : keeps lifeAtlasMemories loadMemories.
Proof.
  unfold loadMemories. apply keeps_bind; [apply keeps_this|].
  intros s. apply keeps_forEach, addPinToMap_keeps_storage.
Qed.

Lemma closeModal_keeps_storage : keeps lifeAtlasMemories closeModal.
Proof. unfold closeModal, resetForm. frame_any. Qed.

Lemma closeDetailModal_keeps_storage : keeps lifeAtlasMemories closeDetailModal.
Proof. unfold closeDetailModal. frame_any. Qed.

(** The storage item is the serialisation of the collection, unless the
    storage has no room for it. *)
Local Abbreviation saved_or_full s :=
  (localStorage_accepts (JSON_stringify 0 (memories s)) = true → persisted s).

Lemma keeps_saved_or_full {A} (c : M A) s :
  keeps memories c → keeps lifeAtlasMemories c →
  saved_or_full s → saved_or_full (final c s).
Proof. slim. unfold persisted. intros Hm Hst. by rewrite Hm, Hst. Qed.

Lemma persist_then {A} (rest : M A) s :
  keeps memories rest → keeps lifeAtlasMemories rest →
  saved_or_full (final (saveToStorage;; rest) s).
Proof.
  intros Hm Hst. rewrite final_bind, saveToStorage_normal.
  apply keeps_saved_or_full; [done|done|].
  intros Hroom. unfold final in *.
  assert (memories (saveToStorage s).1.2 = memories s) as Hsame
    by apply (keeps_saveToStorage memories stable_memories).
  rewrite Hsame in Hroom. by rewrite saveToStorage_accepted.
Qed.

Lemma and_then_persist_saved memory s : saved_or_full (final (and_then_persist memory) s).
Proof.
  apply persist_then.
  - frame.
  - apply keeps_bind; [apply addPinToMap_keeps_storage|]. intros _.
    apply keeps_bind; [apply closeModal_keeps_storage|]. intros _. apply keeps_emit.
Qed.

Lemma saveMemory_saved (f : form) clk s :
  (editingMemory s = true → is_Some (Map_get (currentMemoryId s) (pins s))) →
  memories (final (saveMemory f clk) s) = memories s ∨
  saved_or_full (final (saveMemory f clk) s).
Proof.
  intros Hmk. destruct (blank_or_present f) as [Hb|Hp].
  { left. unfold final. by rewrite saveMemory_refuses. }
  destruct (editingMemory s) eqn:He; [|destruct (currentPin s) as [pin|] eqn:Hpin].
  - destruct (Hmk eq_refl) as [mk Hget].
    unfold saveMemory. rewrite validation_passes by done.
    rewrite final_this_bind, He.
    destruct (currentPin s) as [pin|]; [|left; by rewrite final_throw_bind].
    rewrite final_ret_bind, final_bind_assoc, final_lift_bind.
    destruct (find _ _) as [found|] eqn:Hfind; [|by left].
    rewrite final_lift_bind.
    destruct found as [m|]; simpl; [|by left].
    apply find_Some in Hfind as [i Hsearch].
    destruct (prop m "createdAt") as [createdAt|]; [|by left].
    set (memory := new_memory _ _ _ _ _ _ _).
    assert (findIndex (currentMemoryId s) (memories s) = Normal (Some i)) as Hi
      by (apply findIndex_Some; eauto).
    rewrite !final_bind_assoc, final_lift_bind, Hi.
    rewrite !final_bind_assoc, final_assign_bind.
    rewrite Hget. rewrite final_bind, removeLayer_run. simpl.
    right. apply (and_then_persist_saved memory).
  - right. unfold final. rewrite (saveMemory_create_run f clk s pin) by done.
    apply (and_then_persist_saved (created f clk pin)).
  - left. unfold saveMemory. rewrite validation_passes by done.
    rewrite final_this_bind, He, Hpin. by rewrite final_throw_bind.
Qed.

Lemma deleteMemory_saved confirmed s :
  memories (final (deleteMemory confirmed) s) = memories s ∨
  saved_or_full (final (deleteMemory confirmed) s).
Proof.
  destruct confirmed; [|by left].
  unfold deleteMemory. rewrite final_this_bind, final_lift_bind.
  destruct (findIndex _ _) as [[i|]|] eqn:Hi; [|by left|by left].
  destruct (Map_get _ _) as [mk|]; [|left; by rewrite final_throw_bind].
  right. rewrite final_bind, removeLayer_run. simpl.
  rewrite !final_assign_bind.
  apply persist_then; [frame|].
  apply keeps_bind; [apply closeDetailModal_keeps_storage|]. intros _. apply keeps_emit.
Qed.

Lemma replace_the_world_saved imported s :
  saved_or_full (final (replace_the_world imported) s).
Proof.
  rewrite final_this_bind, final_bind, forEach_removeLayer_normal.
  rewrite !final_assign_bind.
  apply persist_then; [frame|].
  apply keeps_bind; [apply loadMemories_keeps_storage|]. intros _. apply keeps_emit.
Qed.

Lemma importMemories_saved text s :
  memories (final (importMemories text) s) = memories s ∨
  saved_or_full (final (importMemories text) s).
Proof.
  destruct (JSON_parse text) as [[imported|v]|] eqn:Hparse.
  - right. unfold importMemories. rewrite final_try_catch, Hparse.
    unfold final. rewrite !ret_bind.
    destruct (replace_the_world imported s).1.1.
    + apply replace_the_world_saved.
    + apply (keeps_saved_or_full report_import_failure); [frame|frame_any|].
      apply replace_the_world_saved.
  - left. unfold final. rewrite importMemories_rejects; [done|congruence].
  - left. unfold final. rewrite importMemories_rejects; [done|congruence].
Qed.

(** X3. No change of the collection goes unsaved.  Whenever an event
    leaves a collection other than the one it found, and the storage has
    room for its serialisation, the storage item is that serialisation when
    the handler is done, even when the handler threw after the change.  The
    one proviso is on a submitted edit: the cache must hold a marker for the
    id under edit, since the handler throws between the change of the array
    and the write when it does not. *)
Theorem mutation_is_persisted ev s :
  (editingMemory s = true → is_Some (Map_get (currentMemoryId s) (pins s))) →
  localStorage_accepts (JSON_stringify 0 (memories (after ev s))) = true →
  memories (after ev s) ≠ memories s →
  persisted (after ev s).
Proof.
  intros Hmk Hroom Hchange.
  pose proof (other_events_keep memories ev s stable_memories) as Hother.
  destruct ev as [| | f clk | | | | |confirmed| | | |text|]; try (by destruct Hchange).
  - destruct (saveMemory_saved f clk s Hmk) as [Hsame|Hsaved]; [by destruct Hchange|].
    by apply Hsaved.
  - destruct (deleteMemory_saved confirmed s) as [Hsame|Hsaved]; [by destruct Hchange|].
    by apply Hsaved.
  - destruct (importMemories_saved text s) as [Hsame|Hsaved]; [by destruct Hchange|].
    by apply Hsaved.
Qed.

(** ** The edit branch of [saveMemory] *)

(** What [saveMemory] does after the array is updated, on a record that can
    be rendered. *)
Lemma and_then_persist_run memory s k d lat lng mood :
  prop memory "id" = Normal k → prop memory "description" = Normal (Str d) →
  prop memory "lat" = Normal lat → prop memory "lng" = Normal lng →
  prop memory "mood" = Normal mood → Leaflet_accepts lat lng = true →
  let text := JSON_stringify 0 (memories s) in
  let stored := if localStorage_accepts text then Some text else lifeAtlasMemories s in
  let mk := {| handle := nextHandle s; latlng := (lat, lng); data_mood := mood |} in
  and_then_persist memory s =
  (Normal (),
   set_currentMemoryId Null (set_editingMemory false (set_currentPin None
     (pinned k mk (set_lifeAtlasMemories stored s)))),
   (if localStorage_accepts text then []
    else [ConsoleError; Toast (Text "Failed to save memory. Storage may be full.") error]) ++
   [Display memoryModal false; FormReset;
    Toast (Text "Memory saved successfully! 🎉") success]).
Proof.
  intros Hid Hd Hlat Hlng Hmood Hok text stored mk.
  unfold stored. destruct (localStorage_accepts text) eqn:Hroom.
  - erewrite bind_normal by (by apply saveToStorage_accepted).
    cbn [fst snd].
    erewrite bind_normal by (by apply (addPinToMap_run memory _ k d lat lng mood)).
    done.
  - erewrite bind_normal by (by apply saveToStorage_refused).
    cbn [fst snd].
    erewrite bind_normal by (by apply (addPinToMap_run memory _ k d lat lng mood)).
    destruct s; done.
Qed.

Lemma saveMemory_edit_run (f : form) clk s pin i m mk0 createdAt :
  required_present f → editingMemory s = true → currentPin s = Some pin →
  search (currentMemoryId s) (memories s) 0 = Normal (Some (i, m)) →
  prop m "createdAt" = Normal createdAt →
  Map_get (currentMemoryId s) (pins s) = Some mk0 →
  let memory := new_memory (currentMemoryId s) (String_trim (memoryTitle f)) (memoryDate f)
                  (String_trim (memoryDescription f)) (default "📍" (selectedMood f))
                  pin createdAt in
  saveMemory f clk s =
  and_then_persist memory
    (set_mapLayers (filter (λ y, y ≠ mk0) (mapLayers s))
       (set_memories (<[i := memory]> (memories s)) s)).
Proof.
  intros Hf He Hp Hsearch Hc Hget memory.
  assert (find (currentMemoryId s) (memories s) = Normal (Some m)) as Hfind
    by (apply find_Some; eauto).
  assert (findIndex (currentMemoryId s) (memories s) = Normal (Some i)) as Hi
    by (apply findIndex_Some; eauto).
  unfold saveMemory. rewrite validation_passes by done.
  unfold mbind, M_bind, this, lift. simpl.
  rewrite He, Hp. simpl. rewrite Hfind. simpl. rewrite Hc. simpl.
  rewrite Hi. simpl. rewrite Hget. simpl. fold memory.
  destruct (saveToStorage _) as [[[[]|?] ?] ?]; simpl; [|done].
  destruct (addPinToMap _ _) as [[[[]|?] ?] ?]; simpl; [|by rewrite ?app_nil_r].
  by rewrite ?app_nil_r.
Qed.

(** X4. The edit branch replaces in place.  When [saveMemory] runs in
    edit mode and the id under edit is that of a record (found at index
    [i]) whose marker the cache holds, the record at [i] is replaced by one
    that takes its id and its [createdAt] from the old record and everything
    else from the form and the picked location; the other records stay where
    they are and the collection keeps its length; the cache holds a new
    marker under the same id, on the map, and the old marker is off the map;
    edit mode is left. *)
Theorem saveMemory_edits_in_place (f : form) clk s pin i m mk0 :
  required_present f → editingMemory s = true → currentPin s = Some pin →
  findIndex (currentMemoryId s) (memories s) = Normal (Some i) →
  memories s !! i = Some m →
  Map_get (currentMemoryId s) (pins s) = Some mk0 →
  Leaflet_accepts pin.1 pin.2 = true →
  ∃ createdAt,
    prop m "createdAt" = Normal createdAt ∧
    let memory := new_memory (currentMemoryId s) (String_trim (memoryTitle f)) (memoryDate f)
                    (String_trim (memoryDescription f)) (default "📍" (selectedMood f))
                    pin createdAt in
    let mk := {| handle := nextHandle s; latlng := (pin.1, pin.2);
                 data_mood := Str (default "📍" (selectedMood f)) |} in
    let s' := final (saveMemory f clk) s in
    (saveMemory f clk s).1.1 = Normal () ∧
    Toast (Text "Memory saved successfully! 🎉") success ∈ (saveMemory f clk s).2 ∧
    memories s' = <[i := memory]> (memories s) ∧
    length (memories s') = length (memories s) ∧
    (∀ j, j ≠ i → memories s' !! j = memories s !! j) ∧
    prop memory "id" = prop m "id" ∧
    prop memory "createdAt" = prop m "createdAt" ∧
    keys (pins s') = keys (pins s) ∧
    Map_get (currentMemoryId s) (pins s') = Some mk ∧
    mk ∈ mapLayers s' ∧
    (handle mk0 ≠ nextHandle s → mk0 ∉ mapLayers s') ∧
    editingMemory s' = false ∧ currentPin s' = None ∧ currentMemoryId s' = Null.
Proof.
  intros Hf He Hp Hi Hm Hget Hok.
  apply findIndex_Some in Hi as [m' Hsearch].
  pose proof Hsearch as (n & -> & Hn & Hid & _)%search_Some. simpl in Hm.
  assert (m' = m) as -> by congruence.
  destruct (has_id_prop m "createdAt" (ex_intro _ _ Hid)) as [createdAt Hc].
  exists createdAt. split; [done|]. intros memory mk s'.
  pose proof (saveMemory_edit_run f clk s pin n m mk0 createdAt Hf He Hp Hsearch Hc Hget)
    as Hrun.
  cbv zeta in Hrun. fold memory in Hrun.
  rewrite (and_then_persist_run memory _ (currentMemoryId s)
             (String_trim (memoryDescription f)) pin.1 pin.2
             (Str (default "📍" (selectedMood f)))) in Hrun by done.
  cbv zeta in Hrun. unfold s', final. rewrite Hrun. cbn [fst snd].
  split; [done|].
  split; [apply elem_of_app; right; by repeat constructor|].
  split; [done|].
  split; [apply length_insert|].
  split; [intros j Hj; by apply list_lookup_insert_ne|].
  split; [by apply id_of_Some in Hid|].
  split; [done|].
  cbn [pins mapLayers set_currentMemoryId set_editingMemory set_currentPin set_pins
         set_mapLayers set_lifeAtlasMemories set_memories set_nextHandle nextHandle].
  split.
  { rewrite keys_Map_set. rewrite bool_decide_eq_true_2; [done|].
    apply list_elem_of_fmap. exists (currentMemoryId s, mk0). split; [done|].
    by apply Map_get_Some_elem. }
  split; [apply Map_get_Map_set|].
  split; [apply elem_of_toggled; by left|].
  split; [|done]. intros Hne. rewrite elem_of_toggled.
  intros [[-> _]|[_ Hin]]; [done|].
  apply list_elem_of_filter in Hin as [Hin _]. done.
Qed.

(** ** Rendering a record *)

Ltac run_addPinToMap :=
  unfold final, addPinToMap, createPopupContent, addTo, mbind, M_bind, lift, this, assign.

Lemma addPinToMap_quiet m s : (addPinToMap m s).2 = [].
Proof.
  run_addPinToMap.
  destruct m as [[]|props]; simpl; try done.
  all: destruct (Leaflet_accepts _ _); simpl; try done.
  all: case_bool_decide; simpl; try done.
  all: destruct (own "description" props); simpl; done.
Qed.

Lemma addPinToMap_throws m s :
  ¬ renderable m →
  ∃ e, (addPinToMap m s).1.1 = Throw e ∧ pins (final (addPinToMap m) s) = pins s.
Proof.
  intros Hno. run_addPinToMap.
  destruct m as [[]|props]; simpl; eauto.
  1-4: destruct (Leaflet_accepts _ _); simpl; eauto; case_bool_decide; simpl; eauto.
  destruct (Leaflet_accepts _ _) eqn:Hok; simpl; eauto.
  case_bool_decide; simpl; destruct (own "description" props) eqn:Hd; simpl; eauto.
  all: destruct Hno; split; [by eexists|]; split; [by eexists; simpl; rewrite Hd|].
  all: by eexists _, _.
Qed.

(** [addPinToMap] completes on the records that can be rendered, and on no
    other. *)
Lemma addPinToMap_normal_iff m s : (addPinToMap m s).1.1 = Normal () ↔ renderable m.
Proof.
  split.
  - intros Hnormal.
    assert (is_Some (id_of m)) as Hid.
    { destruct m as [v|props]; [destruct v|];
        [exfalso; revert Hnormal; by run_addPinToMap ..
        | by eexists | by eexists | by eexists | by eexists | by eexists];
        exfalso; revert Hnormal; by run_addPinToMap. }
    destruct (has_id_prop m "lat" Hid) as [lat Hlat], (has_id_prop m "lng" Hid) as [lng Hlng],
      (has_id_prop m "mood" Hid) as [mood Hmood],
      (has_id_prop m "description" Hid) as [d Hd].
    revert Hnormal. run_addPinToMap. rewrite Hmood, Hlat, Hlng. simpl.
    destruct (Leaflet_accepts lat lng) eqn:Hok; simpl; [|done].
    rewrite Hd. intros Hnormal.
    split; [done|]. split; [|by exists lat, lng].
    destruct d as [| | | |d|]; [| | | |by exists d|];
      exfalso; revert Hnormal; case_bool_decide; simpl; done.
  - intros Hm. by destruct (addPinToMap_renderable m s Hm) as (_ & _ & _ & _ & ? & _).
Qed.

(** X5. What rendering a record does.  [addPinToMap] shows nothing to the
    user and leaves the collection alone.  It completes exactly on the
    records that can be rendered (an id that can be read, a description that
    is a string, coordinates the map takes): then a marker made for the
    occasion is on the map and the cache holds it under the id of the record.
    On any other record it throws and the cache is what it was; when the
    record is an object whose coordinates the map takes and whose
    description is no string, the throw comes after the marker was put on
    the map, where it stays without the cache having been given it. *)
Theorem addPinToMap_outcome m s :
  let s' := final (addPinToMap m) s in
  (addPinToMap m s).2 = [] ∧
  memories s' = memories s ∧
  ((addPinToMap m s).1.1 = Normal () ↔ renderable m) ∧
  (renderable m →
   ∃ k mk, id_of m = Some k ∧ handle mk = nextHandle s ∧
           pins s' = Map_set k mk (pins s) ∧ Map_get k (pins s') = Some mk ∧
           mk ∈ mapLayers s') ∧
  (¬ renderable m → pins s' = pins s) ∧
  (∀ lat lng mood,
     prop m "lat" = Normal lat → prop m "lng" = Normal lng →
     prop m "mood" = Normal mood → Leaflet_accepts lat lng = true →
     (∀ d, prop m "description" ≠ Normal (Str d)) →
     let mk := {| handle := nextHandle s; latlng := (lat, lng); data_mood := mood |} in
     (addPinToMap m s).1.1 = Throw TypeError ∧
     mk ∈ mapLayers s' ∧ pins s' = pins s ∧ nextHandle s' = S (nextHandle s)).
Proof.
  intros s'. split; [apply addPinToMap_quiet|].
  split; [apply addPinToMap_keeps_memories|].
  split; [apply addPinToMap_normal_iff|].
  split; [|split].
  - intros Hm. pose proof Hm as ([k Hk] & [d Hd] & (lat & lng & Hlat & Hlng & Hok)).
    destruct (has_id_prop m "mood" (ex_intro _ k Hk)) as [mood Hmood].
    apply id_of_Some in Hk as Hid.
    exists k, {| handle := nextHandle s; latlng := (lat, lng); data_mood := mood |}.
    unfold s', final. rewrite (addPinToMap_run m s k d lat lng mood) by done.
    cbn [fst snd pins mapLayers set_pins set_mapLayers].
    split; [done|]. split; [done|]. split; [done|].
    split; [apply Map_get_Map_set|]. apply elem_of_toggled. by left.
  - intros Hno. by destruct (addPinToMap_throws m s Hno) as (e & _ & ?).
  - intros lat lng mood Hlat Hlng Hmood Hok Hd mk. unfold s'.
    run_addPinToMap. rewrite Hmood, Hlat, Hlng. simpl. rewrite Hok. simpl.
    assert (∃ v, prop m "description" = Normal v) as [d Hv].
    { destruct m as [[]|props]; simpl in *; try done; eauto. }
    rewrite Hv. fold mk.
    destruct d as [| | | |d|]; [| | | |by destruct (Hd d)|];
      case_bool_decide; simpl; repeat split; try done;
      apply elem_of_app; right; left.
Qed.

(** ** Rendering the collection *)

Lemma loadMemories_run s : loadMemories s = forEach addPinToMap (memories s) s.
Proof.
  unfold loadMemories, mbind, M_bind, this.
  by destruct (forEach addPinToMap (memories s) s) as [[? ?] ?].
Qed.

Lemma forEach_addPinToMap_quiet xs s : (forEach addPinToMap xs s).2 = [].
Proof.
  revert s. induction xs as [|m xs IH]; intros s; simpl; [done|].
  unfold mbind, M_bind. pose proof (addPinToMap_quiet m s) as Hq.
  destruct (addPinToMap m s) as [[[[]|e] s1] w1]; simpl in *; [|done].
  specialize (IH s1). destruct (forEach addPinToMap xs s1) as [[r2 s2] w2].
  simpl in *. by subst.
Qed.

(** The loop of [loadMemories] runs to its end exactly when every record
    can be rendered. *)
Lemma forEach_addPinToMap_normal_iff xs s :
  (forEach addPinToMap xs s).1.1 = Normal () ↔ Forall renderable xs.
Proof.
  revert s. induction xs as [|m xs IH]; intros s; simpl.
  { split; [by constructor|done]. }
  rewrite Forall_cons, <- (addPinToMap_normal_iff m s).
  unfold mbind, M_bind.
  destruct (addPinToMap m s) as [[[[]|e] s1] w1]; simpl.
  - specialize (IH s1). destruct (forEach addPinToMap xs s1) as [[r2 s2] w2].
    simpl in *. rewrite IH. tauto.
  - split; [done|]. by intros [? _].
Qed.

Lemma pinned_on_map k mk s : on_map s → on_map (pinned k mk s).
Proof.
  slim. unfold on_map. cbn [pins mapLayers set_pins set_mapLayers set_nextHandle].
  intros Hs. apply Forall_forall. intros [k0 mk0] Hin. cbn [snd].
  apply elem_of_toggled.
  destruct (decide (mk0 = mk)) as [->|Hne]; [by left|right]. split; [done|].
  assert (mk0 ∈ (Map_set k mk (pins s)).*2) as Hin2
    by (apply list_elem_of_fmap; by exists (k0, mk0)).
  apply elem_of_values_Map_set in Hin2 as [->|Hold]; [done|].
  apply list_elem_of_fmap in Hold as ([k1 mk1] & -> & Hold).
  rewrite Forall_forall in Hs. apply (Hs _ Hold).
Qed.

Lemma pinned_fresh_layers k mk s :
  handle mk = nextHandle s → fresh_layers s →
  fresh_layers (pinned k mk s) ∧ mapLayers (pinned k mk s) = mapLayers s ++ [mk].
Proof.
  slim. unfold fresh_layers.
  cbn [pins mapLayers nextHandle set_pins set_mapLayers set_nextHandle]. intros Hmk Hs.
  assert (mk ∉ mapLayers s) as Hnew.
  { intros Hin. rewrite Forall_forall in Hs. specialize (Hs _ Hin). lia. }
  unfold toggled. rewrite bool_decide_eq_false_2 by done. split; [|done].
  apply Forall_app. split.
  - eapply Forall_impl; [done|]. simpl. intros; lia.
  - apply Forall_singleton. lia.
Qed.

(** What the loop of [loadMemories] does to the map. *)
Lemma forEach_addPinToMap_layers (xs : list (@element number)) s :
  Forall renderable xs →
  let s' := final (forEach addPinToMap xs) s in
  nextHandle s ≤ nextHandle s' ∧
  (∀ mk, mk ∈ mapLayers s → mk ∈ mapLayers s') ∧
  (∀ mk, mk ∈ mapLayers s' → mk ∈ mapLayers s ∨ nextHandle s ≤ handle mk) ∧
  (on_map s → on_map s') ∧
  (fresh_layers s →
   fresh_layers s' ∧ length (mapLayers s') = length (mapLayers s) + length xs).
Proof.
  intros Hxs. revert s. induction Hxs as [|m xs Hm _ IH]; intros s; simpl.
  { unfold final. simpl. split; [done|]. split; [done|]. split; [by left|].
    split; [done|]. intros Hs. split; [done|lia]. }
  pose proof Hm as ([k Hk] & [d Hd] & (lat & lng & Hlat & Hlng & Hok)).
  destruct (has_id_prop m "mood" (ex_intro _ k Hk)) as [mood Hmood].
  apply id_of_Some in Hk as Hid.
  pose proof (addPinToMap_run m s k d lat lng mood Hid Hd Hlat Hlng Hmood Hok) as Hrun.
  set (mk := {| handle := nextHandle s; latlng := (lat, lng); data_mood := mood |}) in *.
  assert (final (addPinToMap m ≫= λ _, forEach addPinToMap xs) s =
          final (forEach addPinToMap xs) (pinned k mk s)) as ->.
  { rewrite final_bind, Hrun. cbn [fst snd]. unfold final at 2. by rewrite Hrun. }
  destruct (IH (pinned k mk s)) as (IHn & IHin & IHout & IHmap & IHfresh).
  cbn [pins mapLayers nextHandle set_pins set_mapLayers set_nextHandle] in IHn, IHin, IHout.
  split; [lia|]. split; [|split; [|split]].
  - intros mk' Hin. apply IHin. apply elem_of_toggled.
    destruct (decide (mk' = mk)) as [->|Hne]; [by left|by right].
  - intros mk' Hin. apply IHout in Hin as [Hin|Hge]; [|right; lia].
    apply elem_of_toggled in Hin as [[-> _]|[_ Hin]]; [right; simpl; lia|by left].
  - intros Hs. by apply IHmap, pinned_on_map.
  - intros Hs. destruct (pinned_fresh_layers k mk s eq_refl Hs) as [Hfresh Hlayers].
    destruct (IHfresh Hfresh) as [? Hlen]. split; [done|].
    rewrite Hlen, Hlayers, length_app. simpl. lia.
Qed.

(** A record whose id is a key of the cache is visible when the markers of
    the cache are on the map. *)
Lemma on_map_visible s m k :
  on_map s → id_of m = Some k → k ∈ keys (pins s) → visible s m.
Proof.
  slim. intros Hs Hk Hin. destruct (Map_get_is_Some k (pins s) Hin) as [mk Hget].
  exists k, mk. split; [done|]. split; [done|].
  unfold on_map in Hs. rewrite Forall_forall in Hs.
  apply (Hs (k, mk)). by apply Map_get_Some_elem.
Qed.

(** ** Starting the application *)

Lemma addPinToMap_keeps_view m :
  keeps (λ s, (currentPin s, addingMemory s, editingMemory s, currentMemoryId s))
    (addPinToMap m).
Proof. unfold addPinToMap, addTo. frame_any. Qed.

Lemma constructor_array text l :
  JSON_parse text = Some (JArray l) →
  let s0 := set_memories l (set_lifeAtlasMemories (Some text) blank) in
  constructor (Some text) =
  match (forEach addPinToMap l s0).1.1 with
  | Normal _ => Normal (final (forEach addPinToMap l) s0)
  | Throw e => Throw e
  end.
Proof.
  intros Hparse s0. unfold constructor. rewrite Hparse. fold s0.
  rewrite loadMemories_run. unfold final. cbn [memories set_memories s0].
  by destruct (forEach addPinToMap l _) as [[[[]|e] s1] w].
Qed.

(** The application object the constructor leaves for a stored array of
    records that can be rendered. *)
Lemma constructor_loaded text l s :
  JSON_parse text = Some (JArray l) → constructor (Some text) = Normal s →
  Forall renderable l ∧
  lifeAtlasMemories s = Some text ∧ memories s = l ∧
  (∀ k, k ∈ keys (pins s) ↔ k ∈ ids l) ∧
  on_map s ∧ length (mapLayers s) = length l ∧
  currentPin s = None ∧ addingMemory s = false ∧ editingMemory s = false ∧
  currentMemoryId s = Null.
Proof.
  intros Hparse. rewrite (constructor_array text l Hparse). cbv zeta.
  set (s0 := set_memories l (set_lifeAtlasMemories (Some text) blank)).
  destruct ((forEach addPinToMap l s0).1.1) eqn:Hnormal; [|done].
  intros [= <-]. destruct a.
  apply forEach_addPinToMap_normal_iff in Hnormal as Hall.
  destruct (forEach_addPinToMap_renderable l s0 Hall) as (_ & _ & Hmem & Hkeys & _).
  destruct (forEach_addPinToMap_layers l s0 Hall) as (_ & _ & _ & Hmap & Hfresh).
  cbv zeta in Hmem, Hkeys, Hmap, Hfresh.
  split; [done|].
  split; [apply (keeps_forEach lifeAtlasMemories), addPinToMap_keeps_storage|].
  split; [by rewrite Hmem|].
  split.
  { intros k. rewrite Hkeys. split; [intros [Hin|Hin]; [by apply elem_of_nil in Hin|done]|auto]. }
  split; [apply Hmap; by apply Forall_nil|].
  split; [destruct Hfresh as [_ ->]; [by apply Forall_nil|done]|].
  pose proof (keeps_forEach _ addPinToMap l addPinToMap_keeps_view s0) as Hview.
  simpl in Hview. by injection Hview as -> -> -> ->.
Qed.

(** X6. When the application starts.  The constructor returns an
    application object when the storage holds no item, or a text that
    [JSON.parse] reads as a falsy value that is no array, or as an array of
    records that can all be rendered; in every other case it throws and
    there is no application: a [SyntaxError] for a text that is no JSON, a
    [TypeError] for a truthy value that is no array, and whatever the first
    record that cannot be rendered makes [addPinToMap] throw.  When it
    returns, the collection is the stored array (the empty one when there
    was none), the storage item is untouched, the keys of the cache are the
    ids of the collection, every record is visible, the map carries one
    marker per record, and no mode is on. *)
Theorem constructor_starts stored :
  ((∃ s, constructor stored = Normal s) ↔
   match stored with
   | None => True
   | Some text =>
       match JSON_parse text with
       | None => False
       | Some (JOther v) => truthy v = false
       | Some (JArray l) => Forall renderable l
       end
   end) ∧
  (∀ text, stored = Some text → JSON_parse text = None →
           constructor stored = Throw SyntaxError) ∧
  (∀ text v, stored = Some text → JSON_parse text = Some (JOther v) → truthy v = true →
             constructor stored = Throw TypeError) ∧
  (∀ s, constructor stored = Normal s →
     lifeAtlasMemories s = stored ∧
     memories s = match stored with
                  | Some text => match JSON_parse text with
                                 | Some (JArray l) => l
                                 | _ => []
                                 end
                  | None => []
                  end ∧
     (∀ k, k ∈ keys (pins s) ↔ k ∈ ids (memories s)) ∧
     (∀ m, m ∈ memories s → visible s m) ∧
     length (mapLayers s) = length (memories s) ∧
     currentPin s = None ∧ addingMemory s = false ∧ editingMemory s = false ∧
     currentMemoryId s = Null).
Proof.
  split; [|split; [|split]].
  - destruct stored as [text|]; [|split; [done|]; intros _; by eexists].
    destruct (JSON_parse text) as [[l|v]|] eqn:Hparse.
    + rewrite (constructor_array text l Hparse). cbv zeta.
      rewrite <- (forEach_addPinToMap_normal_iff l
                   (set_memories l (set_lifeAtlasMemories (Some text) blank))).
      destruct (forEach addPinToMap l _).1.1 as [[]|e].
      * split; [done|]. intros _. by eexists.
      * split; [by intros [s ?]|done].
    + unfold constructor. rewrite Hparse. destruct (truthy v).
      * split; [by intros [s ?]|done].
      * split; [done|]. intros _. by eexists.
    + unfold constructor. rewrite Hparse. split; [by intros [s ?]|done].
  - intros text -> Hparse. unfold constructor. by rewrite Hparse.
  - intros text v -> Hparse Hv. unfold constructor. by rewrite Hparse, Hv.
  - intros s Hs.
    assert (∀ s0 : @LifeAtlas number, memories s0 = [] → pins s0 = [] → mapLayers s0 = [] →
              (∀ k, k ∈ keys (pins s0) ↔ k ∈ ids (memories s0)) ∧
              (∀ m, m ∈ memories s0 → visible s0 m) ∧
              length (mapLayers s0) = length (memories s0)) as Hempty.
    { intros s0 -> -> ->. split; [done|]. split; [|done]. by intros m ?%elem_of_nil. }
    destruct stored as [text|].
    + destruct (JSON_parse text) as [[l|v]|] eqn:Hparse.
      * destruct (constructor_loaded text l s Hparse Hs)
          as (Hall & Hst & Hmem & Hkeys & Hmap & Hlen & Hview).
        rewrite Hmem. split; [done|]. split; [done|]. split; [done|].
        split; [|by rewrite Hlen]. intros m Hm.
        rewrite Forall_forall in Hall. destruct (Hall m Hm) as ([k Hk] & _).
        apply (on_map_visible s m k Hmap Hk). apply Hkeys. by eapply elem_of_ids.
      * unfold constructor in Hs. rewrite Hparse in Hs.
        destruct (truthy v); [done|]. injection Hs as <-.
        split; [done|]. split; [done|]. by destruct (Hempty (set_lifeAtlasMemories (Some text) blank)) as (? & ? & ?).
      * unfold constructor in Hs. by rewrite Hparse in Hs.
    + unfold constructor in Hs. simpl in Hs. injection Hs as <-.
      split; [done|]. split; [done|]. by destruct (Hempty (set_lifeAtlasMemories None blank)) as (? & ? & ?).
Qed.

(** ** Importing an array *)

Lemma this_bind {B} (f : @LifeAtlas number → M B) s : (this ≫= f) s = f s s.
Proof. unfold mbind, M_bind, this. by destruct (f s s) as [[? ?] ?]. Qed.

Lemma bind_quiet {A B} (c : M A) (f : A → M B) s a s1 :
  c s = (Normal a, s1, []) → (c ≫= f) s = f a s1.
Proof. intros Hc. unfold mbind, M_bind. rewrite Hc. by destruct (f a s1) as [[? ?] ?]. Qed.

(** The layers of the map once the markers of the cache are taken off. *)
Local Abbreviation cleared p layers :=
  (foldl (λ acc (entry : @jsval number * @marker number),
            filter (λ y, y ≠ entry.2) acc) layers p).

Lemma elem_of_cleared p (layers : list (@marker number)) mk :
  mk ∈ cleared p layers ↔ mk ∈ layers ∧ mk ∉ p.*2.
Proof.
  slim. revert layers. induction p as [|[k0 mk0] p IH]; intros layers; cbn [foldl].
  { split; [intros ?; split; [done|apply not_elem_of_nil]|by intros [? _]]. }
  rewrite IH, list_elem_of_filter, fmap_cons, not_elem_of_cons. cbn [snd]. tauto.
Qed.

Lemma forEach_removeLayer_run p s :
  forEach (λ entry, removeLayer entry.2) p s =
  (Normal (), set_mapLayers (cleared p (mapLayers s)) s, []).
Proof.
  revert s. induction p as [|[k mk] p IH]; intros s; cbn [forEach foldl].
  { unfold mret, M_ret. by rewrite set_mapLayers_same. }
  erewrite bind_normal by apply removeLayer_run. by rewrite IH.
Qed.

(** The application object on which an import writes and renders. *)
Local Abbreviation emptied imported s :=
  (set_memories imported (set_pins [] (set_mapLayers (cleared (pins s) (mapLayers s)) s))).

Lemma replace_the_world_run imported s :
  replace_the_world imported s =
  (saveToStorage;; loadMemories;; showToast (Imported (length imported)) success)
    (emptied imported s).
Proof.
  rewrite this_bind.
  erewrite bind_quiet by apply forEach_removeLayer_run.
  erewrite bind_quiet by done. by erewrite bind_quiet by done.
Qed.

(** The application object on which an import renders. *)
Local Abbreviation written imported s :=
  (set_lifeAtlasMemories
     (if localStorage_accepts (JSON_stringify 0 imported)
      then Some (JSON_stringify 0 imported) else lifeAtlasMemories s)
     (emptied imported s)).

Lemma importMemories_array_run text s imported :
  JSON_parse text = Some (JArray imported) →
  importMemories text s =
  (Normal (), final (forEach addPinToMap imported) (written imported s),
   (if localStorage_accepts (JSON_stringify 0 imported) then []
    else [ConsoleError; Toast (Text "Failed to save memory. Storage may be full.") error]) ++
   match (forEach addPinToMap imported (written imported s)).1.1 with
   | Normal _ => [Toast (Imported (length imported)) success]
   | Throw _ => import_failure
   end).
Proof.
  intros Hparse. unfold importMemories, try_catch. rewrite Hparse, ret_bind.
  rewrite replace_the_world_run.
  pose proof (forEach_addPinToMap_quiet imported (written imported s)) as Hquiet.
  unfold final.
  destruct (localStorage_accepts (JSON_stringify 0 imported)) eqn:Hroom.
  - erewrite bind_normal by (by apply saveToStorage_accepted). cbn [fst snd].
    unfold mbind, M_bind. rewrite loadMemories_run. cbn [memories set_memories set_lifeAtlasMemories].
    destruct (forEach addPinToMap imported _) as [[[[]|e] s1] w1]; simpl in *; by subst.
  - erewrite bind_normal by (by apply saveToStorage_refused). cbn [fst snd].
    assert (set_lifeAtlasMemories (lifeAtlasMemories s) (emptied imported s) =
            emptied imported s) as Hsame by (by destruct s).
    rewrite Hsame in *.
    unfold mbind, M_bind. rewrite loadMemories_run. cbn [memories set_memories].
    destruct (forEach addPinToMap imported _) as [[[[]|e] s1] w1]; simpl in *; by subst.
Qed.

Lemma import_reports n (w0 : list ui) :
  w0 = [] ∨
  w0 = [ConsoleError; Toast (Text "Failed to save memory. Storage may be full.") error] →
  let succeeded := Toast (Imported n) success in
  let failed := Toast (Text "Failed to import memories. Please check the file format.") error in
  succeeded ∈ w0 ++ [succeeded] ∧ (failed ∉ w0 ++ [succeeded]) ∧
  (succeeded ∉ w0 ++ import_failure) ∧ failed ∈ w0 ++ import_failure.
Proof.
  slim. unfold import_failure. intros [-> | ->]; cbn [app];
    rewrite ?not_elem_of_cons, ?elem_of_cons; repeat split;
    first [apply not_elem_of_nil | discriminate | tauto].
Qed.

(** X7. Importing an array.  When the text of the file is a JSON array,
    the import always replaces the collection by that array and writes it to
    the storage (when there is room).  It reports success exactly when every
    entry of the array can be rendered, and otherwise reports the failure,
    with the collection replaced all the same. *)
Theorem importMemories_array text s imported :
  JSON_parse text = Some (JArray imported) →
  let s' := final (importMemories text) s in
  let shown := (importMemories text s).2 in
  memories s' = imported ∧
  (localStorage_accepts (JSON_stringify 0 imported) = true →
   lifeAtlasMemories s' = Some (JSON_stringify 0 imported)) ∧
  (Toast (Imported (length imported)) success ∈ shown ↔ Forall renderable imported) ∧
  (Toast (Text "Failed to import memories. Please check the file format.") error ∈ shown ↔
   ¬ Forall renderable imported).
Proof.
  intros Hparse s' shown.
  split; [by apply importMemories_replaces|].
  unfold s', shown, final. rewrite (importMemories_array_run text s imported Hparse).
  cbn [fst snd].
  rewrite <- (forEach_addPinToMap_normal_iff imported (written imported s)).
  split.
  { intros Hroom. rewrite Hroom.
    by rewrite (keeps_forEach lifeAtlasMemories addPinToMap imported addPinToMap_keeps_storage). }
  match goal with
  | |- context [?w0 ++ match _ with _ => _ end] =>
      assert (w0 = [] ∨
              w0 = [ConsoleError;
                    Toast (Text "Failed to save memory. Storage may be full.") error])
        as Hw0 by (destruct (localStorage_accepts _); auto);
      destruct (import_reports (length imported) w0 Hw0) as (Hs1 & Hf1 & Hs2 & Hf2);
      clear Hw0
  end.
  destruct (forEach addPinToMap imported _).1.1 as [[]|e].
  - split; [done|]. split; [done|]. intros Hno. by destruct Hno.
  - split; [done|]. split; [done|]. by intros _.
Qed.

(** X8. An import redraws the map.  When the file is an array of records
    that can all be rendered, and the markers of the cache are older than
    the next one to be made, then after the import the keys of the cache are
    the ids of the file, every record of the file is visible, and no marker
    the cache held before is left on the map. *)
Theorem importMemories_redraws text s imported :
  JSON_parse text = Some (JArray imported) → Forall renderable imported →
  fresh_handles s →
  let s' := final (importMemories text) s in
  (∀ k, k ∈ keys (pins s') ↔ k ∈ ids imported) ∧
  (∀ m, m ∈ imported → visible s' m) ∧
  (∀ mk, mk ∈ (pins s).*2 → mk ∉ mapLayers s').
Proof.
  intros Hparse Hall Hfresh s'.
  assert (s' = final (forEach addPinToMap imported) (written imported s)) as ->.
  { unfold s', final at 1. by rewrite (importMemories_array_run text s imported Hparse). }
  destruct (forEach_addPinToMap_renderable imported (written imported s) Hall)
    as (_ & _ & _ & Hkeys & _).
  destruct (forEach_addPinToMap_layers imported (written imported s) Hall)
    as (_ & _ & Hout & Hmap & _).
  cbv zeta in Hkeys, Hout, Hmap.
  assert (∀ k, k ∈ keys (pins (final (forEach addPinToMap imported) (written imported s))) ↔
               k ∈ ids imported) as Hk.
  { intros k. rewrite Hkeys. split; [intros [Hin|Hin]; [by apply elem_of_nil in Hin|done]|auto]. }
  split; [done|]. split.
  - intros m Hm. rewrite Forall_forall in Hall. destruct (Hall m Hm) as ([k Hid] & _).
    apply (on_map_visible _ m k); [apply Hmap; by apply Forall_nil|done|].
    apply Hk. by eapply elem_of_ids.
  - intros mk Hold Hin. apply Hout in Hin as [Hin|Hge].
    + cbn [mapLayers set_lifeAtlasMemories set_memories set_pins set_mapLayers] in Hin.
      apply elem_of_cleared in Hin as [_ Hnot]. done.
    + cbn [nextHandle set_lifeAtlasMemories set_memories set_pins set_mapLayers] in Hge.
      apply list_elem_of_fmap in Hold as ([k0 mk0] & -> & Hold).
      unfold fresh_handles in Hfresh. rewrite Forall_forall in Hfresh.
      specialize (Hfresh _ Hold). simpl in *. lia.
Qed.

(** ** Markers the cache does not hold *)

Lemma orphan_keeps {A} (c : M A) s mk :
  keeps (λ s, (mapLayers s, pins s, nextHandle s)) c → orphan s mk → orphan (final c s) mk.
Proof.
  slim. unfold orphan. intros Hk. specialize (Hk s). simpl in Hk.
  injection Hk as -> -> ->. done.
Qed.

(** Whatever the record, [addPinToMap] takes nothing off the map, and the
    one marker it may file in the cache is the one it has just made. *)
Lemma addPinToMap_shape m s :
  let s' := final (addPinToMap m) s in
  nextHandle s ≤ nextHandle s' ∧
  (∀ y, y ∈ mapLayers s → y ∈ mapLayers s') ∧
  (∀ y, y ∈ (pins s').*2 → handle y = nextHandle s ∨ y ∈ (pins s).*2).
Proof.
  assert (∀ k (mk' : @marker number) y,
            handle mk' = nextHandle s → y ∈ (Map_set k mk' (pins s)).*2 →
            handle y = nextHandle s ∨ y ∈ (pins s).*2) as Hset.
  { intros k mk' y Hmk' [->|?]%elem_of_values_Map_set; auto. }
  run_addPinToMap.
  destruct m as [[]|props]; simpl; try (split; [lia|split; auto]).
  all: destruct (Leaflet_accepts _ _); simpl; try (split; [lia|split; auto]).
  all: case_bool_decide; simpl; try (split; [lia|split; auto]).
  all: try (intros y Hy; apply elem_of_app; by left).
  all: destruct (own "description" props); simpl; split; try lia; split; auto.
  all: try (intros y Hy; apply elem_of_app; by left).
  all: intros y Hy; eapply Hset; [|exact Hy]; done.
Qed.

Lemma orphan_addPinToMap m s mk : orphan s mk → orphan (final (addPinToMap m) s) mk.
Proof.
  intros (Hon & Hnot & Hold).
  destruct (addPinToMap_shape m s) as (Hnext & Hin & Hpins).
  split; [by apply Hin|]. split; [|lia].
  intros [Hnew|Hcached]%Hpins; [lia|done].
Qed.

Lemma orphan_forEach_addPinToMap (xs : list (@element number)) s mk :
  orphan s mk → orphan (final (forEach addPinToMap xs) s) mk.
Proof.
  revert s. induction xs as [|m xs IH]; intros s Hs; simpl; [done|].
  apply (final_bind_ind (λ s', orphan s' mk)); [by apply orphan_addPinToMap|].
  intros _. apply IH.
Qed.

Lemma orphan_toggle (show : bool) mk0 s mk :
  mk0 ≠ mk → orphan s mk → orphan (final (if show then addTo mk0 else removeLayer mk0) s) mk.
Proof.
  slim. intros Hne (Hon & Hnot & Hold). unfold final. rewrite toggle_run.
  split; [|done]. apply elem_of_toggled. right. done.
Qed.

Lemma cached_is_no_orphan k mk0 s mk :
  Map_get k (pins s) = Some mk0 → orphan s mk → mk0 ≠ mk.
Proof.
  slim. intros Hget (_ & Hnot & _) ->. apply Hnot.
  apply list_elem_of_fmap. exists (k, mk). split; [done|]. by apply Map_get_Some_elem.
Qed.

Lemma orphan_and_then_persist memory s mk :
  orphan s mk → orphan (final (and_then_persist memory) s) mk.
Proof.
  intros Hs.
  apply (final_bind_ind (λ s', orphan s' mk)).
  { apply orphan_keeps; [|done]. unfold saveToStorage, showToast. frame_any. }
  intros _ Hs1. apply (final_bind_ind (λ s', orphan s' mk)); [by apply orphan_addPinToMap|].
  intros _ Hs2. apply orphan_keeps; [|done]. unfold closeModal, resetForm, showToast. frame_any.
Qed.

Lemma orphan_saveMemory (f : form) clk s mk :
  orphan s mk → orphan (final (saveMemory f clk) s) mk.
Proof.
  intros Hs. destruct (blank_or_present f) as [Hb|Hp].
  { unfold final. by rewrite saveMemory_refuses. }
  destruct (editingMemory s) eqn:He; [|destruct (currentPin s) as [pin|] eqn:Hpin].
  - unfold saveMemory. rewrite validation_passes by done.
    rewrite final_this_bind, He.
    destruct (currentPin s) as [pin|]; [|by rewrite final_throw_bind].
    rewrite final_ret_bind, final_bind_assoc, final_lift_bind.
    destruct (find _ _) as [found|] eqn:Hfind; [|done].
    rewrite final_lift_bind.
    destruct found as [m|]; simpl; [|done].
    apply find_Some in Hfind as [i Hsearch].
    destruct (prop m "createdAt") as [createdAt|]; [|done].
    set (memory := new_memory _ _ _ _ _ _ _).
    assert (findIndex (currentMemoryId s) (memories s) = Normal (Some i)) as Hi
      by (apply findIndex_Some; eauto).
    rewrite !final_bind_assoc, final_lift_bind, Hi.
    rewrite !final_bind_assoc, final_assign_bind.
    destruct (Map_get _ _) as [mk0|] eqn:Hget.
    + rewrite final_bind, removeLayer_run. cbn [fst snd]. unfold final at 2.
      rewrite removeLayer_run. cbn [fst snd].
      apply orphan_and_then_persist.
      destruct Hs as (Hon & Hnot & Hold). split; [|done].
      cbn [mapLayers set_mapLayers]. apply list_elem_of_filter. split; [|done].
      intros ->. apply Hnot. apply list_elem_of_fmap. exists (currentMemoryId s, mk0).
      split; [done|]. by apply Map_get_Some_elem.
    + rewrite final_throw_bind. by destruct Hs.
  - unfold final. rewrite (saveMemory_create_run f clk s pin) by done.
    apply orphan_and_then_persist. by destruct Hs.
  - unfold saveMemory. rewrite validation_passes by done.
    rewrite final_this_bind, He, Hpin. by rewrite final_throw_bind.
Qed.

Lemma orphan_deleteMemory confirmed s mk :
  orphan s mk → orphan (final (deleteMemory confirmed) s) mk.
Proof.
  intros Hs. destruct confirmed; [|done].
  unfold deleteMemory. rewrite final_this_bind, final_lift_bind.
  destruct (findIndex _ _) as [[i|]|] eqn:Hi; [|done|done].
  destruct (Map_get _ _) as [mk0|] eqn:Hget; [|by rewrite final_throw_bind].
  pose proof (cached_is_no_orphan _ mk0 s mk Hget Hs) as Hne.
  rewrite final_bind, removeLayer_run. cbn [fst snd]. unfold final at 2.
  rewrite removeLayer_run. cbn [fst snd].
  rewrite !final_assign_bind.
  apply orphan_keeps.
  { unfold saveToStorage, closeDetailModal, showToast. frame_any. }
  destruct Hs as (Hon & Hnot & Hold). split; [|split; [|done]].
  - cbn [mapLayers set_memories set_pins set_mapLayers].
    apply list_elem_of_filter. split; [by apply not_eq_sym|done].
  - cbn [pins set_memories set_pins set_mapLayers]. intros Hin. apply Hnot.
    eapply elem_of_sublist; [done|]. apply fmap_sublist, Map_delete_sublist.
Qed.

Lemma orphan_importMemories text s mk :
  orphan s mk → orphan (final (importMemories text) s) mk.
Proof.
  intros Hs. destruct (JSON_parse text) as [[imported|v]|] eqn:Hparse.
  - unfold final at 1. rewrite (importMemories_array_run text s imported Hparse).
    cbn [fst snd]. apply orphan_forEach_addPinToMap.
    destruct Hs as (Hon & Hnot & Hold). split; [|split; [|done]].
    + cbn [mapLayers set_lifeAtlasMemories set_memories set_pins set_mapLayers].
      by apply elem_of_cleared.
    + cbn [pins set_lifeAtlasMemories set_memories set_pins]. apply not_elem_of_nil.
  - unfold final. rewrite importMemories_rejects; [done|congruence].
  - unfold final. rewrite importMemories_rejects; [done|congruence].
Qed.

Lemma orphan_applyFilters_loop flt (entries : list (@jsval number * @marker number)) n s mk :
  mk ∉ entries.*2 → orphan s mk → orphan (final (applyFilters_loop flt entries n) s) mk.
Proof.
  revert n s. induction entries as [|[k mk0] entries IH]; intros n s Hnot Hs; [done|].
  rewrite fmap_cons, not_elem_of_cons in Hnot. destruct Hnot as [Hne Hnot]. cbn [snd] in Hne.
  cbn [applyFilters_loop]. rewrite final_bind.
  destruct (show_pin_run flt k s) as [r Hrun].
  assert (final (show_pin flt k) s = s) as -> by (unfold final; by rewrite Hrun).
  rewrite Hrun. cbn [fst snd].
  destruct r as [show|e]; [|done].
  destruct show.
  - apply (final_bind_ind (λ s', orphan s' mk)).
    + apply (orphan_toggle true); [by apply not_eq_sym|done].
    + intros _ Hs1. by apply IH.
  - apply (final_bind_ind (λ s', orphan s' mk)).
    + apply (orphan_toggle false); [by apply not_eq_sym|done].
    + intros _ Hs1. by apply IH.
Qed.

Lemma orphan_applyFilters flt s mk : orphan s mk → orphan (final (applyFilters flt) s) mk.
Proof.
  intros Hs. unfold applyFilters. rewrite final_this_bind.
  apply (final_bind_ind (λ s', orphan s' mk)).
  - apply orphan_applyFilters_loop; [|done]. by destruct Hs as (_ & ? & _).
  - intros n Hs1. rewrite final_this_bind. by apply orphan_keeps; [unfold showToast; frame_any|].
Qed.

Lemma orphan_clearFilters s mk : orphan s mk → orphan (final clearFilters s) mk.
Proof.
  intros Hs. unfold clearFilters. rewrite final_this_bind.
  apply (final_bind_ind (λ s', orphan s' mk)).
  - generalize (pins s) as p. revert Hs. generalize s as s0.
    intros s0 Hs0 p. revert s0 Hs0.
    induction p as [|[k mk0] p IH]; intros s0 Hs0; [done|].
    cbn [forEach]. apply (final_bind_ind (λ s', orphan s' mk)); [|intros _; apply IH].
    destruct Hs0 as (Hon & Hnot & Hold). unfold final. rewrite (toggle_run true).
    split; [|done]. apply elem_of_toggled.
    destruct (decide (mk = mk0)) as [->|Hne]; [by left|by right].
  - intros _ Hs1. by apply orphan_keeps; [unfold showToast; frame_any|].
Qed.

Lemma orphan_after ev s mk : orphan s mk → orphan (after ev s) mk.
Proof.
  intros Hs.
  destruct ev as [| |f clk| | | | |confirmed|flt| | |text|]; unfold after; simpl.
  - apply (orphan_keeps addMemoryMode); [unfold addMemoryMode, showToast; frame_any|done].
  - destruct (addingMemory s) eqn:Hadding.
    + apply (orphan_keeps (s ← this; if addingMemory s then createMemoryAt lat lng else mret ()));
        [unfold createMemoryAt, showModal; frame_any|done].
    + apply (orphan_keeps (s ← this; if addingMemory s then createMemoryAt lat lng else mret ()));
        [unfold createMemoryAt, showModal; frame_any|done].
  - by apply orphan_saveMemory.
  - apply (orphan_keeps (showMemoryDetail memoryId)); [unfold showMemoryDetail; frame_any|done].
  - apply (orphan_keeps closeDetailModal); [unfold closeDetailModal; frame_any|done].
  - apply (orphan_keeps closeModal); [unfold closeModal, resetForm; frame_any|done].
  - apply (orphan_keeps editMemory);
      [unfold editMemory, closeDetailModal, showModal; frame_any|done].
  - by apply orphan_deleteMemory.
  - by apply orphan_applyFilters.
  - by apply orphan_clearFilters.
  - apply (orphan_keeps exportMemories); [unfold exportMemories, showToast; frame_any|done].
  - by apply orphan_importMemories.
  - apply (orphan_keeps saveToStorage); [unfold saveToStorage, showToast; frame_any|done].
Qed.

(** X9. A marker the cache does not hold stays on the map.  The program
    takes off the map only markers it finds in the cache, so a marker on the
    map that the cache does not hold (left by a rendering that threw after
    the marker was added, or pushed out of the cache by the marker of another
    record with the same id) is still on the map, and still unknown to the
    cache, after any sequence of events: no filter hides it, no delete and
    no import removes it. *)
Theorem orphan_stays evs s mk :
  orphan s mk →
  orphan (run evs s) mk ∧ mk ∈ mapLayers (run evs s) ∧ (mk ∉ (pins (run evs s)).*2).
Proof.
  intros Hs.
  enough (orphan (run evs s) mk) as Hend by (by destruct Hend as (? & ? & ?)).
  revert s Hs. induction evs as [|ev evs IH]; intros s Hs; simpl; [done|].
  apply IH. by apply orphan_after.
Qed.

(** ** Clearing the filters *)

Local Abbreviation shown_all p layers :=
  (foldl (λ acc (entry : @jsval number * @marker number), toggled true entry.2 acc) layers p).

Lemma elem_of_shown_all p (layers : list (@marker number)) mk :
  mk ∈ shown_all p layers ↔ mk ∈ layers ∨ mk ∈ p.*2.
Proof.
  slim. revert layers. induction p as [|[k0 mk0] p IH]; intros layers; cbn [foldl].
  { rewrite fmap_nil, elem_of_nil. tauto. }
  rewrite IH, elem_of_toggled, fmap_cons, elem_of_cons. cbn [snd].
  destruct (decide (mk = mk0)); tauto.
Qed.

Lemma forEach_addTo_run p s :
  forEach (λ entry, addTo entry.2) p s =
  (Normal (), set_mapLayers (shown_all p (mapLayers s)) s, []).
Proof.
  revert s. induction p as [|[k mk] p IH]; intros s; cbn [forEach foldl].
  { unfold mret, M_ret. by rewrite set_mapLayers_same. }
  erewrite bind_quiet by apply (toggle_run true). by rewrite IH.
Qed.

Lemma clearFilters_run s :
  clearFilters s =
  (Normal (), set_mapLayers (shown_all (pins s) (mapLayers s)) s,
   [Toast (Text "All filters cleared") success]).
Proof.
  unfold clearFilters. rewrite this_bind.
  by erewrite bind_quiet by apply forEach_addTo_run.
Qed.

(** X10. Clearing the filters shows every pin.  [clearFilters] never
    throws and touches nothing but the layers of the map: afterwards the
    markers on the map are those that were there and those of the cache, so
    every record whose id is a key of the cache is visible, whatever filter
    was applied before. *)
Theorem clearFilters_shows_all s :
  let s' := final clearFilters s in
  clearFilters s = (Normal (), s', [Toast (Text "All filters cleared") success]) ∧
  memories s' = memories s ∧ pins s' = pins s ∧
  lifeAtlasMemories s' = lifeAtlasMemories s ∧
  (∀ mk, mk ∈ mapLayers s' ↔ mk ∈ mapLayers s ∨ mk ∈ (pins s).*2) ∧
  (∀ m k, id_of m = Some k → k ∈ keys (pins s) → visible s' m) ∧
  (∀ flt m k, id_of m = Some k → k ∈ keys (pins s) →
     visible (after ClearFilters (after (ApplyFilters flt) s)) m).
Proof.
  assert (∀ s0 m k, id_of m = Some k → k ∈ keys (pins s0) →
                    visible (final clearFilters s0) m) as Hvisible.
  { intros s0 m k Hid Hk. apply (on_map_visible _ m k); [|done|].
    - unfold final. rewrite clearFilters_run. unfold on_map. simpl.
      apply Forall_forall. intros [k0 mk0] Hin. simpl.
      apply elem_of_shown_all. right. apply list_elem_of_fmap. by exists (k0, mk0).
    - unfold final. by rewrite clearFilters_run. }
  intros s'. unfold s', final. rewrite clearFilters_run. cbn [fst snd].
  split; [done|]. split; [done|]. split; [done|]. split; [done|].
  split; [intros mk; apply elem_of_shown_all|].
  split.
  - intros m k Hid Hk. specialize (Hvisible s m k Hid Hk).
    unfold final in Hvisible. by rewrite clearFilters_run in Hvisible.
  - intros flt m k Hid Hk. apply (Hvisible _ m k Hid).
    by rewrite (other_events_keep pins (ApplyFilters flt) s stable_pins).
Qed.

(** ** Picking a place and creating *)

Lemma addMemoryMode_run s :
  addMemoryMode s =
  if addingMemory s then (Normal (), set_addingMemory false s, [])
  else (Normal (), set_addingMemory true s,
        [Toast (Text "Click anywhere on the map to place a memory pin! 📍") success]).
Proof.
  unfold addMemoryMode, mbind, M_bind, this, assign. simpl. by destruct (addingMemory s).
Qed.

Lemma map_click_run lat lng s :
  handler (MapClick lat lng) s =
  if addingMemory s
  then (Normal (), set_addingMemory false (set_currentPin (Some (Num lat, Num lng)) s),
        [Display memoryModal true])
  else (Normal (), s, []).
Proof. cbn [handler]. rewrite this_bind. by destruct (addingMemory s). Qed.

Lemma createMemoryAt_run lat lng s :
  createMemoryAt lat lng s =
  (Normal (), set_addingMemory false (set_currentPin (Some (Num lat, Num lng)) s),
   [Display memoryModal true]).
Proof. done. Qed.

(** X11. From the pin button to the record.  Outside any mode, pressing
    the pin button, clicking the map and submitting the form with its
    required fields appends a record at the clicked coordinates, with its
    marker on the map, and leaves no mode on.  A second click on the map
    before the submit is ignored: the first click has left adding mode. *)
Theorem create_flow (f : form) clk s lat lng :
  addingMemory s = false → editingMemory s = false → required_present f →
  Leaflet_accepts (Num lat) (Num lng) = true →
  let s' := run [AddMemoryMode; MapClick lat lng; Submit f clk] s in
  memories s' = memories s ++ [created f clk (Num lat, Num lng)] ∧
  (∃ mk, Map_get (Num (Date_now clk)) (pins s') = Some mk ∧
         latlng mk = (Num lat, Num lng) ∧ mk ∈ mapLayers s') ∧
  addingMemory s' = false ∧ editingMemory s' = false ∧ currentPin s' = None ∧
  (∀ lat2 lng2,
     run [AddMemoryMode; MapClick lat lng; MapClick lat2 lng2; Submit f clk] s = s').
Proof.
  intros Hadding He Hf Hok s'.
  set (s2 := set_addingMemory false (set_currentPin (Some (Num lat, Num lng)) s)).
  assert (run [AddMemoryMode; MapClick lat lng] s = s2) as Hpicked.
  { change (run [AddMemoryMode; MapClick lat lng] s)
      with ((handler (MapClick lat lng) (addMemoryMode s).1.2).1.2).
    rewrite addMemoryMode_run, Hadding. cbn [fst snd].
    rewrite map_click_run. cbn [addingMemory set_addingMemory fst snd].
    unfold s2. by destruct s. }
  assert (∀ lat2 lng2, after (MapClick lat2 lng2) s2 = s2) as Hagain.
  { intros lat2 lng2. unfold after. by rewrite map_click_run. }
  assert (s' = after (Submit f clk) s2) as Hs'.
  { unfold s'. change [AddMemoryMode; MapClick lat lng; Submit f clk]
      with ([AddMemoryMode; MapClick lat lng] ++ [Submit f clk]).
    unfold run in *. by rewrite foldl_app, Hpicked. }
  pose proof (saveMemory_create_full f clk s2 (Num lat, Num lng) Hf He eq_refl Hok) as Hrun.
  cbv zeta in Hrun.
  assert (after (Submit f clk) s2 = (saveMemory f clk s2).1.2) as Hafter by done.
  rewrite Hs', Hafter, Hrun. cbn [fst snd].
  split; [done|]. split.
  { eexists. split; [apply Map_get_Map_set|]. split; [done|].
    cbn [mapLayers set_currentMemoryId set_editingMemory set_currentPin set_pins set_mapLayers].
    apply elem_of_toggled. by left. }
  split; [done|]. split; [done|]. split; [done|].
  intros lat2 lng2.
  change [AddMemoryMode; MapClick lat lng; MapClick lat2 lng2; Submit f clk]
    with ([AddMemoryMode; MapClick lat lng] ++ [MapClick lat2 lng2; Submit f clk]).
  unfold run in *. rewrite foldl_app, Hpicked. cbn [foldl].
  by rewrite Hagain, Hafter, Hrun.
Qed.

(** ** Deleting *)

Lemma deleteMemory_found_run s i mk :
  findIndex (currentMemoryId s) (memories s) = Normal (Some i) →
  Map_get (currentMemoryId s) (pins s) = Some mk →
  deleteMemory true s =
  (saveToStorage;; closeDetailModal;;
   showToast (Text "Memory deleted successfully.") success)
    (set_memories (delete i (memories s))
       (set_pins (Map_delete (currentMemoryId s) (pins s))
          (set_mapLayers (filter (λ y, y ≠ mk) (mapLayers s)) s))).
Proof.
  intros Hi Hget. unfold deleteMemory. rewrite this_bind.
  erewrite bind_quiet by (unfold lift; by rewrite Hi). cbn beta iota. rewrite Hget.
  erewrite bind_quiet by apply removeLayer_run.
  erewrite bind_quiet by done. by erewrite bind_quiet by done.
Qed.

Lemma deleteMemory_found_full s i mk :
  findIndex (currentMemoryId s) (memories s) = Normal (Some i) →
  Map_get (currentMemoryId s) (pins s) = Some mk →
  let text := JSON_stringify 0 (delete i (memories s)) in
  let stored := if localStorage_accepts text then Some text else lifeAtlasMemories s in
  deleteMemory true s =
  (Normal (),
   set_currentMemoryId Null
     (set_lifeAtlasMemories stored
        (set_memories (delete i (memories s))
           (set_pins (Map_delete (currentMemoryId s) (pins s))
              (set_mapLayers (filter (λ y, y ≠ mk) (mapLayers s)) s)))),
   (if localStorage_accepts text then []
    else [ConsoleError; Toast (Text "Failed to save memory. Storage may be full.") error]) ++
   [Display detailModal false; Toast (Text "Memory deleted successfully.") success]).
Proof.
  intros Hi Hget text stored. rewrite (deleteMemory_found_run s i mk Hi Hget).
  unfold stored. destruct (localStorage_accepts text) eqn:Hroom.
  - by erewrite bind_quiet by (by apply saveToStorage_accepted).
  - erewrite bind_normal by (by apply saveToStorage_refused). by destruct s.
Qed.

Lemma deleteMemory_miss s :
  findIndex (currentMemoryId s) (memories s) = Normal None →
  deleteMemory true s = (Normal (), s, []).
Proof.
  intros Hi. unfold deleteMemory. rewrite this_bind.
  by erewrite bind_quiet by (unfold lift; by rewrite Hi).
Qed.

Lemma editMemory_miss s :
  find (currentMemoryId s) (memories s) = Normal None →
  editMemory s = (Normal (), s, []).
Proof.
  intros Hfind. unfold editMemory. rewrite this_bind.
  by erewrite bind_quiet by (unfold lift; by rewrite Hfind).
Qed.

Lemma find_None_delete x l i : find x l = Normal None → findIndex x (delete i l) = Normal None.
Proof.
  slim. rewrite find_None, findIndex_None, !search_None. apply Forall_delete.
Qed.

(** X12. With no id on display nothing is deleted or edited, and a delete
    is done once.  In a collection where no record has the id [null] (and no
    entry is [null]): while no record is on display ([currentMemoryId] is
    [null]), confirming a delete or asking for an edit changes nothing and
    shows nothing; and since a delete that succeeds resets the id on
    display, confirming a delete a second time changes nothing more. *)
Theorem delete_once s :
  find Null (memories s) = Normal None →
  (currentMemoryId s = Null →
   handler (DeleteMemory true) s = (Normal (), s, []) ∧
   handler EditMemory s = (Normal (), s, [])) ∧
  after (DeleteMemory true) (after (DeleteMemory true) s) = after (DeleteMemory true) s.
Proof.
  intros Hnull. split.
  { intros Hcur. cbn [handler]. split.
    - apply deleteMemory_miss. rewrite Hcur. by apply findIndex_None, find_None.
    - apply editMemory_miss. by rewrite Hcur. }
  unfold after. cbn [handler].
  destruct (findIndex (currentMemoryId s) (memories s)) as [[i|]|e] eqn:Hi.
  - destruct (Map_get (currentMemoryId s) (pins s)) as [mk|] eqn:Hget.
    + rewrite (deleteMemory_found_full s i mk Hi Hget). cbn [fst snd].
      rewrite deleteMemory_miss; [done|].
      cbn [currentMemoryId memories set_currentMemoryId set_lifeAtlasMemories set_memories].
      by apply find_None_delete.
    + assert (deleteMemory true s = (Throw TypeError, s, [])) as Hthrow.
      { unfold deleteMemory. rewrite this_bind.
        erewrite bind_quiet by (unfold lift; by rewrite Hi). cbn beta iota.
        by rewrite Hget. }
      rewrite Hthrow. cbn [fst snd]. by rewrite Hthrow.
  - rewrite (deleteMemory_miss s Hi). cbn [fst snd]. by rewrite (deleteMemory_miss s Hi).
  - assert (deleteMemory true s = (Throw e, s, [])) as Hthrow.
    { unfold deleteMemory. rewrite this_bind. unfold mbind, M_bind, lift. by rewrite Hi. }
    rewrite Hthrow. cbn [fst snd]. by rewrite Hthrow.
Qed.



(** ** The popup of a marker *)

Lemma String_length_app (a b : string) :
  String_length (a +:+ b) = String_length a + String_length b.
Proof.
  slim. induction a as [|c a IH]; [done|].
  change (code_units c + String_length (a +:+ b) =
          code_units c + String_length a + String_length b).
  rewrite IH. lia.
Qed.

Lemma string_app_nil (a : string) : a +:+ EmptyString = a.
Proof.
  slim. induction a as [|c a IH]; [done|].
  change (String c (a +:+ EmptyString) = String c a). by rewrite IH.
Qed.

Lemma continues_byte (n : N) : (n < 64)%N → continues (ascii_of_N (128 + n)) = true.
Proof.
  intros Hn. unfold continues. rewrite N_ascii_embedding by lia.
  apply andb_true_iff. split; [apply N.leb_le|apply N.ltb_lt]; lia.
Qed.

(** A surrogate on its own is one code unit. *)
Lemma String_length_three_bytes (u : N) :
  (53248 ≤ u < 57344)%N → String_length (three_bytes u) = 1.
Proof.
  intros Hu. assert (u / 4096 = 13)%N as Hlead.
  { symmetry. apply (N.div_unique u 4096 13 (u - 53248)); lia. }
  unfold three_bytes, String_length, code_units. rewrite Hlead.
  rewrite !continues_byte by (apply N.mod_lt; lia). done.
Qed.

Lemma high_surrogate_range (c0 c1 c2 c3 : ascii) :
  (53248 ≤ (surrogates c0 c1 c2 c3).1 < 57344)%N.
Proof.
  unfold surrogates. cbn [fst].
  match goal with
  | |- context [(?x `mod` 1024)%N] =>
      assert (x `mod` 1024 < 1024)%N as Hlow by (by apply N.mod_lt);
      revert Hlow; generalize (x `mod` 1024)%N
  end.
  intros low Hlow. lia.
Qed.

Lemma code_units_lead (c : ascii) : continues c = false → 1 ≤ code_units c.
Proof. intros Hc. unfold code_units. rewrite Hc. by destruct (starts_four c); lia. Qed.

(** [substring(0, n)] has [n] code units, or all there are. *)
Lemma String_length_prefix n (t : string) :
  String_length (String_prefix n t) = n `min` String_length t.
Proof.
  slim. revert n. induction t as [|c t IH]; intros n; [by destruct n|].
  cbn [String_prefix String_length]. unfold code_units.
  destruct (continues c) eqn:Hc.
  { cbn [String_length]. unfold code_units. rewrite Hc. by rewrite IH. }
  destruct n as [|n]; [done|].
  destruct (starts_four c) eqn:Hfour.
  - destruct n as [|n].
    + rewrite String_length_three_bytes by apply high_surrogate_range. lia.
    + cbn [String_length]. unfold code_units. rewrite Hc, Hfour, IH. lia.
  - cbn [String_length]. unfold code_units. rewrite Hc, Hfour, IH. lia.
Qed.

Lemma String_prefix_all n (t : string) : String_length t ≤ n → String_prefix n t = t.
Proof.
  slim. revert n. induction t as [|c t IH]; intros n; [done|].
  cbn [String_prefix String_length]. unfold code_units.
  destruct (continues c) eqn:Hc.
  { intros Hn. f_equal. apply IH. lia. }
  destruct (starts_four c) eqn:Hfour.
  - destruct n as [|[|n]]; intros Hn; [lia|lia|]. f_equal. apply IH. lia.
  - destruct n as [|n]; intros Hn; [lia|]. f_equal. apply IH. lia.
Qed.

(** The prefix of a string followed by a character that starts anew. *)
Lemma String_prefix_app (a b : string) :
  String_prefix 0 b = EmptyString → String_prefix (String_length a) (a +:+ b) = a.
Proof.
  slim. intros Hb. induction a as [|c a IH]; [done|].
  change (String c a +:+ b) with (String c (a +:+ b)).
  cbn [String_prefix String_length]. unfold code_units.
  destruct (continues c) eqn:Hc; [cbn [Nat.add]; by rewrite IH|].
  destruct (starts_four c) eqn:Hfour; cbn [Nat.add]; by rewrite IH.
Qed.

(** X14. The excerpt of a popup, in UTF-16 code units as [length] and
    [substring] count them.  For a record whose description is a string,
    [createPopupContent] computes an excerpt that begins as the description
    does and is never longer than 103: the description itself when its
    length is at most 100, and otherwise its first 100 code units followed
    by three dots.  For a description that is no string it throws a
    [TypeError]. *)
Theorem popup_excerpt m s :
  (∀ d, prop m "description" = Normal (Str d) →
     ∃ excerpt,
       createPopupContent m s = (Normal excerpt, s, []) ∧
       String_length excerpt ≤ 103 ∧
       String_prefix 100 excerpt = String_prefix 100 d ∧
       (String_length d ≤ 100 → excerpt = d) ∧
       (100 < String_length d →
        excerpt = String_prefix 100 d +:+ "..." ∧ String_length excerpt = 103)) ∧
  (∀ v, prop m "description" = Normal v → (∀ d, v ≠ Str d) →
     createPopupContent m s = (Throw TypeError, s, [])).
Proof.
  slim. split.
  - intros d Hd. eexists. split.
    { unfold createPopupContent. by erewrite bind_quiet by (unfold lift; by rewrite Hd). }
    pose proof (String_length_prefix 100 d) as Hlen.
    case_bool_decide as Hlong.
    + assert (String_length (String_prefix 100 d) = 100) as H100 by lia.
      assert (String_length "..." = 3) as Hdots by done.
      split; [rewrite String_length_app, H100, Hdots; lia|].
      split; [rewrite <- H100 at 1; by rewrite String_prefix_app|].
      split; [lia|]. intros _. split; [done|].
      rewrite String_length_app, H100, Hdots. lia.
    + assert (String_prefix 100 d = d) as Hall by (apply String_prefix_all; lia).
      rewrite Hall, string_app_nil.
      split; [lia|]. split; [done|]. split; [done|]. lia.
  - intros v Hv Hno. unfold createPopupContent.
    erewrite bind_quiet by (unfold lift; by rewrite Hv).
    destruct v as [| | | |d|]; try done. by destruct (Hno d).
Qed.

(** ** The keyboard *)

Lemma closeDetailModal_run s :
  closeDetailModal s = (Normal (), set_currentMemoryId Null s, [Display detailModal false]).
Proof. done. Qed.

Lemma closeModal_run s :
  closeModal s =
  (Normal (),
   set_currentMemoryId Null (set_editingMemory false (set_currentPin None s)),
   [Display memoryModal false; FormReset]).
Proof. done. Qed.

Lemma keydown_escape_run (memoryModal_shown detailModal_shown : bool) s :
  keydown "Escape" memoryModal_shown detailModal_shown s =
  (Normal (),
   (if addingMemory s then set_addingMemory false else id)
     ((if detailModal_shown then set_currentMemoryId Null else id)
        ((if memoryModal_shown
          then λ s0, set_currentMemoryId Null (set_editingMemory false (set_currentPin None s0))
          else id) s)),
   (if memoryModal_shown then [Display memoryModal false; FormReset] else []) ++
   (if detailModal_shown then [Display detailModal false] else [])).
Proof.
  slim. unfold keydown. rewrite bool_decide_eq_true_2 by done.
  destruct memoryModal_shown, detailModal_shown, (addingMemory s) eqn:Hadding;
    unfold closeModal, closeDetailModal, addMemoryMode, resetForm, showToast,
      mbind, M_bind, this, assign, emit, mret, M_ret;
    simpl; rewrite ?Hadding; simpl; rewrite ?Hadding; done.
Qed.

(** X15. The Escape key.  Any other key does nothing.  Escape never
    throws, leaves the collection, the cache, the map and the storage as they
    are, and leaves adding mode off without announcing anything: no toast is
    shown.  It closes the modals that are open: with the form open, the
    picked location, the edit flag and the id on display are reset; with the
    detail view open, the id on display is reset. *)
Theorem escape_key key memoryModal_shown detailModal_shown s :
  let pressed := keydown key memoryModal_shown detailModal_shown in
  let s' := final pressed s in
  (key ≠ "Escape" → pressed s = (Normal (), s, [])) ∧
  (pressed s).1.1 = Normal () ∧
  (∀ msg type, Toast msg type ∉ (pressed s).2) ∧
  memories s' = memories s ∧ pins s' = pins s ∧ mapLayers s' = mapLayers s ∧
  lifeAtlasMemories s' = lifeAtlasMemories s ∧
  (key = "Escape" →
   addingMemory s' = false ∧
   (memoryModal_shown = true →
    currentPin s' = None ∧ editingMemory s' = false ∧ currentMemoryId s' = Null ∧
    Display memoryModal false ∈ (pressed s).2) ∧
   (detailModal_shown = true →
    currentMemoryId s' = Null ∧ Display detailModal false ∈ (pressed s).2)).
Proof.
  slim. intros pressed s'. unfold s', pressed, final.
  destruct (decide (key = "Escape")) as [->|Hkey].
  - rewrite keydown_escape_run. cbn [fst snd].
    split; [done|]. split; [done|]. split.
    { intros msg type.
      destruct memoryModal_shown, detailModal_shown; cbn [app];
        rewrite ?not_elem_of_cons; repeat split; try discriminate; apply not_elem_of_nil. }
    split; [by destruct (addingMemory s), detailModal_shown, memoryModal_shown|].
    split; [by destruct (addingMemory s), detailModal_shown, memoryModal_shown|].
    split; [by destruct (addingMemory s), detailModal_shown, memoryModal_shown|].
    split; [by destruct (addingMemory s), detailModal_shown, memoryModal_shown|].
    intros _. split; [|split].
    + by destruct (addingMemory s) eqn:Hadding, detailModal_shown, memoryModal_shown.
    + intros ->. destruct (addingMemory s), detailModal_shown; repeat split; try done;
        apply elem_of_app; left; left.
    + intros ->. destruct (addingMemory s), memoryModal_shown; repeat split; try done;
        apply elem_of_app; right; left.
  - unfold keydown. rewrite bool_decide_eq_false_2 by done.
    split; [done|]. split; [done|]. split; [intros msg type; apply not_elem_of_nil|].
    repeat split; done.
Qed.

(** ** A random memory *)

Variable Number_toString : number → string.
Variable Object_toString : nat → string.
Variable setView_accepts : @jsval number → @jsval number → bool.

Local Abbreviation ToString := (ToString Number_toString Object_toString).
Local Abbreviation randomMemory :=
  (randomMemory Number_toString Object_toString setView_accepts).

Lemma randomMemory_keeps_all index : keeps (λ s, s) (randomMemory index).
Proof. unfold randomMemory, showToast. frame_any. Qed.

(** X16. Jumping to a random memory.  On an empty collection
    [randomMemory] only tells the user there is nothing to explore.
    Otherwise, for an index within the collection and a record whose
    coordinates the view takes, it centres the map on these coordinates at
    zoom 15, names the title of the record in a toast, and starts the timer
    for the popup of that very record, which is a member of the collection;
    it throws when the view does not take the coordinates, and when the
    collection has no such index.  In no case does it change the application
    object.  When the timer fires, the popup that opens is the one of the
    marker the cache holds under the id of the record, and the callback
    throws a [TypeError] when the cache holds none; it never does when the
    collection and the cache are in step. *)
Theorem randomMemory_jumps index s :
  (memories s = [] →
   randomMemory index s =
   (Normal None, s,
    [Toast (Text "No memories to explore yet! Start by adding your first memory.") info])) ∧
  (∀ m lat lng,
     memories s !! index = Some m →
     prop m "lat" = Normal lat → prop m "lng" = Normal lng →
     m ∈ memories s ∧
     if setView_accepts lat lng
     then ∃ title,
            prop m "title" = Normal title ∧
            randomMemory index s =
            (Normal (Some {| center := (lat, lng); zoom := 15; popup_of := m |}), s,
             [Toast (Text ("Jumped to: " +:+ ToString title +:+ " 🎲")) success])
     else randomMemory index s = (Throw LeafletError, s, [])) ∧
  (memories s ≠ [] → length (memories s) ≤ index →
   randomMemory index s = (Throw TypeError, s, [])) ∧
  final (randomMemory index) s = s ∧
  (∀ m k, id_of m = Some k →
     openPopup_later m s =
     match Map_get k (pins s) with
     | Some mk => (Normal mk, s, [])
     | None => (Throw TypeError, s, [])
     end) ∧
  (synchronized s → ∀ m, m ∈ memories s → ∃ mk, openPopup_later m s = (Normal mk, s, [])).
Proof.
  assert (∀ m k, id_of m = Some k →
            openPopup_later m s =
            match Map_get k (pins s) with
            | Some mk => (Normal mk, s, [])
            | None => (Throw TypeError, s, [])
            end) as Htimer.
  { intros m k Hk. apply id_of_Some in Hk. unfold openPopup_later. rewrite this_bind.
    erewrite bind_quiet by (unfold lift; by rewrite Hk).
    by destruct (Map_get k (pins s)). }
  split; [|split; [|split; [|split; [|split]]]].
  - intros Hempty. unfold randomMemory. rewrite this_bind, Hempty. done.
  - intros m lat lng Hm Hlat Hlng.
    split; [by eapply list_elem_of_lookup_2|].
    assert (is_Some (id_of m)) as Hid.
    { destruct m as [[]|props]; simpl in Hlat; try done; by eexists. }
    destruct (has_id_prop m "title" Hid) as [title Htitle].
    assert (memories s ≠ []) as Hne by (intros Heq; by rewrite Heq in Hm).
    unfold randomMemory. rewrite this_bind.
    rewrite bool_decide_eq_false_2 by (by destruct (memories s)).
    rewrite Hm.
    erewrite bind_quiet by (unfold lift; by rewrite Hlat).
    erewrite bind_quiet by (unfold lift; by rewrite Hlng).
    destruct (setView_accepts lat lng); [|done].
    exists title. split; [done|].
    erewrite bind_quiet by done.
    by erewrite bind_quiet by (unfold lift; by rewrite Htitle).
  - intros Hne Hout. unfold randomMemory. rewrite this_bind.
    rewrite bool_decide_eq_false_2 by (by destruct (memories s)).
    by rewrite (lookup_ge_None_2 _ _ Hout).
  - apply (randomMemory_keeps_all index).
  - done.
  - intros Hsync m Hm. destruct Hsync as [_ Hentries _ _ Hcached _].
    rewrite Forall_forall in Hentries. destruct (Hentries m Hm) as [k Hk].
    rewrite Forall_forall in Hcached.
    destruct (Map_get_is_Some k (pins s)) as [mk Hget];
      [apply Hcached; by eapply elem_of_ids|].
    exists mk. by rewrite (Htimer m k Hk), Hget.
Qed.

(** ** Statistics *)

Variable Object_prototype_has : string → bool.
Variable Date_toString : @jsval number → string.
Local Abbreviation count_mood :=
  (count_mood Number_toString Object_toString Object_prototype_has).
Local Abbreviation tally_memory :=
  (tally_memory Number_toString Object_toString Object_prototype_has).
Local Abbreviation tally_all :=
  (tally_all Number_toString Object_toString Object_prototype_has).
Local Abbreviation getStats :=
  (getStats Number_toString Object_toString Object_prototype_has Date_toString).
Local Abbreviation mood_key := (mood_key Number_toString Object_toString).
Local Abbreviation sort_insert := (sort_insert Date_toString).
Local Abbreviation Array_sort := (Array_sort Date_toString).
Local Abbreviation printed_le := (printed_le Date_toString).

(** A record counted under a key that every object inherits. *)
Local Abbreviation inherited m :=
  (∃ key, mood_key m = Some key ∧ Object_prototype_has key = true).

(** *** The order of strings *)

Lemma ascii_compare_trans (a b c : ascii) :
  Ascii.compare a b = Lt → Ascii.compare b c = Lt → Ascii.compare a c = Lt.
Proof. unfold Ascii.compare. rewrite !N.compare_lt_iff. lia. Qed.

Lemma string_compare_trans (a b c : string) :
  String.compare a b = Lt → String.compare b c = Lt → String.compare a c = Lt.
Proof.
  revert b c. induction a as [|x a IH]; intros [|y b] [|z c]; simpl; try done.
  destruct (Ascii.compare x y) eqn:Hxy; [|clear IH|done].
  - apply Ascii.compare_eq_iff in Hxy as ->.
    destruct (Ascii.compare y z); [apply IH|done|by intros _ [=]].
  - intros _. destruct (Ascii.compare y z) eqn:Hyz; [| |done].
    + apply Ascii.compare_eq_iff in Hyz as ->. by rewrite Hxy.
    + intros _. by rewrite (ascii_compare_trans x y z).
Qed.

Lemma ltb_false_trans (a b c : string) :
  String.ltb b a = false → String.ltb c b = false → String.ltb c a = false.
Proof.
  unfold String.ltb. intros Hab Hbc.
  destruct (String.compare c a) eqn:Hca; try done. exfalso.
  destruct (String.compare b a) eqn:Hba; try done.
  - apply String.compare_eq_iff in Hba as ->. by rewrite Hca in Hbc.
  - assert (String.compare a b = Lt) as Hlt
      by (by rewrite String.compare_antisym, Hba).
    by rewrite (string_compare_trans c a b) in Hbc.
Qed.

Lemma printed_le_trans (a b c : @jsval number) :
  printed_le a b → printed_le b c → printed_le a c.
Proof. unfold printed_le, String_lt. apply ltb_false_trans. Qed.

Lemma printed_le_refl (a : @jsval number) : printed_le a a.
Proof.
  unfold printed_le, String_lt, String.ltb.
  generalize (surrogates_apart (Date_toString a)). intros text.
  destruct (String.compare text text) eqn:Hc; try done.
  pose proof (String.compare_antisym text text) as Ha.
  by rewrite Hc in Ha.
Qed.

Lemma printed_le_total (a b : @jsval number) : printed_le a b ∨ printed_le b a.
Proof.
  unfold printed_le, String_lt, String.ltb.
  generalize (surrogates_apart (Date_toString a)), (surrogates_apart (Date_toString b)).
  intros x y. rewrite (String.compare_antisym y x).
  destruct (String.compare x y); simpl; auto.
Qed.

(** *** Sorting *)

Lemma sort_insert_perm (x : @jsval number) sorted : sort_insert x sorted ≡ₚ x :: sorted.
Proof.
  induction sorted as [|y rest IH]; simpl; [done|].
  destruct (String_lt _ _); [done|]. rewrite IH. apply Permutation_swap.
Qed.

Lemma foldl_sort_insert_perm (l sorted : list (@jsval number)) :
  foldl (λ sorted x, sort_insert x sorted) sorted l ≡ₚ sorted ++ l.
Proof.
  revert sorted. induction l as [|x l IH]; intros sorted; simpl.
  - by rewrite app_nil_r.
  - rewrite IH, sort_insert_perm. simpl. apply Permutation_middle.
Qed.

Lemma Array_sort_perm (l : list (@jsval number)) : Array_sort l ≡ₚ l.
Proof. unfold Array_sort. by rewrite foldl_sort_insert_perm. Qed.

Lemma sort_insert_sorted (x : @jsval number) sorted :
  StronglySorted printed_le sorted → StronglySorted printed_le (sort_insert x sorted).
Proof.
  induction 1 as [|y rest Hrest IH Hy]; simpl; [by repeat constructor|].
  destruct (String_lt (Date_toString x) (Date_toString y)) eqn:Hlt.
  - constructor; [by constructor|].
    assert (printed_le x y) as Hxy.
    { destruct (printed_le_total x y) as [|Hyx]; [done|].
      unfold printed_le in Hyx. by rewrite Hlt in Hyx. }
    constructor; [done|].
    eapply Forall_impl; [exact Hy|]. intros z Hz. by eapply printed_le_trans.
  - constructor; [done|].
    rewrite sort_insert_perm. by constructor.
Qed.

Lemma Array_sort_sorted (l : list (@jsval number)) : StronglySorted printed_le (Array_sort l).
Proof.
  unfold Array_sort.
  assert (StronglySorted printed_le (@nil (@jsval number))) as Hnil by constructor.
  revert Hnil. generalize (@nil (@jsval number)) as sorted.
  induction l as [|x l IH]; intros sorted Hsorted; simpl; [done|].
  apply IH. by apply sort_insert_sorted.
Qed.

Lemma sorted_head (sorted : list (@jsval number)) d :
  StronglySorted printed_le sorted → head sorted = Some d → Forall (printed_le d) sorted.
Proof.
  intros Hs Hd. destruct Hs as [|y rest Hrest Hy]; [done|].
  injection Hd as ->. constructor; [apply printed_le_refl|done].
Qed.

Lemma sorted_last (sorted : list (@jsval number)) d :
  StronglySorted printed_le sorted → last sorted = Some d →
  Forall (λ d', printed_le d' d) sorted.
Proof.
  induction 1 as [|y rest Hrest IH Hy]; [done|].
  intros Hd. destruct rest as [|z rest'].
  - injection Hd as ->. constructor; [apply printed_le_refl|done].
  - constructor; [|by apply IH].
    rewrite Forall_forall in Hy. apply Hy. by apply last_Some_elem_of.
Qed.

(** The first and the last of the sorted dates. *)
Lemma Array_sort_ends (l : list (@jsval number)) :
  l ≠ [] →
  ∃ oldest newest,
    head (Array_sort l) = Some oldest ∧ last (Array_sort l) = Some newest ∧
    oldest ∈ l ∧ newest ∈ l ∧
    Forall (λ d, printed_le oldest d ∧ printed_le d newest) l.
Proof.
  intros Hne. pose proof (Array_sort_perm l) as Hperm.
  pose proof (Array_sort_sorted l) as Hsorted.
  destruct (Array_sort l) as [|y rest] eqn:Hs.
  { apply Permutation_nil_l in Hperm. done. }
  destruct (last (y :: rest)) as [newest|] eqn:Hlast;
    [|by apply last_None in Hlast].
  exists y, newest. split; [done|]. split; [done|].
  split; [rewrite <- Hperm; by left|].
  split; [rewrite <- Hperm; by apply last_Some_elem_of|].
  rewrite <- Hperm. apply Forall_and. split.
  - by apply sorted_head.
  - by apply sorted_last.
Qed.

(** *** The table of counts *)

Lemma counts_insert key n (table : gmap string nat) :
  counts (<[key := n]> table) = n + counts (delete key table).
Proof.
  rewrite <- (insert_delete_eq table key n). unfold counts.
  rewrite map_fold_insert_L; [done| |apply lookup_delete_eq].
  intros. lia.
Qed.

Lemma counts_lookup key (table : gmap string nat) :
  counts table = default 0 (table !! key) + counts (delete key table).
Proof.
  destruct (table !! key) as [n|] eqn:Hkey; simpl.
  - rewrite <- (insert_id table key n Hkey) at 1. apply counts_insert.
  - by rewrite delete_id.
Qed.

Lemma counts_bump key (table : gmap string nat) :
  counts (<[key := S (default 0 (table !! key))]> table) = S (counts table).
Proof. rewrite counts_insert, (counts_lookup key table). lia. Qed.

(** *** The loop *)

Local Abbreviation inherited_mood :=
  (inherited_mood Number_toString Object_toString Object_prototype_has).

(** What the loop gathers from one record. *)
Local Abbreviation gathered m t :=
  {| counted := match mood_key m with
                | Some key =>
                    match counted t with
                    | Some table =>
                        if Object_prototype_has key then None
                        else Some (<[key := S (default 0 (table !! key))]> table)
                    | None => None
                    end
                | None => None
                end;
     dates := dates t ++ from_option (λ date, [date]) [] (date_of m);
     totalLength := match description_of m, totalLength t with
                    | Some d, Some n => Some (n + String_length d)
                    | _, _ => None
                    end |}.

Lemma tally_memory_run m t :
  tally_memory m t = if decide (no_description m) then Throw TypeError else Normal (gathered m t).
Proof.
  unfold tally_memory, no_description_dec, no_description, mood_key, date_of,
    description_of, count_mood.
  destruct m as [[]|props]; simpl; try done.
  destruct (own "description" props); simpl; try done; by destruct (counted t).
Qed.

Lemma tally_all_throws l t : Exists no_description l → tally_all l t = Throw TypeError.
Proof.
  intros Hex. revert t. induction Hex as [m l Hm|m l Hex IH]; intros t; simpl.
  - rewrite tally_memory_run. by rewrite decide_True.
  - rewrite tally_memory_run. destruct (decide (no_description m)); [done|apply IH].
Qed.

Lemma tally_all_cons m l t :
  ¬ no_description m → tally_all (m :: l) t = tally_all l (gathered m t).
Proof. intros Hm. simpl. rewrite tally_memory_run. by rewrite decide_False. Qed.

Lemma tally_all_returns l t :
  Forall (λ m, ¬ no_description m) l → ∃ t', tally_all l t = Normal t'.
Proof.
  intros Hall. revert t. induction Hall as [|m l Hm Hall IH]; intros t.
  - by eexists.
  - rewrite tally_all_cons by done. apply IH.
Qed.

Lemma tally_all_normal l t t' :
  tally_all l t = Normal t' → Forall (λ m, ¬ no_description m) l.
Proof.
  revert t. induction l as [|m l IH]; intros t Hrun; [done|].
  destruct (decide (no_description m)) as [Hm|Hm].
  - rewrite tally_all_throws in Hrun by (by left). done.
  - rewrite tally_all_cons in Hrun by done. constructor; [done|by eapply IH].
Qed.

Lemma described_date m : ¬ no_description m → is_Some (date_of m).
Proof.
  unfold no_description, date_of. destruct m as [[]|props]; simpl; try done; by eexists.
Qed.

Lemma described_mood m : ¬ no_description m → is_Some (mood_key m).
Proof.
  unfold no_description, mood_key. destruct m as [[]|props]; simpl; try done; by eexists.
Qed.

Lemma tally_all_dates l t t' :
  tally_all l t = Normal t' → dates t' = dates t ++ omap date_of l.
Proof.
  revert t. induction l as [|m l IH]; intros t Hrun.
  - injection Hrun as <-. by rewrite app_nil_r.
  - pose proof (tally_all_normal _ _ _ Hrun) as Hall.
    apply Forall_cons in Hall as [Hm Hall].
    rewrite tally_all_cons in Hrun by done. rewrite (IH _ Hrun). simpl.
    destruct (described_date m Hm) as [date ->]. simpl. by rewrite <- app_assoc.
Qed.

Lemma omap_date_of_length l :
  Forall (λ m, ¬ no_description m) l → length (omap date_of l) = length l.
Proof.
  induction 1 as [|m l Hm Hall IH]; [done|]. simpl.
  destruct (described_date m Hm) as [date ->]. simpl. by f_equal.
Qed.

(** Once the table holds something that is no count, it stays so. *)
Lemma tally_all_spoilt l t t' :
  tally_all l t = Normal t' → counted t = None → counted t' = None.
Proof.
  revert t. induction l as [|m l IH]; intros t Hrun Hnone.
  - by injection Hrun as <-.
  - pose proof (tally_all_normal _ _ _ Hrun) as Hall.
    apply Forall_cons in Hall as [Hm Hall].
    rewrite tally_all_cons in Hrun by done. apply (IH _ Hrun). simpl.
    rewrite Hnone. by destruct (mood_key m).
Qed.

Lemma tally_all_counted l t t' table :
  tally_all l t = Normal t' → counted t = Some table →
  match counted t' with
  | Some table' =>
      Forall (λ m, ¬ inherited_mood m) l ∧
      (∀ key, default 0 (table' !! key) =
              default 0 (table !! key) + length (filter (λ m, mood_key m = Some key) l)) ∧
      ((∀ key, table !! key ≠ Some 0) → ∀ key, table' !! key ≠ Some 0) ∧
      counts table' = counts table + length l
  | None => Exists inherited_mood l
  end.
Proof.
  revert t table. induction l as [|m l IH]; intros t table Hrun Htable.
  - injection Hrun as <-. rewrite Htable. split; [done|]. split; [|split; [done|]].
    + intros key. simpl. lia.
    + simpl. lia.
  - pose proof (tally_all_normal _ _ _ Hrun) as Hall.
    apply Forall_cons in Hall as [Hm Hall].
    rewrite tally_all_cons in Hrun by done.
    destruct (described_mood m Hm) as [mood Hmood].
    destruct (Object_prototype_has mood) eqn:Hinherited.
    + rewrite (tally_all_spoilt _ _ _ Hrun).
      * left. unfold inherited_mood. by rewrite Hmood.
      * simpl. by rewrite Hmood, Htable, Hinherited.
    + specialize (IH _ (<[mood := S (default 0 (table !! mood))]> table) Hrun).
      simpl in IH. rewrite Hmood, Htable, Hinherited in IH. specialize (IH eq_refl).
      destruct (counted t') as [table'|].
      * destruct IH as (Hnone & Hcount & Hpositive & Hsum).
        split; [|split; [|split]].
        -- constructor; [|done]. unfold inherited_mood. by rewrite Hmood, Hinherited.
        -- intros key. rewrite Hcount, filter_cons.
           destruct (decide (mood = key)) as [->|Hne].
           ++ rewrite lookup_insert_eq, Hmood, decide_True by done. simpl. lia.
           ++ rewrite lookup_insert_ne by done.
              rewrite decide_False; [done|]. rewrite Hmood. by intros [=].
        -- intros Hzero. apply Hpositive. intros key.
           destruct (decide (mood = key)) as [->|Hne].
           ++ by rewrite lookup_insert_eq.
           ++ rewrite lookup_insert_ne by done. apply Hzero.
        -- rewrite Hsum, counts_bump. simpl. lia.
      * by right.
Qed.

(** Once the sum is no sum of string lengths, it stays so. *)
Lemma tally_all_not_a_sum l t t' :
  tally_all l t = Normal t' → totalLength t = None → totalLength t' = None.
Proof.
  revert t. induction l as [|m l IH]; intros t Hrun Hnone.
  - by injection Hrun as <-.
  - pose proof (tally_all_normal _ _ _ Hrun) as Hall.
    apply Forall_cons in Hall as [Hm Hall].
    rewrite tally_all_cons in Hrun by done. apply (IH _ Hrun). simpl.
    rewrite Hnone. by destruct (description_of m).
Qed.

Lemma tally_all_length l t t' n :
  tally_all l t = Normal t' → totalLength t = Some n →
  match totalLength t' with
  | Some sum =>
      Forall (λ m, is_Some (description_of m)) l ∧
      sum = n + sum_list (description_length <$> l)
  | None => Exists (λ m, description_of m = None) l
  end.
Proof.
  revert t n. induction l as [|m l IH]; intros t n Hrun Hsum.
  - injection Hrun as <-. rewrite Hsum. split; [done|]. simpl. lia.
  - pose proof (tally_all_normal _ _ _ Hrun) as Hall.
    apply Forall_cons in Hall as [Hm Hall].
    rewrite tally_all_cons in Hrun by done.
    destruct (description_of m) as [d|] eqn:Hd.
    + specialize (IH _ (n + String_length d) Hrun).
      simpl in IH. rewrite Hsum in IH. specialize (IH eq_refl).
      destruct (totalLength t') as [sum|].
      * destruct IH as [Hstrings ->]. split; [constructor; [by eexists|done]|].
        assert (description_length m = String_length d) as Hlength
          by (unfold description_length; by rewrite Hd).
        rewrite fmap_cons. simpl. lia.
      * by right.
    + rewrite (tally_all_not_a_sum _ _ _ Hrun); [by left|done].
Qed.

Lemma filter_none {A} (P : A → Prop) `{∀ a, Decision (P a)} (xs : list A) :
  filter P xs = [] ↔ Forall (λ a, ¬ P a) xs.
Proof.
  induction xs as [|a xs IH]; [done|]. rewrite filter_cons, Forall_cons.
  destruct (decide (P a)); [|by rewrite IH; tauto].
  split; [done|]. by intros [? _].
Qed.

(** *** The statistics *)

Local Abbreviation nothing_gathered :=
  {| counted := Some (∅ : gmap string nat); dates := @nil (@jsval number);
     totalLength := Some 0 |}.

Lemma getStats_empty s :
  memories s = [] →
  getStats s =
  (Normal {| total := 0; moods := Some ∅; oldestDate := None; newestDate := None;
             averageDescriptionLength := Some 0 |}, s, []).
Proof. intros Hempty. unfold getStats. rewrite this_bind, Hempty. done. Qed.

Lemma getStats_run s :
  memories s ≠ [] →
  getStats s =
  (match tally_all (memories s) nothing_gathered with
   | Normal t =>
       Normal {| total := length (memories s); moods := counted t;
                 oldestDate := head (Array_sort (dates t));
                 newestDate := last (Array_sort (dates t));
                 averageDescriptionLength :=
                   match totalLength t with
                   | Some sum => Some (Math_round_div sum (length (memories s)))
                   | None => None
                   end |}
   | Throw e => Throw e
   end, s, []).
Proof.
  intros Hne. unfold getStats. rewrite this_bind.
  rewrite bool_decide_eq_false_2 by (by destruct (memories s)).
  destruct (tally_all (memories s) nothing_gathered) as [t|e] eqn:Hrun.
  - by erewrite bind_quiet by done.
  - by erewrite bind_throw by done.
Qed.

Lemma Math_round_div_bounds a b :
  0 < b → 2 * b * Math_round_div a b ≤ 2 * a + b < 2 * b * (Math_round_div a b + 1).
Proof.
  intros Hb. unfold Math_round_div.
  pose proof (Nat.div_mod_eq (2 * a + b) (2 * b)) as Hdiv.
  pose proof (Nat.mod_upper_bound (2 * a + b) (2 * b)) as Hmod.
  nia.
Qed.

(** X17. What [getStats] answers.  It reads the collection and nothing
    else: the application object is as before and nothing is shown.  On an
    empty collection it returns the statistics of nothing.  It throws a
    [TypeError] as soon as one record has no description to measure (the
    record is [null] or [undefined], or its description is), and otherwise
    returns statistics whose total is the number of records. *)
Theorem getStats_outcome s :
  (memories s = [] →
   getStats s =
   (Normal {| total := 0; moods := Some ∅; oldestDate := None; newestDate := None;
              averageDescriptionLength := Some 0 |}, s, [])) ∧
  (Exists no_description (memories s) → getStats s = (Throw TypeError, s, [])) ∧
  (Forall (λ m, ¬ no_description m) (memories s) →
   ∃ st, getStats s = (Normal st, s, []) ∧ total st = length (memories s)) ∧
  (∀ st s' shown, getStats s = (Normal st, s', shown) →
     s' = s ∧ shown = [] ∧ total st = length (memories s) ∧
     Forall (λ m, ¬ no_description m) (memories s)).
Proof.
  split; [apply getStats_empty|]. split; [|split].
  - intros Hex. rewrite getStats_run by (intros Hempty; rewrite Hempty in Hex; inversion Hex).
    by rewrite tally_all_throws.
  - intros Hall. destruct (memories s) as [|m l] eqn:Hmemories.
    + rewrite getStats_empty by done. by eexists.
    + rewrite getStats_run by (by rewrite Hmemories). rewrite Hmemories.
      destruct (tally_all_returns (m :: l) nothing_gathered Hall) as [t ->].
      by eexists.
  - intros st s' shown Hrun. destruct (memories s) as [|m l] eqn:Hmemories.
    + rewrite getStats_empty in Hrun by done. by injection Hrun as <- <- <-.
    + rewrite getStats_run in Hrun by (by rewrite Hmemories). rewrite Hmemories in Hrun.
      destruct (tally_all (m :: l) nothing_gathered) as [t|e] eqn:Htally; [|done].
      injection Hrun as <- <- <-.
      split; [done|]. split; [done|]. split; [done|]. by eapply tally_all_normal.
Qed.

(** X18. The table of moods.  When [getStats] returns, either some record
    is counted under the name of a property that every object inherits, and
    the table holds something that is no count; or no record is, and the
    table holds, under each mood, the number of records of that mood: a mood
    no record has is no key of the table, and the counts add up to the
    total. *)
Theorem getStats_moods s st s' shown :
  getStats s = (Normal st, s', shown) →
  match moods st with
  | Some table =>
      Forall (λ m, ¬ inherited_mood m) (memories s) ∧
      (∀ key, default 0 (table !! key) =
              length (filter (λ m, mood_key m = Some key) (memories s))) ∧
      (∀ key, table !! key = None ↔ Forall (λ m, mood_key m ≠ Some key) (memories s)) ∧
      counts table = total st
  | None => Exists inherited_mood (memories s)
  end.
Proof.
  intros Hrun. destruct (memories s) as [|m l] eqn:Hmemories.
  { rewrite getStats_empty in Hrun by done. injection Hrun as <- <- <-. simpl.
    split; [done|]. split; [done|]. split; [|done].
    intros key. by rewrite lookup_empty. }
  rewrite getStats_run in Hrun by (by rewrite Hmemories). rewrite Hmemories in Hrun.
  destruct (tally_all (m :: l) nothing_gathered) as [t|e] eqn:Htally; [|done].
  injection Hrun as <- <- <-. simpl.
  pose proof (tally_all_counted _ _ _ ∅ Htally eq_refl) as Hcounted.
  destruct (counted t) as [table|]; [|done].
  destruct Hcounted as (Hnone & Hcount & Hpositive & Hsum).
  assert (∀ key, default 0 (table !! key) =
                 length (filter (λ m, mood_key m = Some key) (m :: l))) as Hcount'.
  { intros key. by rewrite Hcount, lookup_empty. }
  split; [done|]. split; [done|]. split; [|by rewrite Hsum].
  intros key. specialize (Hcount' key).
  rewrite <- (filter_none (λ m, mood_key m = Some key)).
  split.
  - intros Hkey. rewrite Hkey in Hcount'. simpl in Hcount'.
    by apply length_zero_iff_nil.
  - intros Hnil. rewrite Hnil in Hcount'. simpl in Hcount'.
    destruct (table !! key) as [[|n]|] eqn:Hkey; [|done|done].
    exfalso. apply (Hpositive ltac:(intros key'; by rewrite lookup_empty) key Hkey).
Qed.

(** X19. The two dates.  When [getStats] returns on a collection that is
    not empty, [oldestDate] and [newestDate] are dates of records, and they
    are the first and the last in the order of the printed forms: no date of
    a record is printed as a string before the one of [oldestDate], and none
    after the one of [newestDate].  On an empty collection both are
    [null]. *)
Theorem getStats_dates s st s' shown :
  getStats s = (Normal st, s', shown) →
  (memories s = [] → oldestDate st = None ∧ newestDate st = None) ∧
  (memories s ≠ [] →
   ∃ oldest newest,
     oldestDate st = Some oldest ∧ newestDate st = Some newest ∧
     (∃ m, m ∈ memories s ∧ date_of m = Some oldest) ∧
     (∃ m, m ∈ memories s ∧ date_of m = Some newest) ∧
     ∀ m date, m ∈ memories s → date_of m = Some date →
       printed_le oldest date ∧ printed_le date newest).
Proof.
  intros Hrun. split.
  - intros Hempty. rewrite getStats_empty in Hrun by done. by injection Hrun as <- <- <-.
  - intros Hne. rewrite getStats_run in Hrun by done.
    destruct (tally_all (memories s) nothing_gathered) as [t|e] eqn:Htally; [|done].
    injection Hrun as <- <- <-. simpl.
    pose proof (tally_all_dates _ _ _ Htally) as Hdates. simpl in Hdates.
    pose proof (omap_date_of_length _ (tally_all_normal _ _ _ Htally)) as Hlength.
    destruct (Array_sort_ends (dates t)) as (oldest & newest & Hhead & Hlast & Hold & Hnew & Hall).
    { rewrite Hdates. intros Hnil. rewrite Hnil in Hlength.
      destruct (memories s); [done|by simpl in Hlength]. }
    exists oldest, newest. rewrite Hdates in Hold, Hnew, Hall.
    split; [done|]. split; [done|].
    apply list_elem_of_omap in Hold, Hnew. split; [done|]. split; [done|].
    intros m date Hm Hdate. rewrite Forall_forall in Hall. apply Hall.
    apply list_elem_of_omap. by exists m.
Qed.

(** X20. The average length.  When [getStats] returns, either every
    record has a string for its description, and the average is the sum of
    the lengths of the descriptions, in UTF-16 code units as [length] counts
    them, divided by the number of records and rounded to the nearest
    integer with a half going up ([0] when there is no record); or some
    description is no string, and the average is no average of string
    lengths. *)
Theorem getStats_average s st s' shown :
  getStats s = (Normal st, s', shown) →
  match averageDescriptionLength st with
  | Some average =>
      Forall (λ m, is_Some (description_of m)) (memories s) ∧
      (memories s = [] → average = 0) ∧
      let n := length (memories s) in
      let sum := sum_list (description_length <$> memories s) in
      2 * n * average ≤ 2 * sum + n ∧ (0 < n → 2 * sum + n < 2 * n * (average + 1))
  | None => Exists (λ m, description_of m = None) (memories s)
  end.
Proof.
  intros Hrun. destruct (memories s) as [|m l] eqn:Hmemories.
  { rewrite getStats_empty in Hrun by done. injection Hrun as <- <- <-. simpl.
    split; [done|]. split; [done|]. lia. }
  rewrite getStats_run in Hrun by (by rewrite Hmemories). rewrite Hmemories in Hrun.
  destruct (tally_all (m :: l) nothing_gathered) as [t|e] eqn:Htally; [|done].
  injection Hrun as <- <- <-. simpl averageDescriptionLength.
  pose proof (tally_all_length _ _ _ 0 Htally eq_refl) as Hsum.
  destruct (totalLength t) as [sum|]; [|done].
  destruct Hsum as [Hstrings ->]. split; [done|]. split; [done|].
  intros n total. rewrite Nat.add_0_l. fold total.
  pose proof (Math_round_div_bounds total n) as Hbounds.
  assert (0 < n) as Hn by (unfold n; simpl; lia).
  specialize (Hbounds Hn). split; [apply Hbounds|]. intros _. apply Hbounds.
Qed.

End Properties.

(** * The model at work

    Runs of the model on the concrete runtime of [Sample]: one instance of
    each conditional statement above, and the inputs on which the code parts
    with the specification. *)

Module Runs.

Import Sample Scenario.

Local Abbreviation saveMemory :=
  (saveMemory (number:=Z) trim stringify unlimited coordinates).
Local Abbreviation deleteMemory := (deleteMemory (number:=Z) stringify unlimited).
Local Abbreviation importMemories :=
  (importMemories (number:=Z) parse stringify unlimited coordinates).
Local Abbreviation exportMemories := (exportMemories (number:=Z) stringify).
Local Abbreviation applyFilters := (applyFilters (number:=Z) lt).
Local Abbreviation reachable :=
  (reachable (number:=Z) ToBoolean lt trim parse stringify unlimited coordinates).
Local Abbreviation all_keep_ids_apart :=
  (all_keep_ids_apart (number:=Z) ToBoolean lt trim parse stringify unlimited coordinates).
Local Abbreviation all_orderly :=
  (all_orderly (number:=Z) ToBoolean lt trim parse stringify unlimited coordinates).
Local Abbreviation renderable := (renderable (number:=Z) coordinates).

Ltac by_computation :=
  match goal with |- ?P => apply (bool_decide_unpack P); vm_compute; exact I end.

Ltac all_renderable :=
  repeat (apply Forall_cons; split;
          [split; [by eexists|split; [by eexists|eexists _, _; repeat split]]|]);
  by apply Forall_nil.

Lemma blank_is_reachable : reachable blank.
Proof. by apply (reachable_start _ _ _ _ _ _ _ None). Qed.

(** C6 at work: a title of blanks is refused and the page stays as it was. *)
Lemma blank_title_refused :
  blank_field trim untitled ∧
  saveMemory untitled noon picking =
    (Normal (), picking, [Alert "Please fill in all required fields."]).
Proof.
  assert (blank_field trim untitled) as Hblank by (left; reflexivity).
  split; [exact Hblank|].
  by destruct (saveMemory_blank_field ToBoolean lt trim parse stringify unlimited coordinates
                 untitled noon picking Hblank) as [Hrun _].
Defined.

(** C7 at work: the trip becomes the one record of the collection. *)
Lemma trip_created :
  required_present trim trip ∧
  memories (final (saveMemory trip noon) picking) =
    [created trim trip noon (Num 40%Z, Num (-74)%Z)].
Proof.
  assert (required_present trim trip) as Hpresent by (by repeat split).
  split; [exact Hpresent|].
  by apply (saveMemory_creates trim stringify unlimited coordinates trip noon picking
              (Num 40%Z, Num (-74)%Z) Hpresent).
Defined.

(** C1 at work: after [editMemory] the id under edit is [null], no record
    has it, and the submit throws. *)
Lemma stale_submit_throws :
  find Null (memories (after EditMemory viewing)) = Normal None ∧
  saveMemory trip noon (after EditMemory viewing) =
    (Throw TypeError, after EditMemory viewing, []).
Proof.
  split; [reflexivity|].
  assert (required_present trim trip) as Hpresent by (by repeat split).
  by destruct (saveMemory_stale_id ToBoolean lt trim parse stringify unlimited coordinates
                 trip noon (after EditMemory viewing) Hpresent eq_refl eq_refl)
    as [Hthrow _].
Defined.

(** C8 at work: editing the trip from its detail view ends in a
    [TypeError], and the record keeps its old fields. *)
Lemma edit_of_trip_throws :
  handler (Submit retitled noon) (after EditMemory viewing) =
    (Throw TypeError, after EditMemory viewing, []) ∧
  memories (after (Submit retitled noon) (after EditMemory viewing)) =
    [created trim trip noon (Num 40%Z, Num (-74)%Z)].
Proof.
  assert (required_present trim retitled) as Hpresent by (by repeat split).
  assert (find (currentMemoryId viewing) (memories viewing) =
          Normal (Some (created trim trip noon (Num 40%Z, Num (-74)%Z)))) as Hfound
    by (by vm_compute).
  assert (find Null (memories viewing) = Normal None) as Hnull by (by vm_compute).
  destruct (edit_then_submit_throws ToBoolean lt trim parse stringify unlimited coordinates
              retitled noon viewing
              (created trim trip noon (Num 40%Z, Num (-74)%Z))
              Hpresent Hfound eq_refl Hnull) as (_ & _ & Hthrow & Hsame).
  split; [exact Hthrow|]. transitivity (memories viewing); [exact Hsame|by vm_compute].
Defined.

(** C4 at work: the trip is deleted with its pin and its marker. *)
Lemma trip_deleted :
  memories (final (deleteMemory true) viewing) = [] ∧
  pins (final (deleteMemory true) viewing) = [] ∧
  mapLayers (final (deleteMemory true) viewing) = [].
Proof.
  destruct (deleteMemory_spec stringify unlimited viewing) as (Hfound & _ & _).
  assert (findIndex (currentMemoryId viewing) (memories viewing) = Normal (Some 0))
    as Hindex by (by vm_compute).
  assert (Map_get (currentMemoryId viewing) (pins viewing) =
          Some {| handle := 0; latlng := (Num 40%Z, Num (-74)%Z); data_mood := Str "😊" |})
    as Hpin by (by vm_compute).
  destruct (Hfound _ _ Hindex Hpin) as (_ & Hmemories & _ & Hpins & _).
  split; [by rewrite Hmemories|]. split; [by rewrite Hpins|]. reflexivity.
Defined.

(** C4, the counterexample: the detail view shows the trip while an empty
    file is imported; the delete that follows finds no record and says
    nothing. *)
Lemma miss_is_silent :
  let s := after (ImportMemories "[]") viewing in
  memories s = [] ∧ currentMemoryId s = Num 1700%Z ∧
  handler (DeleteMemory true) s = (Normal (), s, []).
Proof. by vm_compute. Qed.

(** C2 at work: the album file is an array of records that can be
    rendered; its import reports success and the album is the collection. *)
Lemma album_imported :
  parse album_file = Some (JArray album) ∧ Forall renderable album ∧
  Toast (Imported 3) success ∈ (importMemories album_file blank).2 ∧
  memories (final (importMemories album_file) blank) = album.
Proof.
  assert (parse album_file = Some (JArray album)) as Hparse by (by vm_compute).
  assert (Forall renderable album) as Hall by all_renderable.
  destruct (importMemories_spec parse stringify unlimited coordinates album_file blank)
    as [_ Hspec].
  rewrite Hparse in Hspec. destruct Hspec as [Hsucceeds Hreplaced].
  split; [exact Hparse|]. split; [exact Hall|].
  split; [exact (Hsucceeds Hall)|exact (Hreplaced (Hsucceeds Hall))].
Defined.

(** C2, the counterexample.  The nameless file is an array, and no list of
    memory records: its import succeeds all the same and its entry is the
    collection.  The file [[null]] is an array too, so it replaces the
    collection and empties the cache before the first marker fails to
    build: the user is told the import failed, and the trip is gone. *)
Lemma import_checks_for_an_array_only :
  let accepted := importMemories nameless_file saved in
  let failed := importMemories "[null]" saved in
  memories saved = [created trim trip noon (Num 40%Z, Num (-74)%Z)] ∧
  accepted.2 = [Toast (Imported 1) success] ∧ memories accepted.1.2 = nameless ∧
  failed.2 = import_failure ∧ memories failed.1.2 = [Prim Null] ∧ pins failed.1.2 = [] ∧
  failed.1.2 ≠ saved.
Proof. vm_compute. by repeat split. Qed.



(** C7, the counterexample: the blanks typed around the title and the
    description are not in the record. *)
Lemma padded_input_is_trimmed :
  required_present trim padded ∧
  memories (final (saveMemory padded noon) picking) =
    [new_memory (Num 1700%Z) "Trip" "2024-05-01" "First hike" "😊"
       (Num 40%Z, Num (-74)%Z) (Str "2024-05-01T12:00:00.000Z")] ∧
  memoryTitle padded ≠ "Trip" ∧ memoryDescription padded ≠ "First hike".
Proof. vm_compute. by repeat split. Qed.

(** C5, the counterexample, on two pages that one import each reaches.  A
    record without a date stays visible under the filter "from May on",
    which it does not satisfy.  With the twins, the filter "🌙" looks up the
    one cache entry of their id, finds the first twin, which is 😊, and hides
    the marker of the entry, which is the one of the night walk: the record
    that satisfies the filter is hidden, and the marker of the other twin,
    which the cache no longer holds, stays on the map. *)
Lemma filter_off_the_data_model :
  let undated_page := after (ImportMemories undated_file) blank in
  let twins_page := after (ImportMemories twins_file) blank in
  let night_walk := record 1 "Night walk" "2024-06-01" "🌙" in
  (handler (ImportMemories undated_file) blank).2 = [Toast (Imported 1) success] ∧
  memories undated_page = undated ∧
  Forall (λ m, selects since_may m = false ∧
               visible (after (ApplyFilters since_may) undated_page) m) undated ∧
  (handler (ImportMemories twins_file) blank).2 = [Toast (Imported 2) success] ∧
  night_walk ∈ memories twins_page ∧
  selects nights night_walk = true ∧
  ¬ visible (after (ApplyFilters nights) twins_page) night_walk ∧
  mapLayers (after (ApplyFilters nights) twins_page) =
    [{| handle := 0; latlng := (Num 40%Z, Num (-74)%Z); data_mood := Str "😊" |}].
Proof.
  intros undated_page twins_page night_walk.
  split; [by vm_compute|]. split; [by vm_compute|]. split.
  { repeat constructor.
    exists (Num 5%Z), {| handle := 0; latlng := (Num 40%Z, Num (-74)%Z);
                         data_mood := Str "😊" |}.
    split; [done|]. split; [by vm_compute|]. by_computation. }
  split; [by vm_compute|]. split; [by_computation|]. split; [by vm_compute|].
  split; [|by vm_compute].
  intros (k & mk & Hid & Hget & Hin).
  injection Hid as <-. vm_compute in Hget. injection Hget as <-.
  revert Hin. by_computation.
Qed.

(** C3, the counterexample: a file with two records under one id is
    imported as it is. *)
Lemma twins_share_an_id :
  let s := after (ImportMemories twins_file) blank in
  reachable s ∧
  (handler (ImportMemories twins_file) blank).2 = [Toast (Imported 2) success] ∧
  ids (memories s) = [Num 1%Z; Num 1%Z] ∧
  ¬ NoDup (ids (memories s)).
Proof.
  intros s. split; [|split; [|split]].
  - apply reachable_after, blank_is_reachable.
  - by vm_compute.
  - by vm_compute.
  - assert (ids (memories s) = [Num 1%Z; Num 1%Z]) as -> by (by vm_compute).
    intros [Hfresh _]%NoDup_cons. apply Hfresh. left.
Qed.

(** C3 at work: the ids stay apart along the session. *)
Lemma session_keeps_ids_apart :
  all_keep_ids_apart session blank ∧
  NoDup (ids (memories (run session blank))).
Proof.
  assert (all_keep_ids_apart session blank) as Hsession.
  { repeat split.
    - intros _. vm_compute. apply not_elem_of_nil.
    - intros l Hl. vm_compute in Hl. injection Hl as <-. by_computation. }
  split; [exact Hsession|].
  apply (unique_ids_run ToBoolean lt trim parse stringify unlimited coordinates session blank);
    [constructor|exact Hsession].
Defined.

(** C10, the counterexample: with the twins imported, deleting the record
    shown for id 1 drops the one cache entry, and the twin that remains has
    an id that is no key of the cache. *)
Lemma twin_without_pin :
  let s := run twin_deleted blank in
  reachable s ∧ ids (memories s) = [Num 1%Z] ∧ keys (pins s) = [].
Proof.
  intros s. split; [|by vm_compute].
  do 3 apply reachable_after. apply blank_is_reachable.
Qed.

(** C10 at work: in the state that leaves a twin without its pin the cache
    is still sound; and along the session, which is orderly, the keys of the
    cache are the ids of the collection. *)
Lemma cache_follows_the_session :
  (reachable (run twin_deleted blank) ∧ cache_sound (run twin_deleted blank)) ∧
  (all_orderly session blank ∧
   ∀ k, k ∈ keys (pins (run session blank)) ↔ k ∈ ids (memories (run session blank))).
Proof.
  destruct (cache_sound_reachable ToBoolean lt trim parse stringify unlimited coordinates)
    as (Hsound & Hstart & Hrun).
  assert (reachable (run twin_deleted blank)) as Hreach
    by (do 3 apply reachable_after; apply blank_is_reachable).
  assert (all_orderly session blank) as Hsession.
  { repeat split.
    - intros pin Hpin. vm_compute in Hpin. by injection Hpin as <-.
    - intros _. vm_compute. apply not_elem_of_nil.
    - vm_compute in H. injection H as <-. by_computation.
    - vm_compute in H. injection H as <-. all_renderable. }
  assert (tidy (number:=Z) blank) as Hblank.
  { apply (Hstart None); [done|]. intros text l Hnone. done. }
  split; [split; [exact Hreach|exact (proj1 (Hsound _ Hreach))]|].
  split; [exact Hsession|exact (proj2 (Hrun session blank Hblank Hsession))].
Defined.

(** C5 at work: of the album, the filter "😊 between May and June" shows
    the trip and hides the night walk and the picnic. *)
Lemma album_filtered :
  synchronized album_page ∧ Forall dated (memories album_page) ∧
  applyFilters happy_in_may_june album_page =
    (Normal (), final (applyFilters happy_in_may_june) album_page,
     [Toast (Showing 1 3) success]) ∧
  (∀ m, m ∈ memories album_page →
        visible (final (applyFilters happy_in_may_june) album_page) m ↔
        selects happy_in_may_june m = true).
Proof.
  assert (synchronized album_page) as Hsync by (split; by_computation).
  assert (Forall dated (memories album_page)) as Hdated
    by (repeat constructor; by eexists).
  split; [exact Hsync|]. split; [exact Hdated|].
  destruct (applyFilters_selects lt happy_in_may_june album_page Hsync Hdated)
    as (Hrun & _ & _ & Hvisible & _).
  split; [exact Hrun|exact Hvisible].
Defined.

(** ** Further runs *)

Local Abbreviation addPinToMap := (addPinToMap (number:=Z) coordinates).
Local Abbreviation persisted := (persisted (number:=Z) stringify).
Local Abbreviation randomMemory :=
  (randomMemory (number:=Z) Number_toString Object_toString coordinates).

Local Abbreviation here := (Num 40%Z, Num (-74)%Z).

(** X1 at work: the trip is written to the storage, pinned and shown. *)
Lemma trip_persisted_and_pinned :
  required_present trim trip ∧
  lifeAtlasMemories (final (saveMemory trip noon) picking) =
    Some (stringify 0 [created trim trip noon here]) ∧
  pins (final (saveMemory trip noon) picking) =
    [(Num 1700%Z, {| handle := 0; latlng := here; data_mood := Str "😊" |})].
Proof.
  assert (required_present trim trip) as Hpresent by (by repeat split).
  split; [exact Hpresent|].
  destruct (saveMemory_create_outcome trim stringify unlimited coordinates trip noon picking
              here Hpresent eq_refl eq_refl eq_refl eq_refl)
    as (_ & _ & Hstored & Hpins & _).
  split; [|exact Hpins].
  etransitivity; [exact Hstored|]. by vm_compute.
Defined.

(** X2 at work: with a storage that is full the trip is in the collection,
    the storage stays empty, and both toasts are shown. *)
Lemma trip_kept_in_memory :
  required_present trim trip ∧
  (saveMemory_when_full trip noon picking).2 =
    [ConsoleError; Toast (Text "Failed to save memory. Storage may be full.") error;
     Display memoryModal false; FormReset;
     Toast (Text "Memory saved successfully! 🎉") success] ∧
  memories (final (saveMemory_when_full trip noon) picking) = [created trim trip noon here] ∧
  lifeAtlasMemories (final (saveMemory_when_full trip noon) picking) = None.
Proof.
  assert (required_present trim trip) as Hpresent by (by repeat split).
  split; [exact Hpresent|].
  destruct (saveMemory_storage_full trim stringify full coordinates trip noon picking
              here Hpresent eq_refl eq_refl eq_refl eq_refl)
    as (_ & Hshown & Hmemories & Hstored & _).
  split; [exact Hshown|]. split; [exact Hmemories|exact Hstored].
Defined.

(** X3 at work: the submit changes the collection, and the storage holds
    the new one. *)
Lemma trip_is_in_the_storage :
  memories (after (Submit trip noon) picking) ≠ memories picking ∧
  persisted (after (Submit trip noon) picking).
Proof.
  assert (editingMemory picking = true →
          is_Some (Map_get (currentMemoryId picking) (pins picking))) as Hedit
    by (intros Hnot; vm_compute in Hnot; discriminate Hnot).
  assert (memories (after (Submit trip noon) picking) ≠ memories picking) as Hchange
    by (intros Hsame; vm_compute in Hsame; discriminate Hsame).
  split; [exact Hchange|].
  exact (mutation_is_persisted ToBoolean lt trim parse stringify unlimited coordinates
           (Submit trip noon) picking Hedit eq_refl Hchange).
Defined.

(** X4 at work: the record whose id is [null] is edited in place. *)
Lemma unnumbered_edited :
  required_present trim retitled ∧
  editingMemory editing_unnumbered = true ∧
  memories (final (saveMemory retitled noon) editing_unnumbered) =
    [new_memory Null "Trip to the lake" "2024-05-02" "First hike, second thoughts" "🌙"
       here (Str "2024-05-01T10:00:00.000Z")].
Proof.
  assert (required_present trim retitled) as Hpresent by (by repeat split).
  split; [exact Hpresent|]. split; [reflexivity|].
  assert (findIndex (currentMemoryId editing_unnumbered) (memories editing_unnumbered) =
          Normal (Some 0)) as Hindex by (by vm_compute).
  assert (memories editing_unnumbered !! 0 =
          Some (new_memory Null "Trip" "2024-05-01" "First hike" "😊" here
                  (Str "2024-05-01T10:00:00.000Z"))) as Hrecord by (by vm_compute).
  assert (Map_get (currentMemoryId editing_unnumbered) (pins editing_unnumbered) =
          Some {| handle := 0; latlng := here; data_mood := Str "😊" |}) as Hpin
    by (by vm_compute).
  assert (currentPin editing_unnumbered = Some here) as Hplace by (by vm_compute).
  destruct (saveMemory_edits_in_place trim stringify unlimited coordinates retitled noon
              editing_unnumbered here 0 _ _ Hpresent eq_refl Hplace Hindex Hrecord Hpin
              eq_refl)
    as (createdAt & Hcreated & _ & _ & Hmemories & _).
  injection Hcreated as <-.
  etransitivity; [exact Hmemories|]. by vm_compute.
Defined.

(** X5 at work: the record without a description leaves its marker on the
    map and nothing in the cache. *)
Lemma undescribed_leaves_a_marker :
  (addPinToMap undescribed blank).1.1 = Throw TypeError ∧
  stray ∈ mapLayers (final (addPinToMap undescribed) blank) ∧
  pins (final (addPinToMap undescribed) blank) = [].
Proof.
  destruct (addPinToMap_outcome coordinates undescribed blank)
    as (_ & _ & _ & _ & _ & Hstray).
  destruct (Hstray (Num 1%Z) (Num 2%Z) (Str "🌙") eq_refl eq_refl eq_refl eq_refl)
    as (Hthrow & Hon & Hpins & _).
  { intros d Hd. discriminate Hd. }
  split; [exact Hthrow|]. split; [exact Hon|exact Hpins].
Defined.

(** X6 at work: with the album in the storage the application starts, and
    the map carries its three markers. *)
Lemma album_reloaded :
  (∃ s, constructor (Some album_file) = Normal s) ∧
  ∀ s, constructor (Some album_file) = Normal s →
       memories s = album ∧ length (mapLayers s) = 3.
Proof.
  destruct (constructor_starts ToBoolean parse coordinates (Some album_file))
    as (Hstarts & _ & _ & Hstate).
  assert (parse album_file = Some (JArray album)) as Hparse by (by vm_compute).
  rewrite Hparse in Hstarts.
  split; [apply Hstarts; all_renderable|].
  intros s Hs. destruct (Hstate s Hs) as (_ & Hmemories & _ & _ & Hlayers & _).
  rewrite Hparse in Hmemories. split; [exact Hmemories|].
  rewrite Hlayers, Hmemories. reflexivity.
Defined.

(** X7 at work: the file with the record that has no description replaces
    the collection and is reported as a failure. *)
Lemma undescribed_import_fails :
  parse undescribed_file = Some (JArray [undescribed]) ∧
  memories (final (importMemories undescribed_file) saved) = [undescribed] ∧
  Toast (Text "Failed to import memories. Please check the file format.") error ∈
    (importMemories undescribed_file saved).2.
Proof.
  assert (parse undescribed_file = Some (JArray [undescribed])) as Hparse by (by vm_compute).
  split; [exact Hparse|].
  destruct (importMemories_array parse stringify unlimited coordinates undescribed_file saved
              [undescribed] Hparse) as (Hmemories & _ & _ & Hfailed).
  split; [exact Hmemories|]. apply Hfailed.
  intros Hall. apply Forall_cons in Hall as [(_ & [d Hd] & _) _]. discriminate Hd.
Defined.

(** X8 at work: importing the album over the saved trip takes the marker
    of the trip off the map. *)
Lemma album_replaces_the_trip :
  parse album_file = Some (JArray album) ∧ Forall renderable album ∧ fresh_handles saved ∧
  ∀ mk, mk ∈ (pins saved).*2 → mk ∉ mapLayers (final (importMemories album_file) saved).
Proof.
  assert (parse album_file = Some (JArray album)) as Hparse by (by vm_compute).
  assert (Forall renderable album) as Hall by all_renderable.
  assert (fresh_handles saved) as Hfresh by (unfold fresh_handles; by_computation).
  split; [exact Hparse|]. split; [exact Hall|]. split; [exact Hfresh|].
  by destruct (importMemories_redraws parse stringify unlimited coordinates album_file saved
                 album Hparse Hall Hfresh) as (_ & _ & Hgone).
Defined.

(** X9 at work: the marker that the failed import left on the map is
    still there after the session. *)
Lemma stray_outlives_the_session :
  orphan littered stray ∧ stray ∈ mapLayers (run session littered).
Proof.
  assert (orphan littered stray) as Hstray.
  { split; [by_computation|]. split; [by_computation|]. vm_compute. lia. }
  split; [exact Hstray|].
  by destruct (orphan_stays ToBoolean lt trim parse stringify unlimited coordinates
                 session littered stray Hstray) as (_ & Hon & _).
Defined.

(** X10 at work: once the filters are cleared the whole album is visible
    again. *)
Lemma album_shown_again :
  Forall (visible (after ClearFilters (after (ApplyFilters happy_in_may_june) album_page)))
    album.
Proof.
  destruct (clearFilters_shows_all ToBoolean lt trim parse stringify unlimited coordinates
              album_page) as (_ & _ & _ & _ & _ & _ & Hagain).
  apply Forall_forall. intros m Hm.
  assert (∃ k, id_of m = Some k ∧ k ∈ keys (pins album_page)) as (k & Hid & Hk).
  { repeat (apply elem_of_cons in Hm as [->|Hm]; [eexists; split; [reflexivity|by_computation]|]).
    by apply elem_of_nil in Hm. }
  exact (Hagain happy_in_may_june m k Hid Hk).
Defined.

(** X11 at work: button, click and submit on the blank page give the
    trip. *)
Lemma trip_from_the_button :
  required_present trim trip ∧
  memories (run [AddMemoryMode; MapClick 40%Z (-74)%Z; Submit trip noon] blank) =
    [created trim trip noon here].
Proof.
  assert (required_present trim trip) as Hpresent by (by repeat split).
  split; [exact Hpresent|].
  by destruct (create_flow ToBoolean lt trim parse stringify unlimited coordinates trip noon
                 blank 40%Z (-74)%Z eq_refl eq_refl Hpresent eq_refl) as (Hmemories & _).
Defined.

(** X12 at work: confirming the delete of the trip twice. *)
Lemma trip_deleted_once :
  find Null (memories viewing) = Normal None ∧
  after (DeleteMemory true) (after (DeleteMemory true) viewing) =
    after (DeleteMemory true) viewing.
Proof.
  assert (find Null (memories viewing) = Normal None) as Hnull by (by vm_compute).
  split; [exact Hnull|].
  by destruct (delete_once ToBoolean lt trim parse stringify unlimited coordinates viewing
                 Hnull) as (_ & Honce).
Defined.


(** X14 at work: a description of 120 characters gives an excerpt of
    103, and one of sixty accented letters, which are 120 bytes, is shown
    whole. *)
Lemma wordy_excerpt :
  (∃ excerpt, createPopupContent wordy blank = (Normal excerpt, blank, []) ∧
              String_length excerpt = 103) ∧
  String_length sixty_accents = 60 ∧
  createPopupContent accented blank = (Normal sixty_accents, blank, []).
Proof.
  split.
  - destruct (popup_excerpt wordy (blank (number:=Z))) as (Hstring & _).
    destruct (Hstring long_description eq_refl) as (excerpt & Hrun & _ & _ & _ & Hlong).
    exists excerpt. split; [exact Hrun|].
    apply Hlong. vm_compute. lia.
  - split; [by vm_compute|].
    destruct (popup_excerpt accented (blank (number:=Z))) as (Hstring & _).
    destruct (Hstring sixty_accents eq_refl) as (excerpt & Hrun & _ & _ & Hshort & _).
    rewrite Hrun, Hshort; [done|]. vm_compute. lia.
Defined.

(** X15 at work: Escape on the open form of the edit leaves edit mode. *)
Lemma escape_leaves_the_edit :
  editingMemory (after EditMemory viewing) = true ∧
  editingMemory (final (keydown "Escape" true false) (after EditMemory viewing)) = false.
Proof.
  split; [reflexivity|].
  destruct (escape_key "Escape" true false (after EditMemory viewing))
    as (_ & _ & _ & _ & _ & _ & _ & Hescape).
  by destruct (Hescape eq_refl) as (_ & Hform & _); destruct (Hform eq_refl) as (_ & Hedit & _).
Defined.

(** X16 at work: with the index 1 the view jumps to the night walk. *)
Lemma jump_to_the_night_walk :
  randomMemory 1 album_page =
  (Normal (Some {| center := here; zoom := 15;
                   popup_of := record 2 "Night walk" "2024-06-01" "🌙" |}),
   album_page, [Toast (Text "Jumped to: Night walk 🎲") success]).
Proof.
  destruct (randomMemory_jumps Number_toString Object_toString coordinates 1 album_page)
    as (_ & Hjump & _).
  assert (memories album_page !! 1 = Some (record 2 "Night walk" "2024-06-01" "🌙"))
    as Hmember by (by vm_compute).
  destruct (Hjump _ (Num 40%Z) (Num (-74)%Z) Hmember eq_refl eq_refl) as (_ & Hview).
  cbn [coordinates] in Hview. destruct Hview as (title & Htitle & Hrun).
  injection Htitle as <-. exact Hrun.
Defined.

(** *** Statistics *)

Lemma album_page_memories : memories album_page = album.
Proof. by vm_compute. Qed.

Lemma album_page_stats : getStats album_page = (Normal album_stats, album_page, []).
Proof. by vm_compute. Qed.

(** X17 at work: the page on which the import of a record without a
    description has failed has no statistics. *)
Lemma littered_has_no_statistics : getStats littered = (Throw TypeError, littered, []).
Proof.
  apply (getStats_outcome Number_toString Object_toString Object_prototype_has
           Date_toString littered).
  replace (memories littered) with [undescribed] by (by vm_compute).
  by constructor.
Defined.

(** X18 at work: two happy records and one of the night, three in all. *)
Lemma album_moods :
  counts {[ "😊" := 2; "🌙" := 1 ]} = 3 ∧
  length (filter (λ m, mood_key Number_toString Object_toString m = Some "😊") album) = 2 ∧
  Forall (λ m, mood_key Number_toString Object_toString m ≠ Some "📍") album.
Proof.
  pose proof (getStats_moods Number_toString Object_toString Object_prototype_has
                Date_toString album_page album_stats album_page [] album_page_stats)
    as (_ & Hcount & Hkeys & Hsum).
  rewrite album_page_memories in Hcount, Hkeys.
  split; [exact Hsum|]. split.
  - symmetry. exact (Hcount "😊").
  - apply Hkeys. by vm_compute.
Defined.

(** X19 at work: the album's [oldestDate] is its latest date, a Monday,
    and its [newestDate] its earliest, a Wednesday. *)
Lemma album_dates_by_weekday :
  Date_toString (Str "2024-07-01") = "Mon Jul 01 2024 00:00:00 GMT+0000 (Coordinated Universal Time)" ∧
  Date_toString (Str "2024-05-01") = "Wed May 01 2024 00:00:00 GMT+0000 (Coordinated Universal Time)" ∧
  oldestDate album_stats = Some (Str "2024-07-01") ∧
  newestDate album_stats = Some (Str "2024-05-01") ∧
  Forall (λ m, ∃ date, date_of m = Some date ∧
                       printed_le Date_toString (Str "2024-07-01") date ∧
                       printed_le Date_toString date (Str "2024-05-01")) album.
Proof.
  split; [by vm_compute|]. split; [by vm_compute|]. split; [done|]. split; [done|].
  destruct (getStats_dates Number_toString Object_toString Object_prototype_has
              Date_toString album_page album_stats album_page [] album_page_stats)
    as [_ Hdates].
  destruct Hdates as (oldest & newest & Hold & Hnew & _ & _ & Hall);
    [by rewrite album_page_memories|].
  injection Hold as <-. injection Hnew as <-.
  rewrite album_page_memories in Hall.
  apply Forall_forall. intros m Hm.
  assert (is_Some (date_of m)) as [date Hdate].
  { revert m Hm. apply Forall_forall. by repeat constructor. }
  exists date. split; [done|]. by apply (Hall m).
Defined.

(** X20 at work: thirteen code units in two descriptions make an
    average of seven. *)
Lemma notes_average :
  getStats notes_page = (Normal notes_stats, notes_page, []) ∧
  sum_list (description_length <$> notes) = 13 ∧
  2 * length notes * 7 ≤ 2 * sum_list (description_length <$> notes) + length notes ∧
  2 * sum_list (description_length <$> notes) + length notes < 2 * length notes * (7 + 1).
Proof.
  assert (getStats notes_page = (Normal notes_stats, notes_page, [])) as Hrun
    by (by vm_compute).
  split; [exact Hrun|]. split; [by vm_compute|].
  pose proof (getStats_average Number_toString Object_toString Object_prototype_has
                Date_toString notes_page notes_stats notes_page [] Hrun)
    as (_ & _ & Hbounds).
  replace (memories notes_page) with notes in Hbounds by (by vm_compute).
  destruct Hbounds as [Hlow Hhigh]. split; [exact Hlow|]. apply Hhigh. simpl. lia.
Defined.

End Runs.
